(** * go-avr: the connection state machine of [avr.Amp]

    A shallow embedding of [avr/avr.go].  The file has two layers.

    - The bodies of the methods of [Amp] that run under [a.mu] are pure
      functions on the record [Amp]; each returns the new record and the list
      of effects it performs, in program order ([action]).
    - The goroutines (callers, the loop goroutine, [connect], [readFromAmp])
      and the unbuffered channels between them are a transition system
      [step : System -> event -> option System], whose moves apply the
      functions of the first layer.  An unbuffered channel operation is a
      rendezvous: one move advances the sender and the receiver together, and
      a send with no receiver has no move. *)

From Stdlib Require Import String Ascii List Bool Arith Lia.
Import ListNotations.
Open Scope string_scope.
Open Scope list_scope.

(** ** Data model *)

(** Identity of a channel created by [make(chan ...)]. *)
Definition chan := nat.

(** Identity of a [net.Conn] returned by [net.Dial]. *)
Definition stream := nat.

(** A Go [error]: [nil] is [None], any other value carries its message. *)
Definition error := option string.

(** [type state int] with its three constants. *)
Inductive state : Set := unconnected | connecting | connected.

(** [type command int]; only these two constants are ever stored in a
    request ([Ping] and [SendCommand] are the only places that build one). *)
Inductive command : Set := pingCmd | rawCmd.

(** [type response struct { err error }] *)
Record response : Set := { res_err : error }.

(** [type request struct { ch chan *response; cmd command; raw string }] *)
Record request : Set := { req_ch : chan; req_cmd : command; req_raw : string }.

(** [type conn struct]: the buffered reader and writer wrap [c], so the
    stream identity stands for the three of them. *)
Record conn : Set := { conn_c : stream }.

(** The fields of [Amp] guarded by [mu], and the immutable address. *)
Record Amp : Set := {
  a_addr : string;
  a_closed : bool;
  a_state : state;
  a_stateListeners : list chan;
  a_conn : option conn;
  a_err : error
}.

Definition state_eqb (x y : state) : bool :=
  match x, y with
  | unconnected, unconnected | connecting, connecting | connected, connected => true
  | _, _ => false
  end.

Definition set_closed (b : bool) (a : Amp) : Amp :=
  {| a_addr := a_addr a; a_closed := b; a_state := a_state a;
     a_stateListeners := a_stateListeners a; a_conn := a_conn a; a_err := a_err a |}.

Definition set_state (s : state) (a : Amp) : Amp :=
  {| a_addr := a_addr a; a_closed := a_closed a; a_state := s;
     a_stateListeners := a_stateListeners a; a_conn := a_conn a; a_err := a_err a |}.

Definition set_stateListeners (l : list chan) (a : Amp) : Amp :=
  {| a_addr := a_addr a; a_closed := a_closed a; a_state := a_state a;
     a_stateListeners := l; a_conn := a_conn a; a_err := a_err a |}.

Definition set_conn (cn : option conn) (a : Amp) : Amp :=
  {| a_addr := a_addr a; a_closed := a_closed a; a_state := a_state a;
     a_stateListeners := a_stateListeners a; a_conn := cn; a_err := a_err a |}.

Definition set_err (e : error) (a : Amp) : Amp :=
  {| a_addr := a_addr a; a_closed := a_closed a; a_state := a_state a;
     a_stateListeners := a_stateListeners a; a_conn := a_conn a; a_err := e |}.

(** The value [&Amp{addr: addr, ...}] built by [New]: every guarded field has
    its zero value. *)
Definition zeroAmp (addr : string) : Amp :=
  {| a_addr := addr; a_closed := false; a_state := unconnected;
     a_stateListeners := []; a_conn := None; a_err := None |}.

(** What a method body does besides updating the record. *)
Inductive action : Set :=
| GoConnect                                  (* go a.connect() *)
| GoReader (c : stream)                      (* go a.conn.readFromAmp() *)
| CloseReqc                                  (* close(a.reqc) *)
| CloseStream (c : stream)                   (* a.conn.c.Close() *)
| SendErr (ch : chan) (e : error)            (* ch <- err, on a listener channel *)
| Reply (ch : chan) (r : response)           (* req.ch <- &response{...} *)
| WriteString (c : stream) (s : string)      (* conn.bufw.WriteString(raw) *)
| Flush (c : stream)                         (* conn.bufw.Flush() *)
| NilConn.                                   (* conn.bufw with conn == nil *)

(** ** Strings *)

(** The delimiter ["\r"]. *)
Definition CR : string := String (ascii_of_nat 13) EmptyString.

(** [strings.HasSuffix]:
    [len(s) >= len(suffix) && s[len(s)-len(suffix):] == suffix]. *)
Definition HasSuffix (s suffix : string) : bool :=
  Nat.leb (String.length suffix) (String.length s) &&
  String.eqb
    (substring (String.length s - String.length suffix) (String.length suffix) s)
    suffix.

(** Lines 199-202 of [handleRaw]: the bytes handed to the buffered writer. *)
Definition frame (raw : string) : string :=
  if negb (HasSuffix raw CR) then (raw ++ CR)%string else raw.

(** ** Method bodies *)

(** [func (a *Amp) Addr() string] *)
Definition Addr (a : Amp) : string := a_addr a.

(** [func (a *Amp) Close() error] *)
Definition Close (a : Amp) : Amp * list action * error :=
  if a_closed a then (a, [], None)
  else
    (set_closed true a,
     CloseReqc ::
       match a_conn a with
       | Some cn => [CloseStream (conn_c cn)]
       | None => []
       end,
     None).

(** [func (a *Amp) startConnect()] *)
Definition startConnect (a : Amp) : Amp * list action :=
  if a_closed a || negb (state_eqb (a_state a) unconnected) then (a, [])
  else (set_state connecting a, [GoConnect]).

(** [func (a *Amp) setState(err error)], called with [mu] held. *)
Definition setState (e : error) (a : Amp) : Amp * list action :=
  let a1 :=
    match e with
    | None => set_state connected a
    | Some _ => set_state unconnected a
    end in
  let a2 := set_err e a1 in
  (set_stateListeners [] a2,
   map (fun ch => SendErr ch e) (a_stateListeners a2)).

(** [func (a *Amp) addStateListener(ch chan error)] *)
Definition addStateListener (ch : chan) (a : Amp) : Amp * list action :=
  if state_eqb (a_state a) connecting
  then (set_stateListeners (a_stateListeners a ++ [ch]) a, [])
  else (a, [SendErr ch (a_err a)]).

(** What [net.Dial] returned. *)
Inductive dial_result : Set :=
| DialOk (c : stream)
| DialErr (msg : string).

Definition dial_err (d : dial_result) : error :=
  match d with
  | DialOk _ => None
  | DialErr msg => Some msg
  end.

(** [func (a *Amp) connect()], from the return of [net.Dial] on. *)
Definition connect (d : dial_result) (a : Amp) : Amp * list action :=
  let '(a1, sent) := setState (dial_err d) a in
  match d with
  | DialErr _ => (a1, sent)
  | DialOk c => (set_conn (Some {| conn_c := c |}) a1, sent ++ [GoReader c])
  end.

Definition not_connected : error := Some "not connected".

(** [func (a *Amp) handleRaw(req request)]: what the loop goroutine does
    after it has read [a.state] and [a.conn] under [mu]. *)
Definition handleRaw (req : request) (a : Amp) : list action :=
  let st := a_state a in
  let cn := a_conn a in
  if negb (state_eqb st connected)
  then [Reply (req_ch req) {| res_err := not_connected |}]
  else
    match cn with
    | None => [NilConn]
    | Some cn =>
        [WriteString (conn_c cn) (frame (req_raw req));
         Flush (conn_c cn);
         Reply (req_ch req) {| res_err := None |}]
    end.

(** ** Goroutines *)

(** A caller thread. *)
Definition tid := nat.

(** The exported methods a caller can invoke. *)
Inductive api : Set :=
| ApiPing
| ApiSendCommand (cmd : string)
| ApiClose.

(** Where a caller is inside [Ping], [SendCommand] or [Close]. *)
Inductive call_pc : Set :=
| CNone                        (* has not called anything *)
| CLock (op : api)             (* at the first a.mu.Lock() of the method *)
| CSendReq (r : request)       (* a.reqc <- request{...} *)
| CRecv (ch : chan)            (* res := <-ch *)
| CReturned (e : error)        (* the method returned e *)
| CPanicked.                   (* send on closed channel *)

(** Where the loop goroutine is inside [loop], [handlePing], [handleRaw]. *)
Inductive loop_pc : Set :=
| LSelect                                   (* line 144: select *)
| LRetry                                    (* line 153: a.startConnect() *)
| LPing (req : request)                     (* lines 172-174 *)
| LPingReply1 (req : request)               (* line 177 *)
| LPingConnect (req : request)              (* line 180 *)
| LPingListen (req : request)               (* lines 181-182 *)
| LPingBlocked (req : request) (ch : chan)  (* line 119, inside addStateListener, mu held *)
| LPingWait (req : request) (ch : chan)     (* line 184: <-ch *)
| LPingReply2 (req : request) (e : error)   (* line 184: req.ch <- ... *)
| LRaw (req : request)                      (* lines 189-192 *)
| LDo (req : request) (acts : list action)  (* the rest of handleRaw *)
| LPanicked                                 (* nil pointer dereference *)
| LExit.                                    (* line 147: return *)

(** Where a [readFromAmp] goroutine is. *)
Inductive reader_pc : Set :=
| RNone
| RReading                     (* line 247: inside ReadSlice *)
| RSendLine (l : string)       (* line 252: c.a.ampc <- ... *)
| RSendErr (msg : string)      (* line 249: c.a.connerrc <- err *)
| RExit.

(** One chunk of bytes that reached a stream, with the request served. *)
Record written : Set := { w_stream : stream; w_req : request; w_bytes : string }.

(** The whole program.  A section under [a.mu] that performs no channel
    operation is one move, taken when [mu] is free; [mu] is recorded as held
    only across the two sections that send on a channel inside the lock
    ([setState] called from [connect], and [addStateListener]).  The history
    fields are written, never read, by the moves.

    From [DialReturn] to [ConnectUnlock] ([fanout s <> None]) [connect] is
    inside its critical section, and [amp s] shows the record as [connect]
    leaves it when it releases [mu]: [stateListeners] already empty (line
    110) and [conn] already stored (line 133), while the sends of line 108
    are still to come, in [fanout s].  No goroutine reads the record there,
    [mu] being held.  In the states with [fanout s = None] the record is the
    one of the program. *)
Record System : Set := {
  amp : Amp;
  mu : bool;                          (* a.mu is held across a channel send *)
  loop : loop_pc;
  dialing : nat;                      (* connect goroutines inside net.Dial *)
  fanout : option (list action);      (* connect after Dial: effects still to do *)
  readers : stream -> reader_pc;
  calls : tid -> call_pc;
  next_chan : chan;                   (* next identity given by make *)
  next_stream : stream;               (* next identity given by net.Dial *)
  (* history *)
  reqc_closes : nat;                  (* executions of close(a.reqc) *)
  stream_closes : list stream;        (* executions of conn.c.Close() *)
  dials : nat;                        (* executions of go a.connect() *)
  arrived : list request;             (* requests received from a.reqc, oldest first *)
  wire : list written                 (* chunks that reached a stream, oldest first *)
}.

Definition upd {A : Set} (f : nat -> A) (k : nat) (v : A) : nat -> A :=
  fun x => if Nat.eqb x k then v else f x.

Definition with_amp (a : Amp) (s : System) : System :=
  {| amp := a; mu := mu s; loop := loop s; dialing := dialing s; fanout := fanout s;
     readers := readers s; calls := calls s; next_chan := next_chan s;
     next_stream := next_stream s; reqc_closes := reqc_closes s;
     stream_closes := stream_closes s; dials := dials s; arrived := arrived s;
     wire := wire s |}.

Definition with_mu (b : bool) (s : System) : System :=
  {| amp := amp s; mu := b; loop := loop s; dialing := dialing s; fanout := fanout s;
     readers := readers s; calls := calls s; next_chan := next_chan s;
     next_stream := next_stream s; reqc_closes := reqc_closes s;
     stream_closes := stream_closes s; dials := dials s; arrived := arrived s;
     wire := wire s |}.

Definition with_loop (l : loop_pc) (s : System) : System :=
  {| amp := amp s; mu := mu s; loop := l; dialing := dialing s; fanout := fanout s;
     readers := readers s; calls := calls s; next_chan := next_chan s;
     next_stream := next_stream s; reqc_closes := reqc_closes s;
     stream_closes := stream_closes s; dials := dials s; arrived := arrived s;
     wire := wire s |}.

Definition with_dialing (n : nat) (s : System) : System :=
  {| amp := amp s; mu := mu s; loop := loop s; dialing := n; fanout := fanout s;
     readers := readers s; calls := calls s; next_chan := next_chan s;
     next_stream := next_stream s; reqc_closes := reqc_closes s;
     stream_closes := stream_closes s; dials := dials s; arrived := arrived s;
     wire := wire s |}.

Definition with_fanout (f : option (list action)) (s : System) : System :=
  {| amp := amp s; mu := mu s; loop := loop s; dialing := dialing s; fanout := f;
     readers := readers s; calls := calls s; next_chan := next_chan s;
     next_stream := next_stream s; reqc_closes := reqc_closes s;
     stream_closes := stream_closes s; dials := dials s; arrived := arrived s;
     wire := wire s |}.

Definition with_reader (c : stream) (r : reader_pc) (s : System) : System :=
  {| amp := amp s; mu := mu s; loop := loop s; dialing := dialing s; fanout := fanout s;
     readers := upd (readers s) c r; calls := calls s; next_chan := next_chan s;
     next_stream := next_stream s; reqc_closes := reqc_closes s;
     stream_closes := stream_closes s; dials := dials s; arrived := arrived s;
     wire := wire s |}.

Definition with_call (t : tid) (p : call_pc) (s : System) : System :=
  {| amp := amp s; mu := mu s; loop := loop s; dialing := dialing s; fanout := fanout s;
     readers := readers s; calls := upd (calls s) t p; next_chan := next_chan s;
     next_stream := next_stream s; reqc_closes := reqc_closes s;
     stream_closes := stream_closes s; dials := dials s; arrived := arrived s;
     wire := wire s |}.

Definition with_next_chan (n : chan) (s : System) : System :=
  {| amp := amp s; mu := mu s; loop := loop s; dialing := dialing s; fanout := fanout s;
     readers := readers s; calls := calls s; next_chan := n;
     next_stream := next_stream s; reqc_closes := reqc_closes s;
     stream_closes := stream_closes s; dials := dials s; arrived := arrived s;
     wire := wire s |}.

Definition with_next_stream (n : stream) (s : System) : System :=
  {| amp := amp s; mu := mu s; loop := loop s; dialing := dialing s; fanout := fanout s;
     readers := readers s; calls := calls s; next_chan := next_chan s;
     next_stream := n; reqc_closes := reqc_closes s;
     stream_closes := stream_closes s; dials := dials s; arrived := arrived s;
     wire := wire s |}.

Definition with_arrived (l : list request) (s : System) : System :=
  {| amp := amp s; mu := mu s; loop := loop s; dialing := dialing s; fanout := fanout s;
     readers := readers s; calls := calls s; next_chan := next_chan s;
     next_stream := next_stream s; reqc_closes := reqc_closes s;
     stream_closes := stream_closes s; dials := dials s; arrived := l;
     wire := wire s |}.

Definition with_wire (l : list written) (s : System) : System :=
  {| amp := amp s; mu := mu s; loop := loop s; dialing := dialing s; fanout := fanout s;
     readers := readers s; calls := calls s; next_chan := next_chan s;
     next_stream := next_stream s; reqc_closes := reqc_closes s;
     stream_closes := stream_closes s; dials := dials s; arrived := arrived s;
     wire := l |}.

(** Effects of a critical section that complete without a partner: starting
    a goroutine, closing the request channel, closing a stream. *)
Definition perform (act : action) (s : System) : System :=
  match act with
  | GoConnect =>
      {| amp := amp s; mu := mu s; loop := loop s; dialing := S (dialing s);
         fanout := fanout s; readers := readers s; calls := calls s;
         next_chan := next_chan s; next_stream := next_stream s;
         reqc_closes := reqc_closes s; stream_closes := stream_closes s;
         dials := S (dials s); arrived := arrived s; wire := wire s |}
  | GoReader c => with_reader c RReading s
  | CloseReqc =>
      {| amp := amp s; mu := mu s; loop := loop s; dialing := dialing s;
         fanout := fanout s; readers := readers s; calls := calls s;
         next_chan := next_chan s; next_stream := next_stream s;
         reqc_closes := S (reqc_closes s); stream_closes := stream_closes s;
         dials := dials s; arrived := arrived s; wire := wire s |}
  | CloseStream c =>
      {| amp := amp s; mu := mu s; loop := loop s; dialing := dialing s;
         fanout := fanout s; readers := readers s; calls := calls s;
         next_chan := next_chan s; next_stream := next_stream s;
         reqc_closes := reqc_closes s; stream_closes := stream_closes s ++ [c];
         dials := dials s; arrived := arrived s; wire := wire s |}
  | _ => s
  end.

Definition perform_all (acts : list action) (s : System) : System :=
  fold_left (fun s act => perform act s) acts s.

(** A call of [a.startConnect()] by any goroutine. *)
Definition sys_startConnect (s : System) : System :=
  let '(a, acts) := startConnect (amp s) in
  perform_all acts (with_amp a s).

(** [func New(addr string) *Amp] *)
Definition New (addr : string) : System :=
  sys_startConnect
    {| amp := zeroAmp addr; mu := false; loop := LSelect; dialing := 0;
       fanout := None; readers := fun _ => RNone; calls := fun _ => CNone;
       next_chan := 0; next_stream := 0; reqc_closes := 0; stream_closes := [];
       dials := 0; arrived := []; wire := [] |}.

(** [func (a *Amp) handleRequest(req request)] *)
Definition handleRequest (req : request) : loop_pc :=
  match req_cmd req with
  | pingCmd => LPing req
  | rawCmd => LRaw req
  end.

(** What [bufr.ReadSlice('\r')] returned. *)
Inductive read_result : Set :=
| ReadOk (bs : string)
| ReadErr (msg : string).

(** The moves of the system.  Each names the goroutine that moves and, where
    the outcome comes from outside the program (the network), the outcome. *)
Inductive event : Set :=
(* callers *)
| Call (t : tid) (op : api)        (* t enters Ping, SendCommand or Close *)
| CallerLock (t : tid)             (* t gets mu: startConnect or the body of Close *)
| PanicSend (t : tid)              (* t's send on the closed a.reqc *)
(* loop goroutine *)
| SelectReq (t : tid)              (* case req, ok := <-a.reqc with ok *)
| SelectClosed                     (* case req, ok := <-a.reqc with !ok *)
| SelectLine (c : stream)          (* case ampl := <-a.ampc *)
| SelectConnErr (c : stream)       (* case <-a.connerrc *)
| LoopLock                         (* the next section under mu *)
| LoopWrite (n : nat) (wr fl : error)
                                   (* WriteString and Flush returned wr and fl;
                                      n bytes reached the stream *)
| LoopNil                          (* conn.bufw with conn == nil *)
| LoopReply (t : tid)              (* req.ch <- ..., received by t *)
(* connect goroutine *)
| DialReturn (e : error)           (* net.Dial returned; mu taken; fields set *)
| ListenerSend                     (* ch <- err in setState, received by the loop *)
| ConnectUnlock                    (* go readFromAmp (on success); mu released *)
(* reader goroutine *)
| ReadSlice (c : stream) (r : read_result).

Definition new_request (ch : chan) (op : api) : request :=
  match op with
  | ApiSendCommand cmd => {| req_ch := ch; req_cmd := rawCmd; req_raw := cmd |}
  | _ => {| req_ch := ch; req_cmd := pingCmd; req_raw := "" |}
  end.

Definition step (s : System) (ev : event) : option System :=
  match ev with
  | Call t op =>
      match calls s t with
      | CNone => Some (with_call t (CLock op) s)
      | _ => None
      end
  | CallerLock t =>
      if mu s then None else
      match calls s t with
      | CLock ApiClose =>
          let '(a, acts, e) := Close (amp s) in
          Some (with_call t (CReturned e) (perform_all acts (with_amp a s)))
      | CLock op =>
          let s1 := sys_startConnect s in
          let ch := next_chan s1 in
          Some (with_call t (CSendReq (new_request ch op)) (with_next_chan (S ch) s1))
      | _ => None
      end
  | PanicSend t =>
      match calls s t, reqc_closes s with
      | CSendReq _, S _ => Some (with_call t CPanicked s)
      | _, _ => None
      end
  | SelectReq t =>
      match loop s, calls s t, reqc_closes s with
      | LSelect, CSendReq r, O =>
          Some (with_loop (handleRequest r)
                  (with_arrived (arrived s ++ [r])
                     (with_call t (CRecv (req_ch r)) s)))
      | _, _, _ => None
      end
  | SelectClosed =>
      match loop s, reqc_closes s with
      | LSelect, S _ => Some (with_loop LExit s)
      | _, _ => None
      end
  | SelectLine c =>
      match loop s, readers s c with
      | LSelect, RSendLine _ => Some (with_reader c RReading s)
      | _, _ => None
      end
  | SelectConnErr c =>
      match loop s, readers s c with
      | LSelect, RSendErr _ => Some (with_loop LRetry (with_reader c RExit s))
      | _, _ => None
      end
  | LoopLock =>
      if mu s then None else
      match loop s with
      | LRetry => Some (with_loop LSelect (sys_startConnect s))
      | LPing req =>
          let st := a_state (amp s) in
          if state_eqb st connected
          then Some (with_loop (LPingReply1 req) s)
          else Some (with_loop (LPingConnect req) s)
      | LPingConnect req => Some (with_loop (LPingListen req) (sys_startConnect s))
      | LPingListen req =>
          let ch := next_chan s in
          let s1 := with_next_chan (S ch) s in
          match addStateListener ch (amp s) with
          | (a, []) => Some (with_loop (LPingWait req ch) (with_amp a s1))
          | (a, _ :: _) =>
              Some (with_loop (LPingBlocked req ch) (with_mu true (with_amp a s1)))
          end
      | LRaw req => Some (with_loop (LDo req (handleRaw req (amp s))) s)
      | _ => None
      end
  | LoopWrite n wr fl =>
      match loop s with
      | LDo req (WriteString c payload :: Flush _ :: rest) =>
          Some (with_loop (LDo req rest)
                  (with_wire
                     (wire s ++
                      [{| w_stream := c; w_req := req;
                          w_bytes := substring 0 n payload |}]) s))
      | _ => None
      end
  | LoopNil =>
      match loop s with
      | LDo _ (NilConn :: _) => Some (with_loop LPanicked s)
      | _ => None
      end
  | LoopReply t =>
      match calls s t with
      | CRecv ch =>
          match loop s with
          | LPingReply1 req =>
              if Nat.eqb (req_ch req) ch
              then Some (with_loop (LPingConnect req) (with_call t (CReturned None) s))
              else None
          | LPingReply2 req e =>
              if Nat.eqb (req_ch req) ch
              then Some (with_loop LSelect (with_call t (CReturned e) s))
              else None
          | LDo req (Reply ch' r :: rest) =>
              if Nat.eqb ch' ch
              then Some (with_loop
                           match rest with [] => LSelect | _ :: _ => LDo req rest end
                           (with_call t (CReturned (res_err r)) s))
              else None
          | _ => None
          end
      | _ => None
      end
  | DialReturn e =>
      if mu s then None else
      match dialing s, fanout s with
      | S n, None =>
          let d :=
            match e with
            | None => DialOk (next_stream s)
            | Some msg => DialErr msg
            end in
          let '(a, acts) := connect d (amp s) in
          Some (with_fanout (Some acts)
                  (with_mu true
                     (with_dialing n
                        (with_next_stream
                           match e with
                           | None => S (next_stream s)
                           | Some _ => next_stream s
                           end
                           (with_amp a s)))))
      | _, _ => None
      end
  | ListenerSend =>
      match fanout s, loop s with
      | Some (SendErr ch e :: rest), LPingWait req ch' =>
          if Nat.eqb ch ch'
          then Some (with_loop (LPingReply2 req e) (with_fanout (Some rest) s))
          else None
      | _, _ => None
      end
  | ConnectUnlock =>
      match fanout s with
      | Some (SendErr _ _ :: _) => None
      | Some acts => Some (with_mu false (with_fanout None (perform_all acts s)))
      | None => None
      end
  | ReadSlice c r =>
      match readers s c with
      | RReading =>
          Some (with_reader c
                  match r with
                  | ReadOk bs => RSendLine bs
                  | ReadErr msg => RSendErr msg
                  end s)
      | _ => None
      end
  end.

(** A schedule: the moves taken, in order. *)
Fixpoint run (s : System) (evs : list event) : option System :=
  match evs with
  | [] => Some s
  | ev :: evs' =>
      match step s ev with
      | Some s' => run s' evs'
      | None => None
      end
  end.

(** The states a handle made by [New] can be in. *)
Definition reachable (s : System) : Prop :=
  exists addr evs, run (New addr) evs = Some s.

(** ** Specification vocabulary *)

(** The state an attempt that ended with [e] leads to. *)
Definition outcome_state (e : error) : state :=
  match e with
  | None => connected
  | Some _ => unconnected
  end.

(** The transition relation [unconnected -> connecting -> {connected |
    unconnected}], by the kind of move: the completion of an attempt leaves
    [connecting] for the state of its outcome; a move that calls
    [startConnect] keeps the state or goes from [unconnected] to
    [connecting]; every other move keeps the state. *)
Definition transition_ok (ev : event) (st st' : state) : bool :=
  match ev with
  | DialReturn e => state_eqb st connecting && state_eqb st' (outcome_state e)
  | CallerLock _ | LoopLock =>
      state_eqb st st' || (state_eqb st unconnected && state_eqb st' connecting)
  | _ => state_eqb st st'
  end.

(** [subseq l1 l2]: [l1] is [l2] with some elements left out, order kept. *)
Inductive subseq {A : Type} : list A -> list A -> Prop :=
| subseq_nil : subseq [] []
| subseq_skip x l1 l2 : subseq l1 l2 -> subseq l1 (x :: l2)
| subseq_take x l1 l2 : subseq l1 l2 -> subseq (x :: l1) (x :: l2).

(** The request the loop goroutine has received and may still write. *)
Definition pending (l : loop_pc) : list request :=
  match l with
  | LRaw req => [req]
  | LDo req (WriteString _ _ :: _) => [req]
  | _ => []
  end.

(** The effect lists [handleRaw] can be left with. *)
Definition raw_tail (req : request) (acts : list action) : Prop :=
  match acts with
  | [WriteString _ payload; Flush _; Reply _ _] => payload = frame (req_raw req)
  | [Reply _ _] | [NilConn] => True
  | _ => False
  end.

(** The effects [connect] performs after [net.Dial]. *)
Definition fan_action (act : action) : bool :=
  match act with
  | SendErr _ _ | GoReader _ => true
  | _ => false
  end.

(** One attempt at a time: a [connect] goroutine is inside [net.Dial]
    exactly while the state is [connecting], and [connect] holds [mu] from
    the return of [net.Dial] to its end. *)
Definition attempts_inv (s : System) : Prop :=
  dialing s = (if state_eqb (a_state (amp s)) connecting then 1 else 0) /\
  match fanout s with
  | Some acts => mu s = true /\ forallb fan_action acts = true
  | None => True
  end.

(** The request channel is closed when, and only when, [closed] is set. *)
Definition closed_inv (s : System) : Prop :=
  reqc_closes s = (if a_closed (amp s) then 1 else 0).

(** The chunks on the wire follow the order of arrival at [a.reqc], and
    each is the beginning of the framed command of its request. *)
Definition wire_inv (s : System) : Prop :=
  subseq (map w_req (wire s) ++ pending (loop s)) (arrived s) /\
  Forall (fun w => prefix (w_bytes w) (frame (req_raw (w_req w))) = true) (wire s) /\
  match loop s with
  | LDo req acts => raw_tail req acts
  | _ => True
  end.

(** Every request carries a reply channel of its own: the channels of the
    requests that wait to be sent or have arrived are pairwise different. *)
Definition fresh_inv (s : System) : Prop :=
  (forall t r, calls s t = CSendReq r -> req_ch r < next_chan s) /\
  (forall t1 t2 r1 r2,
      calls s t1 = CSendReq r1 -> calls s t2 = CSendReq r2 ->
      req_ch r1 = req_ch r2 -> t1 = t2) /\
  (forall r, In r (arrived s) -> req_ch r < next_chan s) /\
  (forall t r, calls s t = CSendReq r -> ~ In (req_ch r) (map req_ch (arrived s))) /\
  NoDup (map req_ch (arrived s)).

(** The loop goroutine is at [<-ch] in [handlePing]. *)
Definition waiting_on (l : loop_pc) (ch : chan) : Prop :=
  exists req, l = LPingWait req ch.

Definition not_waiting (l : loop_pc) : Prop :=
  forall req ch, l <> LPingWait req ch.

Definition no_send (act : action) : bool :=
  match act with
  | SendErr _ _ => false
  | _ => true
  end.

(** The waiters: [stateListeners] holds at most the channel the loop
    goroutine is waiting on, and only while the state is [connecting];
    while [connect] fans out, the channel it is about to send on is the one
    the loop goroutine is waiting on. *)
Definition listeners_inv (s : System) : Prop :=
  match fanout s with
  | None =>
      match a_stateListeners (amp s) with
      | [] => not_waiting (loop s)
      | [ch] => a_state (amp s) = connecting /\ waiting_on (loop s) ch
      | _ => False
      end
  | Some acts =>
      a_stateListeners (amp s) = [] /\
      match acts with
      | SendErr ch _ :: rest => waiting_on (loop s) ch /\ forallb no_send rest = true
      | _ => not_waiting (loop s)
      end
  end.

(** Who holds [mu] across a channel send: [connect] while it fans out, or
    the loop goroutine blocked in [addStateListener]. *)
Definition mu_inv (s : System) : Prop :=
  mu s = true ->
  fanout s <> None \/ exists req ch, loop s = LPingBlocked req ch.

(** A caller that is still inside its call, or has panicked. *)
Definition never_returned (p : call_pc) : bool :=
  match p with
  | CLock _ | CSendReq _ | CPanicked => true
  | _ => false
  end.

(** A call of [Ping] or [SendCommand] that has not got past its send on
    [a.reqc]. *)
Definition before_send (p : call_pc) : Prop :=
  match p with
  | CLock op => op <> ApiClose
  | CSendReq _ | CPanicked => True
  | _ => False
  end.

(** The state of a handle made by [New "avr:23"] after the schedule [evs]
    (the handle as made, if the schedule cannot be followed). *)
Definition state_after (evs : list event) : System :=
  match run (New "avr:23") evs with
  | Some s => s
  | None => New "avr:23"
  end.

(** ** Proof automation *)

(** Case analysis on every [match] of an equation [step s ev = Some s']. *)
Ltac break_step H :=
  repeat match type of H with
    | context [match ?x with _ => _ end] => destruct x eqn:?; try discriminate H
    end;
  try (injection H as <-).

Ltac wire_done :=
  unfold wire_inv; cbn;
  repeat match goal with E : loop _ = _ |- _ => rewrite E; clear E end;
  cbn in *; auto.

(** The loop goroutine was not, and is not, at [<-ch]. *)
Ltac not_waiting_now :=
  right; split; intros ? ?;
  repeat match goal with E : loop _ = _ |- _ => rewrite E; clear E end;
  try discriminate;
  unfold handleRequest;
  repeat match goal with |- context [match ?x with _ => _ end] => destruct x end;
  discriminate.

#[local] Arguments connect : simpl never.
#[local] Arguments sys_startConnect : simpl never.
#[local] Arguments perform_all : simpl never.

(** ** Further invariants *)

(** [a.conn] is set exactly in state [connected], and then [a.err] is nil. *)
Definition conn_inv (s : System) : Prop :=
  (a_conn (amp s) <> None <-> a_state (amp s) = connected) /\
  (a_state (amp s) = connected -> a_err (amp s) = None).

(** The loop goroutine has not dereferenced a nil [conn], and is not about
    to. *)
Definition no_nil_inv (s : System) : Prop :=
  loop s <> LPanicked /\
  forall req rest, loop s <> LDo req (NilConn :: rest).

(** ** Streams *)

(** [c] is the stream of the connection the handle holds. *)
Definition on_conn (a : Amp) (c : stream) : Prop :=
  a_conn a = Some {| conn_c := c |}.

Definition act_on_conn (a : Amp) (act : action) : Prop :=
  match act with
  | GoReader c | CloseStream c | WriteString c _ | Flush c => on_conn a c
  | _ => True
  end.

(** Whatever reads, writes or closes a stream does so on the stream of the
    connection the handle holds, and [net.Dial] has succeeded exactly when
    the handle holds one. *)
Definition one_conn_inv (s : System) : Prop :=
  next_stream s = match a_conn (amp s) with Some _ => 1 | None => 0 end /\
  (forall c, readers s c <> RNone -> on_conn (amp s) c) /\
  Forall (fun w => on_conn (amp s) (w_stream w)) (wire s) /\
  Forall (on_conn (amp s)) (stream_closes s) /\
  match loop s with
  | LDo _ acts => Forall (act_on_conn (amp s)) acts
  | _ => True
  end /\
  match fanout s with
  | Some acts => Forall (act_on_conn (amp s)) acts
  | None => True
  end.

Ltac one_conn_done :=
  unfold one_conn_inv; cbn in *;
  repeat match goal with E : loop _ = _ |- _ => rewrite E; clear E end;
  cbn; repeat split; auto.

(** ** Closing *)

(** Only [Close] closes a stream, and it does so at most once. *)
Definition closes_inv (s : System) : Prop :=
  if a_closed (amp s) then length (stream_closes s) <= 1
  else stream_closes s = [].

(** ** Readers *)

(** While [connect] is about to start a reader, no reader has been started. *)
Definition reader_fresh_inv (s : System) : Prop :=
  forall acts c,
    fanout s = Some acts -> In (GoReader c) acts ->
    forall c', readers s c' = RNone.

(** The reader is at a send on [a.ampc] or [a.connerrc]. *)
Definition reader_sending (r : reader_pc) : bool :=
  match r with
  | RSendLine _ | RSendErr _ => true
  | _ => false
  end.

(** ** Requests and replies *)

(** The request the loop goroutine is handling. *)
Definition serving (l : loop_pc) : option request :=
  match l with
  | LPing req | LPingReply1 req | LPingConnect req | LPingListen req
  | LPingBlocked req _ | LPingWait req _ | LPingReply2 req _
  | LRaw req | LDo req _ => Some req
  | _ => None
  end.

(** A caller that waits for its reply waits for the reply to the request
    the loop goroutine is handling, and no other caller waits. *)
Definition served_inv (s : System) : Prop :=
  (forall t ch, calls s t = CRecv ch ->
     exists req, serving (loop s) = Some req /\ req_ch req = ch) /\
  (forall t1 t2 c1 c2,
     calls s t1 = CRecv c1 -> calls s t2 = CRecv c2 -> t1 = t2).

Ltac rewrite_loop :=
  cbn;
  repeat match goal with E : loop _ = _ |- _ => rewrite E; clear E end;
  try reflexivity.

(** The loop goroutine is in [handleRaw] only for a [rawCmd] request. *)
Definition raw_loop (l : loop_pc) : Prop :=
  match l with
  | LRaw req | LDo req _ => req_cmd req = rawCmd
  | _ => True
  end.

(** Whatever is on the wire was written for a [rawCmd] request. *)
Definition cmd_inv (s : System) : Prop :=
  Forall (fun w => req_cmd (w_req w) = rawCmd) (wire s) /\ raw_loop (loop s).

(** ** Outcomes on their way to a caller *)

(** Of the effects [connect] still has to perform, only the first can be a
    send to a waiter. *)
Definition sends_inv (s : System) : Prop :=
  match fanout s with
  | Some acts => forallb no_send (tl acts) = true
  | None => True
  end.

(** The outcome [e] of an attempt is on its way to a caller of [Ping]:
    [connect] is about to send it to a waiter, or the loop goroutine has
    received it and is about to reply. *)
Definition pending_err (s : System) (e : error) : Prop :=
  (exists acts ch, fanout s = Some acts /\ In (SendErr ch e) acts) \/
  (exists req, loop s = LPingReply2 req e).

(** ** A call, from its first move to its return *)

(** Where a call of [Ping] by [t], made in state [s0], has got to after the
    schedule [evs]. *)
Definition ping_track (s0 : System) (t : tid) (evs : list event) (s : System) : Prop :=
  match calls s t with
  | CNone => False
  | CLock op => op = ApiPing
  | CSendReq r => req_cmd r = pingCmd
  | CRecv ch =>
      (forall e, pending_err s e -> In (DialReturn e) evs) /\
      match loop s with
      | LPing _ => True
      | LPingReply1 _ => a_state (amp s) = connected
      | LPingConnect _ | LPingListen _ | LPingWait _ _ | LPingBlocked _ _
      | LPingReply2 _ _ => a_state (amp s0) <> connected
      | _ => False
      end
  | CReturned e =>
      (a_state (amp s0) = connected -> e = None) /\
      (a_state (amp s0) <> connected -> In (DialReturn e) evs)
  | CPanicked => True
  end.

(** No chunk on the wire belongs to the request with reply channel [ch]. *)
Definition no_chunk (ch : chan) (s : System) : Prop :=
  forall w, In w (wire s) -> req_ch (w_req w) <> ch.

(** The last chunk on the wire was written for [r], on the stream of the
    connection the handle holds, and is the beginning of the framed command
    of [r]. *)
Definition last_chunk (r : request) (s : System) : Prop :=
  exists ws c n,
    wire s = ws ++ [{| w_stream := c; w_req := r;
                       w_bytes := substring 0 n (frame (req_raw r)) |}] /\
    a_conn (amp s) = Some {| conn_c := c |}.

(** What is left of [handleRaw] for the request [r] of a call made in state
    [s0]: the "not connected" reply, the write and the nil reply, or the nil
    reply after the write. *)
Definition raw_shape (s0 s : System) (r : request) (acts : list action) : Prop :=
  (exists ch',
      acts = [Reply ch' {| res_err := not_connected |}] /\
      no_chunk (req_ch r) s /\ a_state (amp s0) <> connected) \/
  (exists c ch',
      acts = [WriteString c (frame (req_raw r)); Flush c;
              Reply ch' {| res_err := None |}] /\
      a_conn (amp s) = Some {| conn_c := c |} /\ a_state (amp s) = connected) \/
  (exists ch',
      acts = [Reply ch' {| res_err := None |}] /\
      last_chunk r s /\ a_state (amp s) = connected).

(** Where a call of [SendCommand cmd] by [t], made in state [s0], has got
    to. *)
Definition raw_track (s0 : System) (t : tid) (cmd : string) (s : System) : Prop :=
  match calls s t with
  | CNone => False
  | CLock op => op = ApiSendCommand cmd
  | CSendReq r => r = new_request (req_ch r) (ApiSendCommand cmd)
  | CRecv ch =>
      match loop s with
      | LRaw r => r = new_request ch (ApiSendCommand cmd) /\ no_chunk ch s
      | LDo r acts => r = new_request ch (ApiSendCommand cmd) /\ raw_shape s0 s r acts
      | _ => False
      end
  | CReturned _ | CPanicked => True
  end.

(** ** A registered waiter *)

(** The moves that neither take [mu] nor belong to [connect]. *)
Definition quiet (ev : event) : bool :=
  match ev with
  | CallerLock _ | LoopLock | DialReturn _ | ListenerSend | ConnectUnlock => false
  | _ => true
  end.

Definition is_ListenerSend (ev : event) : bool :=
  match ev with
  | ListenerSend => true
  | _ => false
  end.

(** [connect] is inside its critical section for the outcome [e] of the
    attempt that was in flight in state [s0]. *)
Definition in_section (s0 s : System) (e : error) : Prop :=
  mu s = true /\
  a_stateListeners (amp s) = [] /\
  a_state (amp s) = outcome_state e /\
  a_err (amp s) = e /\
  dials s = dials s0.

(** Where the waiter [ch] of the request [req] of the caller [t], registered
    in state [s0] while an attempt was in flight, has got to after the
    schedule [evs]: the attempt is still in flight; or it has ended with
    [e] and [connect] is about to send [e] on [ch]; or [e] has been sent. *)
Definition wait_track
  (s0 : System) (req : request) (ch : chan) (t : tid)
  (evs : list event) (s : System) : Prop :=
  ((forall e, ~ In (DialReturn e) evs) /\
   filter is_ListenerSend evs = [] /\
   fanout s = None /\ mu s = false /\
   a_stateListeners (amp s) = [ch] /\
   a_state (amp s) = connecting /\
   dials s = dials s0 /\
   loop s = LPingWait req ch /\
   calls s t = CRecv (req_ch req)) \/
  exists e evs1 evs2,
    evs = evs1 ++ DialReturn e :: evs2 /\
    (forall e', ~ In (DialReturn e') evs1) /\
    (((forall e', ~ In (DialReturn e') evs2) /\
      filter is_ListenerSend evs = [] /\
      (exists rest, fanout s = Some (SendErr ch e :: rest) /\
                    forallb no_send rest = true) /\
      in_section s0 s e /\
      loop s = LPingWait req ch /\
      calls s t = CRecv (req_ch req)) \/
     ((~ In ConnectUnlock evs ->
       (forall e', ~ In (DialReturn e') evs2) /\
       length (filter is_ListenerSend evs) = 1 /\
       (exists rest, fanout s = Some rest /\ forallb no_send rest = true) /\
       in_section s0 s e) /\
      ((loop s = LPingReply2 req e /\ calls s t = CRecv (req_ch req)) \/
       calls s t = CReturned e))).

(** * Properties *)

(** ** Strings *)

Lemma HasSuffix_cons (x : ascii) (s : string) :
  s <> EmptyString -> HasSuffix (String x s) CR = HasSuffix s CR.
Proof.
  destruct s as [|y s']; [congruence|intros _].
  unfold HasSuffix, CR. cbn [String.length Nat.leb andb].
  cbn [Nat.sub]. rewrite !Nat.sub_0_r. reflexivity.
Qed.

Lemma HasSuffix_app_CR (p : string) : HasSuffix (p ++ CR)%string CR = true.
Proof.
  induction p as [|x p IH]; [reflexivity|].
  cbn [String.append]. rewrite HasSuffix_cons; [exact IH|].
  destruct p; discriminate.
Qed.

Lemma HasSuffix_CR_inv (s : string) :
  HasSuffix s CR = true -> exists p, s = (p ++ CR)%string.
Proof.
  induction s as [|x s IH]; [discriminate|].
  destruct s as [|y s'].
  - unfold HasSuffix, CR. cbn. intros H.
    exists EmptyString. cbn. f_equal.
    destruct (Ascii.eqb x "013") eqn:E; [|discriminate].
    apply Ascii.eqb_eq in E. exact E.
  - rewrite HasSuffix_cons by discriminate. intros H.
    destruct (IH H) as [p Hp]. exists (String x p). cbn. now rewrite Hp.
Qed.

Lemma HasSuffix_CR_iff (s : string) :
  HasSuffix s CR = true <-> exists p, s = (p ++ CR)%string.
Proof.
  split; [apply HasSuffix_CR_inv|].
  intros [p ->]. apply HasSuffix_app_CR.
Qed.

Lemma frame_without_delimiter (raw : string) :
  (forall p, raw <> (p ++ CR)%string) -> frame raw = (raw ++ CR)%string.
Proof.
  intros H. unfold frame.
  destruct (HasSuffix raw CR) eqn:E; [|reflexivity].
  apply HasSuffix_CR_inv in E. destruct E as [p Hp]. now destruct (H p).
Qed.

Lemma frame_with_delimiter (p : string) : frame (p ++ CR) = (p ++ CR)%string.
Proof. unfold frame. now rewrite HasSuffix_app_CR. Qed.

Lemma prefix_substring (n : nat) (s : string) : prefix (substring 0 n s) s = true.
Proof.
  revert n. induction s as [|x s IH]; intros [|n]; cbn; try reflexivity.
  rewrite IH. destruct (ascii_dec x x); [reflexivity|congruence].
Qed.

(** ** The state record *)

Lemma state_eqb_eq (x y : state) : state_eqb x y = true <-> x = y.
Proof. destruct x, y; cbn; split; congruence. Qed.

Lemma state_eqb_refl (x : state) : state_eqb x x = true.
Proof. now destruct x. Qed.

Lemma state_eqb_neq (x y : state) : state_eqb x y = false <-> x <> y.
Proof. destruct x, y; cbn; split; congruence. Qed.

(** C7: a payload that does not end in the delimiter is handed to the
    writer with exactly one delimiter appended; a payload that already ends
    in the delimiter is handed over unchanged. *)
Theorem C7_delimiter_appended_once (req : request) (a : Amp) (cn : conn) :
  a_state a = connected ->
  a_conn a = Some cn ->
  exists payload,
    handleRaw req a =
      [WriteString (conn_c cn) payload; Flush (conn_c cn);
       Reply (req_ch req) {| res_err := None |}] /\
    ((forall p, req_raw req <> (p ++ CR)%string) ->
     payload = (req_raw req ++ CR)%string) /\
    (forall p, req_raw req = (p ++ CR)%string -> payload = req_raw req).
Proof.
  intros Hst Hcn. exists (frame (req_raw req)). repeat split.
  - unfold handleRaw. now rewrite Hst, Hcn.
  - apply frame_without_delimiter.
  - intros p ->. apply frame_with_delimiter.
Qed.

Lemma C7_delimiter_appended_once_witness :
  exists payload,
    handleRaw {| req_ch := 0; req_cmd := rawCmd; req_raw := "PWON" |}
      (set_conn (Some {| conn_c := 0 |}) (set_state connected (zeroAmp "avr:23"))) =
      [WriteString 0 payload; Flush 0; Reply 0 {| res_err := None |}] /\
    ((forall p, "PWON" <> (p ++ CR)%string) -> payload = ("PWON" ++ CR)%string) /\
    (forall p, "PWON" = (p ++ CR)%string -> payload = "PWON").
Proof.
  exact (C7_delimiter_appended_once
           {| req_ch := 0; req_cmd := rawCmd; req_raw := "PWON" |}
           (set_conn (Some {| conn_c := 0 |}) (set_state connected (zeroAmp "avr:23")))
           {| conn_c := 0 |} eq_refl eq_refl).
Defined.

(** ** Method bodies *)

Lemma startConnect_connecting (a : Amp) :
  a_state a = connecting -> startConnect a = (a, []).
Proof.
  intros H. unfold startConnect. rewrite H. cbn. now rewrite orb_true_r.
Qed.

Lemma startConnect_connected (a : Amp) :
  a_state a = connected -> startConnect a = (a, []).
Proof.
  intros H. unfold startConnect. rewrite H. cbn. now rewrite orb_true_r.
Qed.

Lemma startConnect_closed (a : Amp) :
  a_closed a = true -> startConnect a = (a, []).
Proof. intros H. unfold startConnect. now rewrite H. Qed.

Lemma startConnect_fires (a : Amp) :
  a_closed a = false -> a_state a = unconnected ->
  startConnect a = (set_state connecting a, [GoConnect]).
Proof. intros H1 H2. unfold startConnect. now rewrite H1, H2. Qed.

(** ** Requests in the loop goroutine *)

Lemma upd_same {A : Set} (f : nat -> A) (k : nat) (v : A) : upd f k v k = v.
Proof. unfold upd. now rewrite Nat.eqb_refl. Qed.

Lemma upd_other {A : Set} (f : nat -> A) (k k' : nat) (v : A) :
  k' <> k -> upd f k v k' = f k'.
Proof. intros H. unfold upd. apply Nat.eqb_neq in H. now rewrite H. Qed.

(** Once the loop goroutine can take [mu], a raw command taken up while the
    state is not [connected] is answered in two moves. *)
Lemma handleRaw_not_connected (s : System) (req : request) (t : tid) :
  loop s = LRaw req ->
  mu s = false ->
  a_state (amp s) <> connected ->
  calls s t = CRecv (req_ch req) ->
  exists s',
    run s [LoopLock; LoopReply t] = Some s' /\
    calls s' t = CReturned not_connected /\
    loop s' = LSelect /\
    wire s' = wire s /\
    amp s' = amp s /\
    dialing s' = dialing s /\
    fanout s' = fanout s /\
    mu s' = false.
Proof.
  intros Hl Hmu Hst Hc.
  apply state_eqb_neq in Hst.
  unfold run, step. rewrite Hmu, Hl. cbn.
  unfold handleRaw. rewrite Hst. cbn. rewrite Hc, Nat.eqb_refl.
  eexists; split; [reflexivity|]. cbn. rewrite upd_same. repeat split; auto.
Qed.

(** C10: a raw command taken up while the state is [connected] is answered
    with nil whatever [WriteString] and [Flush] returned and however many
    bytes reached the stream. *)
Theorem C10_write_errors_dropped
  (s : System) (req : request) (cn : conn) (t : tid) (n : nat) (wr fl : error) :
  loop s = LRaw req ->
  mu s = false ->
  a_state (amp s) = connected ->
  a_conn (amp s) = Some cn ->
  calls s t = CRecv (req_ch req) ->
  exists s',
    run s [LoopLock; LoopWrite n wr fl; LoopReply t] = Some s' /\
    calls s' t = CReturned None /\
    loop s' = LSelect /\
    amp s' = amp s /\
    wire s' = wire s ++
      [{| w_stream := conn_c cn; w_req := req;
          w_bytes := substring 0 n (frame (req_raw req)) |}].
Proof.
  intros Hl Hmu Hst Hcn Hc.
  unfold run, step. rewrite Hmu, Hl. cbn.
  unfold handleRaw. rewrite Hst, Hcn. cbn. rewrite Hc, Nat.eqb_refl.
  eexists; split; [reflexivity|]. cbn. rewrite upd_same. repeat split; auto.
Qed.

Lemma C10_write_errors_dropped_witness :
  let s := state_after [DialReturn None; ConnectUnlock;
                        Call 1 (ApiSendCommand "PWON"); CallerLock 1; SelectReq 1] in
  exists s',
    run s [LoopLock; LoopWrite 2 (Some "broken pipe") (Some "broken pipe");
           LoopReply 1] = Some s' /\
    calls s' 1 = CReturned None /\
    loop s' = LSelect /\
    amp s' = amp s /\
    wire s' = wire s ++
      [{| w_stream := conn_c {| conn_c := 0 |};
          w_req := {| req_ch := 0; req_cmd := rawCmd; req_raw := "PWON" |};
          w_bytes := substring 0 2 (frame "PWON") |}].
Proof.
  apply (C10_write_errors_dropped
           (state_after [DialReturn None; ConnectUnlock;
                         Call 1 (ApiSendCommand "PWON"); CallerLock 1; SelectReq 1])
           {| req_ch := 0; req_cmd := rawCmd; req_raw := "PWON" |}
           {| conn_c := 0 |} 1 2 (Some "broken pipe") (Some "broken pipe")).
  - vm_compute. reflexivity.
  - vm_compute. reflexivity.
  - vm_compute. reflexivity.
  - vm_compute. reflexivity.
  - vm_compute. reflexivity.
Defined.

(** ** Effects on the system *)

Lemma perform_frame (act : action) (s : System) :
  amp (perform act s) = amp s /\
  mu (perform act s) = mu s /\
  loop (perform act s) = loop s /\
  fanout (perform act s) = fanout s /\
  calls (perform act s) = calls s /\
  arrived (perform act s) = arrived s /\
  wire (perform act s) = wire s.
Proof. destruct act; cbn; repeat split; reflexivity. Qed.

Lemma perform_all_frame (acts : list action) (s : System) :
  amp (perform_all acts s) = amp s /\
  mu (perform_all acts s) = mu s /\
  loop (perform_all acts s) = loop s /\
  fanout (perform_all acts s) = fanout s /\
  calls (perform_all acts s) = calls s /\
  arrived (perform_all acts s) = arrived s /\
  wire (perform_all acts s) = wire s.
Proof.
  unfold perform_all. revert s.
  induction acts as [|act acts IH]; intros s; cbn [fold_left].
  - repeat split; reflexivity.
  - destruct (IH (perform act s)) as (H1 & H2 & H3 & H4 & H5 & H6 & H7).
    destruct (perform_frame act s) as (G1 & G2 & G3 & G4 & G5 & G6 & G7).
    repeat split; congruence.
Qed.

Lemma perform_all_fan (acts : list action) (s : System) :
  forallb fan_action acts = true ->
  dialing (perform_all acts s) = dialing s /\
  dials (perform_all acts s) = dials s /\
  reqc_closes (perform_all acts s) = reqc_closes s.
Proof.
  unfold perform_all. revert s.
  induction acts as [|act acts IH]; intros s H; cbn [fold_left forallb] in *.
  - repeat split; reflexivity.
  - apply andb_prop in H. destruct H as [Ha Hr].
    destruct (IH (perform act s) Hr) as (H1 & H2 & H3).
    rewrite H1, H2, H3.
    destruct act; cbn in *; try discriminate; repeat split; reflexivity.
Qed.

(** [startConnect] either does nothing or starts the one attempt. *)
Lemma sys_startConnect_cases (s : System) :
  (sys_startConnect s = with_amp (amp s) s /\
   (a_closed (amp s) = true \/ a_state (amp s) <> unconnected)) \/
  (sys_startConnect s = perform GoConnect (with_amp (set_state connecting (amp s)) s) /\
   a_closed (amp s) = false /\ a_state (amp s) = unconnected).
Proof.
  unfold sys_startConnect, startConnect.
  destruct (a_closed (amp s)) eqn:Hc; cbn.
  - left. split; [reflexivity|now left].
  - destruct (a_state (amp s)) eqn:Hs; cbn.
    + right. repeat split; reflexivity.
    + left. split; [reflexivity|right; discriminate].
    + left. split; [reflexivity|right; discriminate].
Qed.

Lemma connect_spec (d : dial_result) (a : Amp) :
  let a' := fst (connect d a) in
  a_state a' = outcome_state (dial_err d) /\
  a_closed a' = a_closed a /\
  a_err a' = dial_err d /\
  a_stateListeners a' = [] /\
  a_conn a' = match d with DialOk c => Some {| conn_c := c |} | DialErr _ => a_conn a end /\
  forallb fan_action (snd (connect d a)) = true.
Proof.
  unfold connect. destruct d as [c|msg]; cbn; repeat split.
  - rewrite forallb_app. cbn. rewrite andb_true_r.
    induction (a_stateListeners a); cbn; auto.
  - induction (a_stateListeners a); cbn; auto.
Qed.

Lemma Close_spec (a : Amp) :
  Close a =
    (set_closed true a,
     if a_closed a then []
     else CloseReqc ::
            match a_conn a with
            | Some cn => [CloseStream (conn_c cn)]
            | None => []
            end,
     None).
Proof.
  unfold Close. destruct (a_closed a) eqn:H; [|reflexivity].
  destruct a; cbn in *; subst; reflexivity.
Qed.

(** ** Moves, case by case *)

Lemma step_CallerLock (s s' : System) (t : tid) :
  step s (CallerLock t) = Some s' ->
  mu s = false /\
  ((calls s t = CLock ApiClose /\
    s' = with_call t (CReturned None)
           (perform_all (snd (fst (Close (amp s))))
              (with_amp (set_closed true (amp s)) s))) \/
   (exists op, op <> ApiClose /\ calls s t = CLock op /\
      s' = with_call t (CSendReq (new_request (next_chan (sys_startConnect s)) op))
             (with_next_chan (S (next_chan (sys_startConnect s)))
                (sys_startConnect s)))).
Proof.
  cbn [step]. intros H.
  destruct (mu s); [discriminate|]. split; [reflexivity|].
  destruct (calls s t) as [|op| | | |] eqn:Hc; try discriminate.
  destruct op as [|cmd|].
  - right. exists ApiPing. injection H as <-. repeat split; congruence.
  - right. exists (ApiSendCommand cmd). injection H as <-. repeat split; congruence.
  - left. rewrite Close_spec in H. injection H as <-.
    rewrite Close_spec. cbn. auto.
Qed.

Lemma step_ConnectUnlock (s s' : System) :
  step s ConnectUnlock = Some s' ->
  exists acts,
    fanout s = Some acts /\
    s' = with_mu false (with_fanout None (perform_all acts s)).
Proof.
  cbn [step]. intros H.
  destruct (fanout s) as [acts|]; [|discriminate].
  exists acts. split; [reflexivity|].
  destruct acts as [|[] acts]; try discriminate; now injection H as <-.
Qed.

Lemma step_DialReturn (s s' : System) (e : error) :
  step s (DialReturn e) = Some s' ->
  exists n d,
    mu s = false /\ dialing s = S n /\ fanout s = None /\
    dial_err d = e /\
    s' = with_fanout (Some (snd (connect d (amp s))))
           (with_mu true
              (with_dialing n
                 (with_next_stream
                    match e with
                    | None => S (next_stream s)
                    | Some _ => next_stream s
                    end
                    (with_amp (fst (connect d (amp s))) s)))).
Proof.
  cbn [step]. intros H.
  destruct (mu s); [discriminate|].
  destruct (dialing s) as [|n]; [discriminate|].
  destruct (fanout s); [discriminate|].
  exists n.
  exists (match e with None => DialOk (next_stream s) | Some msg => DialErr msg end).
  destruct (connect _ (amp s)) as [a acts] eqn:Hc.
  injection H as <-. cbn. repeat split. now destruct e.
Qed.

(** ** Invariants of the system *)

Lemma addStateListener_frame (ch : chan) (a : Amp) :
  a_state (fst (addStateListener ch a)) = a_state a /\
  a_closed (fst (addStateListener ch a)) = a_closed a /\
  a_conn (fst (addStateListener ch a)) = a_conn a /\
  a_err (fst (addStateListener ch a)) = a_err a.
Proof.
  unfold addStateListener.
  destruct (state_eqb (a_state a) connecting); cbn; auto.
Qed.

Lemma attempts_inv_New (addr : string) : attempts_inv (New addr).
Proof. split; reflexivity. Qed.

Lemma attempts_inv_fanout_free (s : System) :
  attempts_inv s -> mu s = false -> fanout s = None.
Proof.
  intros [_ Hf] Hmu. destruct (fanout s); [destruct Hf; congruence|reflexivity].
Qed.

Lemma attempts_inv_startConnect (s : System) :
  mu s = false -> attempts_inv s -> attempts_inv (sys_startConnect s).
Proof.
  intros Hmu Hinv. pose proof (attempts_inv_fanout_free s Hinv Hmu) as Hn.
  destruct Hinv as [Hd Hf].
  destruct (sys_startConnect_cases s) as [[-> _]|(-> & Hc & Hu)];
    split; cbn; rewrite ?Hn; auto.
  rewrite Hd, Hu. reflexivity.
Qed.

Lemma attempts_inv_step (s s' : System) (ev : event) :
  attempts_inv s -> step s ev = Some s' -> attempts_inv s'.
Proof.
  intros Hinv H. pose proof Hinv as [Hd Hf].
  destruct ev.
  - cbn [step] in H. break_step H. split; assumption.
  - apply step_CallerLock in H. destruct H as [Hmu [[_ ->]|(op & _ & _ & ->)]].
    + rewrite (attempts_inv_fanout_free s Hinv Hmu) in Hf.
      destruct (perform_all_frame (snd (fst (Close (amp s))))
                  (with_amp (set_closed true (amp s)) s))
        as (Ha & _ & _ & Hfo & _).
      split; cbn; rewrite ?Ha, ?Hfo; cbn.
      * rewrite <- Hd. rewrite Close_spec. cbn.
        destruct (a_closed (amp s)); [reflexivity|].
        destruct (a_conn (amp s)); reflexivity.
      * now rewrite (attempts_inv_fanout_free s Hinv Hmu).
    + apply attempts_inv_startConnect in Hinv; [|assumption].
      destruct Hinv as [Hd' Hf']. split; cbn; assumption.
  - cbn [step] in H. break_step H. split; assumption.
  - cbn [step] in H. break_step H. split; assumption.
  - cbn [step] in H. break_step H. split; assumption.
  - cbn [step] in H. break_step H. split; assumption.
  - cbn [step] in H. break_step H. split; assumption.
  - cbn [step] in H. destruct (mu s) eqn:Hmu; [discriminate|].
    pose proof (attempts_inv_startConnect s Hmu Hinv) as [Hd' Hf'].
    pose proof (attempts_inv_fanout_free s Hinv Hmu) as Hn.
    break_step H; try (split; cbn; rewrite ?Hn; auto; fail).
    all: match goal with
         | E : addStateListener ?ch ?a0 = (?a1, _) |- _ =>
             pose proof (addStateListener_frame ch a0) as (Hs & _);
             rewrite E in Hs; cbn in Hs
         end.
    all: split; cbn; rewrite ?Hn, ?Hs; auto.
  - cbn [step] in H. break_step H; split; assumption.
  - cbn [step] in H. break_step H; split; assumption.
  - cbn [step] in H. break_step H; split; assumption.
  - apply step_DialReturn in H.
    destruct H as (n & d & Hmu & Hn & Hfo & He & ->).
    destruct (connect_spec d (amp s)) as (Hs & _ & _ & _ & _ & Hfan).
    split; cbn.
    + rewrite Hs. rewrite Hn in Hd.
      destruct (state_eqb (a_state (amp s)) connecting); [|discriminate].
      injection Hd as ->. now destruct (dial_err d).
    + auto.
  - cbn [step] in H. break_step H; subst. cbn in Hf. destruct Hf as [Hmu Hfan].
    split; cbn; auto.
  - apply step_ConnectUnlock in H. destruct H as (acts & Hfo & ->).
    rewrite Hfo in Hf. destruct Hf as [_ Hfan].
    destruct (perform_all_frame acts s) as (Ha & _).
    destruct (perform_all_fan acts s Hfan) as (Hdi & _).
    split; cbn; [|exact I]. now rewrite Ha, Hdi.
  - cbn [step] in H. break_step H; split; assumption.
Qed.

Lemma attempts_inv_run (evs : list event) (s s' : System) :
  attempts_inv s -> run s evs = Some s' -> attempts_inv s'.
Proof.
  revert s. induction evs as [|ev evs IH]; intros s Hinv H; cbn in H.
  - now injection H as <-.
  - destruct (step s ev) as [s1|] eqn:Hs; [|discriminate].
    eapply IH; [|exact H]. eapply attempts_inv_step; eassumption.
Qed.

Lemma attempts_inv_reachable (s : System) : reachable s -> attempts_inv s.
Proof.
  intros (addr & evs & H).
  eapply attempts_inv_run; [apply attempts_inv_New|exact H].
Qed.

Lemma closed_inv_New (addr : string) : closed_inv (New addr).
Proof. reflexivity. Qed.

Lemma sys_startConnect_closed (s : System) :
  a_closed (amp (sys_startConnect s)) = a_closed (amp s) /\
  reqc_closes (sys_startConnect s) = reqc_closes s /\
  a_conn (amp (sys_startConnect s)) = a_conn (amp s) /\
  mu (sys_startConnect s) = mu s /\
  loop (sys_startConnect s) = loop s /\
  calls (sys_startConnect s) = calls s /\
  arrived (sys_startConnect s) = arrived s /\
  wire (sys_startConnect s) = wire s /\
  fanout (sys_startConnect s) = fanout s.
Proof.
  destruct (sys_startConnect_cases s) as [[-> _]|(-> & _)]; cbn; repeat split.
Qed.

Lemma closed_inv_step (s s' : System) (ev : event) :
  attempts_inv s -> closed_inv s -> step s ev = Some s' -> closed_inv s'.
Proof.
  unfold closed_inv. intros Hatt Hinv H.
  destruct ev.
  - cbn [step] in H. break_step H; cbn; congruence.
  - apply step_CallerLock in H. destruct H as [Hmu [[_ ->]|(op & _ & _ & ->)]].
    + rewrite Close_spec. unfold perform_all. cbn.
      destruct (a_closed (amp s)) eqn:Hc; cbn.
      * exact Hinv.
      * destruct (a_conn (amp s)); cbn; now rewrite Hinv.
    + destruct (sys_startConnect_closed s) as (Hc & Hr & _). cbn. now rewrite Hc, Hr.
  - cbn [step] in H. break_step H; cbn; congruence.
  - cbn [step] in H. break_step H; cbn; congruence.
  - cbn [step] in H. break_step H; cbn; congruence.
  - cbn [step] in H. break_step H; cbn; congruence.
  - cbn [step] in H. break_step H; cbn; congruence.
  - cbn [step] in H. destruct (mu s) eqn:Hmu; [discriminate|].
    destruct (sys_startConnect_closed s) as (Hc & Hr & _).
    break_step H; cbn; rewrite ?Hc, ?Hr; try exact Hinv.
    all: match goal with
         | E : addStateListener ?ch ?a0 = (?a1, _) |- _ =>
             pose proof (addStateListener_frame ch a0) as (_ & Hs & _);
             rewrite E in Hs; cbn in Hs
         end.
    all: now rewrite Hs.
  - cbn [step] in H. break_step H; cbn; congruence.
  - cbn [step] in H. break_step H; cbn; congruence.
  - cbn [step] in H. break_step H; cbn; congruence.
  - apply step_DialReturn in H.
    destruct H as (n & d & Hmu & Hn & Hfo & He & ->).
    destruct (connect_spec d (amp s)) as (_ & Hc & _).
    cbn. now rewrite Hc.
  - cbn [step] in H. break_step H; cbn; congruence.
  - apply step_ConnectUnlock in H. destruct H as (acts & Hfo & ->).
    destruct Hatt as [_ Hf]. rewrite Hfo in Hf. destruct Hf as [_ Hfan].
    destruct (perform_all_frame acts s) as (Ha & _).
    destruct (perform_all_fan acts s Hfan) as (_ & _ & Hr).
    cbn. now rewrite Ha, Hr.
  - cbn [step] in H. break_step H; cbn; congruence.
Qed.

Lemma closed_inv_reachable (s : System) : reachable s -> closed_inv s.
Proof.
  intros (addr & evs & H).
  assert (forall evs s0 s1,
             attempts_inv s0 -> closed_inv s0 -> run s0 evs = Some s1 -> closed_inv s1)
    as Hrun.
  { clear. induction evs as [|ev evs IH]; intros s0 s1 Ha Hc H; cbn in H.
    - now injection H as <-.
    - destruct (step s0 ev) as [s2|] eqn:Hs; [|discriminate].
      eapply IH; [| |exact H].
      + eapply attempts_inv_step; eassumption.
      + eapply closed_inv_step; eassumption. }
  eapply Hrun; [apply attempts_inv_New|apply closed_inv_New|exact H].
Qed.

(** A move keeps the connection state unless it is the completion of an
    attempt or a call of [startConnect] that starts one. *)
Lemma step_state (s s' : System) (ev : event) :
  step s ev = Some s' ->
  match ev with
  | DialReturn e => a_state (amp s') = outcome_state e
  | CallerLock _ | LoopLock =>
      a_state (amp s') = a_state (amp s) \/
      (a_closed (amp s) = false /\ a_state (amp s) = unconnected /\
       a_state (amp s') = connecting /\ dials s' = S (dials s))
  | _ => a_state (amp s') = a_state (amp s)
  end.
Proof.
  intros H.
  assert (a_state (amp (sys_startConnect s)) = a_state (amp s) \/
          (a_closed (amp s) = false /\ a_state (amp s) = unconnected /\
           a_state (amp (sys_startConnect s)) = connecting /\
           dials (sys_startConnect s) = S (dials s))) as Hsc.
  { destruct (sys_startConnect_cases s) as [[-> _]|(-> & Hc & Hu)]; cbn; auto. }
  destruct ev.
  - cbn [step] in H. break_step H. reflexivity.
  - apply step_CallerLock in H. destruct H as [Hmu [[_ ->]|(op & _ & _ & ->)]].
    + left. destruct (perform_all_frame (snd (fst (Close (amp s))))
                        (with_amp (set_closed true (amp s)) s)) as (Ha & _).
      cbn. now rewrite Ha.
    + cbn. exact Hsc.
  - cbn [step] in H. break_step H. reflexivity.
  - cbn [step] in H. break_step H. reflexivity.
  - cbn [step] in H. break_step H. reflexivity.
  - cbn [step] in H. break_step H. reflexivity.
  - cbn [step] in H. break_step H. reflexivity.
  - cbn [step] in H. destruct (mu s) eqn:Hmu; [discriminate|].
    break_step H; cbn; auto.
    all: match goal with
         | E : addStateListener ?ch ?a0 = (?a1, _) |- _ =>
             pose proof (addStateListener_frame ch a0) as (Hs & _);
             rewrite E in Hs; cbn in Hs
         end.
    all: now left.
  - cbn [step] in H. break_step H; reflexivity.
  - cbn [step] in H. break_step H; reflexivity.
  - cbn [step] in H. break_step H; reflexivity.
  - apply step_DialReturn in H.
    destruct H as (n & d & Hmu & Hn & Hfo & He & ->).
    destruct (connect_spec d (amp s)) as (Hs & _).
    cbn. now rewrite Hs, He.
  - cbn [step] in H. break_step H; reflexivity.
  - apply step_ConnectUnlock in H. destruct H as (acts & Hfo & ->).
    destruct (perform_all_frame acts s) as (Ha & _).
    cbn. now rewrite Ha.
  - cbn [step] in H. break_step H; reflexivity.
Qed.

(** C8: every move of a handle made by [New] changes the connection state
    along [unconnected -> connecting -> {connected | unconnected}] only: the
    completion of an attempt leaves [connecting] for [connected] (nil) or
    [unconnected] (error), a call of [startConnect] keeps the state or goes
    from [unconnected] to [connecting], and no other move changes it. *)
Theorem C8_transition_relation (s s' : System) (ev : event) :
  reachable s ->
  step s ev = Some s' ->
  transition_ok ev (a_state (amp s)) (a_state (amp s')) = true.
Proof.
  intros Hr H. pose proof (step_state s s' ev H) as Hst.
  destruct ev; cbn [transition_ok];
    try (rewrite Hst; apply state_eqb_refl).
  - destruct Hst as [->|(_ & -> & -> & _)]; [|reflexivity].
    now rewrite state_eqb_refl.
  - destruct Hst as [->|(_ & -> & -> & _)]; [|reflexivity].
    now rewrite state_eqb_refl.
  - rewrite Hst, state_eqb_refl, andb_true_r.
    apply attempts_inv_reachable in Hr. destruct Hr as [Hd _].
    apply step_DialReturn in H. destruct H as (n & d & _ & Hn & _).
    rewrite Hn in Hd.
    destruct (state_eqb (a_state (amp s)) connecting); [reflexivity|discriminate].
Qed.

Lemma reachable_state_after (evs : list event) :
  run (New "avr:23") evs <> None -> reachable (state_after evs).
Proof.
  intros H. exists "avr:23", evs. unfold state_after.
  destruct (run (New "avr:23") evs); congruence.
Qed.

Lemma C8_transition_relation_witness :
  transition_ok (DialReturn (Some "refused"))
    (a_state (amp (state_after [])))
    (a_state (amp (state_after [DialReturn (Some "refused")]))) = true.
Proof.
  apply (C8_transition_relation (state_after [])
           (state_after [DialReturn (Some "refused")])
           (DialReturn (Some "refused"))).
  - apply reachable_state_after. discriminate.
  - reflexivity.
Defined.

(** ** Close *)

Lemma step_closed_monotone (s s' : System) (ev : event) :
  step s ev = Some s' -> a_closed (amp s) = true -> a_closed (amp s') = true.
Proof.
  intros H Hc.
  destruct (sys_startConnect_closed s) as (Hsc & _).
  destruct ev.
  - cbn [step] in H. break_step H. exact Hc.
  - apply step_CallerLock in H. destruct H as [Hmu [[_ ->]|(op & _ & _ & ->)]].
    + destruct (perform_all_frame (snd (fst (Close (amp s))))
                  (with_amp (set_closed true (amp s)) s)) as (Ha & _).
      cbn. now rewrite Ha.
    + cbn. congruence.
  - cbn [step] in H. break_step H. exact Hc.
  - cbn [step] in H. break_step H. exact Hc.
  - cbn [step] in H. break_step H. exact Hc.
  - cbn [step] in H. break_step H. exact Hc.
  - cbn [step] in H. break_step H. exact Hc.
  - cbn [step] in H. destruct (mu s) eqn:Hmu; [discriminate|].
    break_step H; cbn; try congruence.
    all: match goal with
         | E : addStateListener ?ch ?a0 = (?a1, _) |- _ =>
             pose proof (addStateListener_frame ch a0) as (_ & Hs & _);
             rewrite E in Hs; cbn in Hs
         end.
    all: congruence.
  - cbn [step] in H. break_step H; exact Hc.
  - cbn [step] in H. break_step H; exact Hc.
  - cbn [step] in H. break_step H; exact Hc.
  - apply step_DialReturn in H.
    destruct H as (n & d & Hmu & Hn & Hfo & He & ->).
    destruct (connect_spec d (amp s)) as (_ & Hcl & _).
    cbn. congruence.
  - cbn [step] in H. break_step H; exact Hc.
  - apply step_ConnectUnlock in H. destruct H as (acts & Hfo & ->).
    destruct (perform_all_frame acts s) as (Ha & _).
    cbn. now rewrite Ha.
  - cbn [step] in H. break_step H; exact Hc.
Qed.

(** C9: [Close] returns nil and leaves [closed] set.  On a handle that is
    not closed it sets [closed], closes the request channel and closes the
    stream of the current connection if there is one; on a closed handle it
    changes nothing and performs nothing.  No move clears [closed], and the
    request channel has been closed once if [closed] is set and never
    otherwise.  A caller of [Close] that gets [mu] returns nil in that
    move. *)
Theorem C9_Close_idempotent (s : System) (t : tid) :
  reachable s ->
  let a' := fst (fst (Close (amp s))) in
  let acts := snd (fst (Close (amp s))) in
  snd (Close (amp s)) = None /\
  a_closed a' = true /\
  (a_closed (amp s) = false ->
   a' = set_closed true (amp s) /\
   acts = CloseReqc ::
            match a_conn (amp s) with
            | Some cn => [CloseStream (conn_c cn)]
            | None => []
            end) /\
  (a_closed (amp s) = true -> a' = amp s /\ acts = []) /\
  Close a' = (a', [], None) /\
  reqc_closes s = (if a_closed (amp s) then 1 else 0) /\
  (forall ev s',
      step s ev = Some s' -> a_closed (amp s) = true ->
      a_closed (amp s') = true /\ reqc_closes s' = 1) /\
  (calls s t = CLock ApiClose -> mu s = false ->
   exists s',
     step s (CallerLock t) = Some s' /\
     calls s' t = CReturned None /\
     a_closed (amp s') = true /\
     reqc_closes s' = 1).
Proof.
  intros Hr.
  pose proof (closed_inv_reachable s Hr) as Hci.
  pose proof (attempts_inv_reachable s Hr) as Hai.
  cbn zeta. repeat split.
  - unfold Close. now destruct (a_closed (amp s)).
  - unfold Close. destruct (a_closed (amp s)) eqn:Hc; [exact Hc|reflexivity].
  - unfold Close. now rewrite H.
  - unfold Close. now rewrite H.
  - unfold Close. now rewrite H.
  - unfold Close. now rewrite H.
  - unfold Close at 2 3. destruct (a_closed (amp s)) eqn:Hc; cbn.
    + unfold Close. now rewrite Hc.
    + reflexivity.
  - exact Hci.
  - eapply step_closed_monotone; eassumption.
  - assert (closed_inv s') as Hci'
        by (eapply closed_inv_step; eassumption).
    unfold closed_inv in Hci'.
    now rewrite (step_closed_monotone s s' ev H H0) in Hci'.
  - intros Hc Hmu.
    assert (exists s', step s (CallerLock t) = Some s') as [s' Hs].
    { cbn [step]. rewrite Hmu, Hc. rewrite Close_spec. eauto. }
    exists s'. split; [exact Hs|].
    assert (closed_inv s') as Hci'
        by (eapply closed_inv_step; eassumption).
    apply step_CallerLock in Hs.
    destruct Hs as [_ [[_ ->]|(op & Hop & Hc' & _)]].
    + destruct (perform_all_frame (snd (fst (Close (amp s))))
                  (with_amp (set_closed true (amp s)) s)) as (Ha & _).
      unfold closed_inv in Hci'. cbn in Hci'. rewrite Ha in Hci'. cbn in Hci'.
      cbn. rewrite upd_same, Ha. cbn. auto.
    + rewrite Hc in Hc'. injection Hc' as <-. now destruct Hop.
Qed.

Lemma C9_Close_idempotent_witness :
  let s := state_after [Call 1 ApiClose; CallerLock 1; Call 2 ApiClose] in
  let a' := fst (fst (Close (amp s))) in
  let acts := snd (fst (Close (amp s))) in
  snd (Close (amp s)) = None /\
  a_closed a' = true /\
  (a_closed (amp s) = false ->
   a' = set_closed true (amp s) /\
   acts = CloseReqc ::
            match a_conn (amp s) with
            | Some cn => [CloseStream (conn_c cn)]
            | None => []
            end) /\
  (a_closed (amp s) = true -> a' = amp s /\ acts = []) /\
  Close a' = (a', [], None) /\
  reqc_closes s = (if a_closed (amp s) then 1 else 0) /\
  (forall ev s',
      step s ev = Some s' -> a_closed (amp s) = true ->
      a_closed (amp s') = true /\ reqc_closes s' = 1) /\
  (calls s 2 = CLock ApiClose -> mu s = false ->
   exists s',
     step s (CallerLock 2) = Some s' /\
     calls s' 2 = CReturned None /\
     a_closed (amp s') = true /\
     reqc_closes s' = 1).
Proof.
  apply (C9_Close_idempotent
           (state_after [Call 1 ApiClose; CallerLock 1; Call 2 ApiClose]) 2).
  apply reachable_state_after. discriminate.
Defined.

(** ** After the connection is lost *)

Lemma step_connected (s s' : System) (ev : event) :
  attempts_inv s ->
  a_state (amp s) = connected ->
  step s ev = Some s' ->
  a_state (amp s') = connected /\
  a_conn (amp s') = a_conn (amp s) /\
  dials s' = dials s.
Proof.
  intros Hatt Hst H.
  assert (sys_startConnect s = with_amp (amp s) s) as Hsc.
  { destruct (sys_startConnect_cases s) as [[-> _]|(_ & _ & Hu)];
      [reflexivity|congruence]. }
  destruct ev.
  - cbn [step] in H. break_step H. auto.
  - apply step_CallerLock in H. destruct H as [Hmu [[_ ->]|(op & _ & _ & ->)]].
    + rewrite Close_spec. unfold perform_all. cbn.
      destruct (a_closed (amp s)); cbn; [auto|].
      destruct (a_conn (amp s)) eqn:Hcn; cbn; rewrite ?Hcn; auto.
    + rewrite Hsc. cbn. auto.
  - cbn [step] in H. break_step H. auto.
  - cbn [step] in H. break_step H. auto.
  - cbn [step] in H. break_step H. auto.
  - cbn [step] in H. break_step H. auto.
  - cbn [step] in H. break_step H. auto.
  - cbn [step] in H. destruct (mu s) eqn:Hmu; [discriminate|].
    rewrite Hsc in H.
    break_step H; cbn; auto.
    all: match goal with
         | E : addStateListener ?ch ?a0 = (?a1, _) |- _ =>
             pose proof (addStateListener_frame ch a0) as (Hs & _ & Hcn & _);
             rewrite E in Hs, Hcn; cbn in Hs, Hcn
         end.
    all: repeat split; congruence.
  - cbn [step] in H. break_step H; auto.
  - cbn [step] in H. break_step H; auto.
  - cbn [step] in H. break_step H; auto.
  - apply step_DialReturn in H.
    destruct H as (n & d & Hmu & Hn & Hfo & He & ->).
    destruct Hatt as [Hd _]. rewrite Hn, Hst in Hd. discriminate.
  - cbn [step] in H. break_step H; auto.
  - apply step_ConnectUnlock in H. destruct H as (acts & Hfo & ->).
    destruct Hatt as [_ Hf]. rewrite Hfo in Hf. destruct Hf as [_ Hfan].
    destruct (perform_all_frame acts s) as (Ha & _).
    destruct (perform_all_fan acts s Hfan) as (_ & Hdials & _).
    cbn. rewrite Ha. auto.
  - cbn [step] in H. break_step H; auto.
Qed.

Lemma run_connected (evs : list event) (s s' : System) :
  attempts_inv s ->
  a_state (amp s) = connected ->
  run s evs = Some s' ->
  a_state (amp s') = connected /\
  a_conn (amp s') = a_conn (amp s) /\
  dials s' = dials s.
Proof.
  revert s. induction evs as [|ev evs IH]; intros s Hatt Hst H; cbn in H.
  - injection H as <-. auto.
  - destruct (step s ev) as [s1|] eqn:Hs; [|discriminate].
    destruct (step_connected s s1 ev Hatt Hst Hs) as (H1 & H2 & H3).
    destruct (IH s1 (attempts_inv_step s s1 ev Hatt Hs) H1 H) as (G1 & G2 & G3).
    repeat split; congruence.
Qed.

(** C1 (what the code does): once the loop goroutine has received a read
    failure on a handle whose state is [connected], the state stays
    [connected] under every later schedule, the handle keeps the connection
    it had, and no further connection attempt is ever started. *)
Theorem C1_read_failure_keeps_connected
  (s s1 s' : System) (c : stream) (evs : list event) :
  reachable s ->
  a_state (amp s) = connected ->
  step s (SelectConnErr c) = Some s1 ->
  run s1 evs = Some s' ->
  loop s1 = LRetry /\
  a_state (amp s') = connected /\
  a_conn (amp s') = a_conn (amp s) /\
  dials s' = dials s.
Proof.
  intros Hr Hst Hs Hrun.
  pose proof (attempts_inv_reachable s Hr) as Hatt.
  destruct (step_connected s s1 _ Hatt Hst Hs) as (H1 & H2 & H3).
  destruct (run_connected evs s1 s' (attempts_inv_step s s1 _ Hatt Hs) H1 Hrun)
    as (G1 & G2 & G3).
  split.
  - cbn [step] in Hs. break_step Hs. reflexivity.
  - repeat split; congruence.
Qed.

(** The schedule of the witness: the dial succeeds, the reader fails, the
    loop goroutine takes the failure and calls [startConnect]; then
    [SendCommand "PWON"] runs to its end. *)
Lemma C1_read_failure_keeps_connected_witness :
  let s := state_after [DialReturn None; ConnectUnlock; ReadSlice 0 (ReadErr "EOF")] in
  let s1 := state_after [DialReturn None; ConnectUnlock; ReadSlice 0 (ReadErr "EOF");
                         SelectConnErr 0] in
  let s' := state_after [DialReturn None; ConnectUnlock; ReadSlice 0 (ReadErr "EOF");
                         SelectConnErr 0; LoopLock;
                         Call 1 (ApiSendCommand "PWON"); CallerLock 1; SelectReq 1;
                         LoopLock; LoopWrite 0 (Some "broken pipe") None; LoopReply 1] in
  (loop s1 = LRetry /\
   a_state (amp s') = connected /\
   a_conn (amp s') = a_conn (amp s) /\
   dials s' = dials s) /\
  a_conn (amp s') = Some {| conn_c := 0 |} /\
  dials s' = 1 /\
  calls s' 1 = CReturned None /\
  map w_stream (wire s') = [0].
Proof.
  split.
  - apply (C1_read_failure_keeps_connected
             (state_after [DialReturn None; ConnectUnlock; ReadSlice 0 (ReadErr "EOF")])
             (state_after [DialReturn None; ConnectUnlock; ReadSlice 0 (ReadErr "EOF");
                           SelectConnErr 0])
             (state_after [DialReturn None; ConnectUnlock; ReadSlice 0 (ReadErr "EOF");
                           SelectConnErr 0; LoopLock;
                           Call 1 (ApiSendCommand "PWON"); CallerLock 1; SelectReq 1;
                           LoopLock; LoopWrite 0 (Some "broken pipe") None; LoopReply 1])
             0
             [LoopLock; Call 1 (ApiSendCommand "PWON"); CallerLock 1; SelectReq 1;
              LoopLock; LoopWrite 0 (Some "broken pipe") None; LoopReply 1]).
    + apply reachable_state_after. vm_compute. discriminate.
    + vm_compute. reflexivity.
    + vm_compute. reflexivity.
    + vm_compute. reflexivity.
  - vm_compute. repeat split.
Defined.

(** ** Calls on a closed handle *)

Lemma before_send_never_returned (p : call_pc) :
  before_send p -> never_returned p = true.
Proof. destruct p; cbn; auto; contradiction. Qed.

Lemma step_before_send (s s' : System) (ev : event) (t : tid) :
  reqc_closes s <> 0 ->
  step s ev = Some s' ->
  before_send (calls s t) ->
  before_send (calls s' t).
Proof.
  intros Hcl H Hb.
  destruct ev.
  - cbn [step] in H. break_step H. cbn. unfold upd.
    destruct (Nat.eqb_spec t t0) as [->|]; [|exact Hb].
    rewrite Heqc in Hb. contradiction.
  - apply step_CallerLock in H. destruct H as [Hmu [[Hc ->]|(op & Hop & Hc & ->)]].
    + destruct (perform_all_frame (snd (fst (Close (amp s))))
                  (with_amp (set_closed true (amp s)) s))
        as (_ & _ & _ & _ & Hca & _).
      cbn. rewrite Hca. cbn. unfold upd.
      destruct (Nat.eqb_spec t t0) as [->|]; [|exact Hb].
      rewrite Hc in Hb. now destruct Hb.
    + destruct (sys_startConnect_closed s) as (_ & _ & _ & _ & _ & Hca & _).
      cbn. rewrite Hca. unfold upd.
      destruct (Nat.eqb_spec t t0) as [->|]; [exact I|exact Hb].
  - cbn [step] in H. break_step H. cbn. unfold upd.
    destruct (Nat.eqb_spec t t0) as [->|]; [exact I|exact Hb].
  - cbn [step] in H. break_step H. congruence.
  - cbn [step] in H. break_step H. exact Hb.
  - cbn [step] in H. break_step H. exact Hb.
  - cbn [step] in H. break_step H. exact Hb.
  - cbn [step] in H. destruct (mu s) eqn:Hmu; [discriminate|].
    destruct (sys_startConnect_closed s) as (_ & _ & _ & _ & _ & Hca & _).
    break_step H; cbn; rewrite ?Hca; exact Hb.
  - cbn [step] in H. break_step H; exact Hb.
  - cbn [step] in H. break_step H; exact Hb.
  - cbn [step] in H.
    destruct (calls s t0) as [| | |ch| |] eqn:Hc; try discriminate.
    assert (t <> t0) as Hne by (intros ->; rewrite Hc in Hb; exact Hb).
    break_step H; cbn; rewrite upd_other by exact Hne; exact Hb.
  - apply step_DialReturn in H.
    destruct H as (n & d & Hmu & Hn & Hfo & He & ->). exact Hb.
  - cbn [step] in H. break_step H; exact Hb.
  - apply step_ConnectUnlock in H. destruct H as (acts & Hfo & ->).
    destruct (perform_all_frame acts s) as (_ & _ & _ & _ & Hca & _).
    cbn. now rewrite Hca.
  - cbn [step] in H. break_step H; exact Hb.
Qed.

Lemma run_before_send (evs : list event) (s s' : System) (t : tid) :
  attempts_inv s -> closed_inv s ->
  a_closed (amp s) = true ->
  run s evs = Some s' ->
  before_send (calls s t) ->
  before_send (calls s' t).
Proof.
  revert s. induction evs as [|ev evs IH]; intros s Ha Hc Hcl H Hb; cbn in H.
  - now injection H as <-.
  - destruct (step s ev) as [s1|] eqn:Hs; [|discriminate].
    apply (IH s1).
    + eapply attempts_inv_step; eassumption.
    + eapply closed_inv_step; eassumption.
    + eapply step_closed_monotone; eassumption.
    + exact H.
    + eapply step_before_send; [|exact Hs|exact Hb].
      unfold closed_inv in Hc. rewrite Hc, Hcl. discriminate.
Qed.

(** C2 (what the code does): on a closed handle a call of [Ping] or
    [SendCommand] never returns, under any schedule; as soon as it has got
    [mu] for its [startConnect], its send on the closed request channel
    panics. *)
Theorem C2_call_after_Close_panics (s : System) (t : tid) (op : api) :
  reachable s ->
  a_closed (amp s) = true ->
  op <> ApiClose ->
  calls s t = CLock op ->
  (forall evs s', run s evs = Some s' -> never_returned (calls s' t) = true) /\
  (mu s = false ->
   exists s1 s2 r,
     step s (CallerLock t) = Some s1 /\
     calls s1 t = CSendReq r /\
     step s1 (SelectReq t) = None /\
     step s1 (PanicSend t) = Some s2 /\
     calls s2 t = CPanicked).
Proof.
  intros Hr Hcl Hop Hc.
  pose proof (attempts_inv_reachable s Hr) as Hatt.
  pose proof (closed_inv_reachable s Hr) as Hci.
  split.
  - intros evs s' Hrun. apply before_send_never_returned.
    eapply run_before_send; try eassumption.
    rewrite Hc. exact Hop.
  - intros Hmu.
    destruct (sys_startConnect_closed s)
      as (Hcl' & Hrc & _ & _ & Hlo & Hca & _).
    unfold closed_inv in Hci. rewrite Hcl in Hci.
    set (s1 := with_call t
                 (CSendReq (new_request (next_chan (sys_startConnect s)) op))
                 (with_next_chan (S (next_chan (sys_startConnect s)))
                    (sys_startConnect s))).
    assert (step s (CallerLock t) = Some s1) as Hs1.
    { cbn [step]. rewrite Hmu, Hc. destruct op; [reflexivity|reflexivity|].
      now destruct Hop. }
    exists s1, (with_call t CPanicked s1),
      (new_request (next_chan (sys_startConnect s)) op).
    split; [exact Hs1|]. split; [subst s1; cbn; apply upd_same|].
    assert (reqc_closes s1 = 1) as Hr1 by (subst s1; cbn; congruence).
    assert (calls s1 t = CSendReq (new_request (next_chan (sys_startConnect s)) op))
      as Hc1 by (subst s1; cbn; apply upd_same).
    repeat split.
    + cbn [step]. rewrite Hc1, Hr1. now destruct (loop s1).
    + cbn [step]. now rewrite Hc1, Hr1.
    + cbn. apply upd_same.
Qed.

Lemma C2_call_after_Close_panics_witness :
  let s := state_after [Call 1 ApiClose; CallerLock 1;
                        Call 2 (ApiSendCommand "PWON")] in
  (forall evs s', run s evs = Some s' -> never_returned (calls s' 2) = true) /\
  (mu s = false ->
   exists s1 s2 r,
     step s (CallerLock 2) = Some s1 /\
     calls s1 2 = CSendReq r /\
     step s1 (SelectReq 2) = None /\
     step s1 (PanicSend 2) = Some s2 /\
     calls s2 2 = CPanicked).
Proof.
  apply (C2_call_after_Close_panics
           (state_after [Call 1 ApiClose; CallerLock 1;
                         Call 2 (ApiSendCommand "PWON")])
           2 (ApiSendCommand "PWON")).
  - apply reachable_state_after. vm_compute. discriminate.
  - vm_compute. reflexivity.
  - discriminate.
  - vm_compute. reflexivity.
Defined.

(** ** A waiter that registers after the attempt has ended *)

Lemma step_blocked (s s' : System) (ev : event) (req : request) (ch : chan) :
  loop s = LPingBlocked req ch ->
  mu s = true ->
  fanout s = None ->
  step s ev = Some s' ->
  loop s' = LPingBlocked req ch /\
  mu s' = true /\
  fanout s' = None /\
  amp s' = amp s /\
  forall t ch', calls s t = CRecv ch' -> calls s' t = CRecv ch'.
Proof.
  intros Hl Hmu Hfo H.
  destruct ev; cbn [step] in H; rewrite ?Hl, ?Hmu, ?Hfo in H;
    try discriminate; break_step H; cbn; repeat split; auto.
  all: intros t1 ch' Hc; unfold upd;
    destruct (Nat.eqb_spec t1 t) as [->|]; [congruence|exact Hc].
Qed.

Lemma run_blocked (evs : list event) (s s' : System) (req : request) (ch : chan) :
  loop s = LPingBlocked req ch ->
  mu s = true ->
  fanout s = None ->
  run s evs = Some s' ->
  loop s' = LPingBlocked req ch /\
  mu s' = true /\
  amp s' = amp s /\
  forall t ch', calls s t = CRecv ch' -> calls s' t = CRecv ch'.
Proof.
  revert s. induction evs as [|ev evs IH]; intros s Hl Hmu Hfo H; cbn in H.
  - injection H as <-. auto.
  - destruct (step s ev) as [s1|] eqn:Hs; [|discriminate].
    destruct (step_blocked s s1 ev req ch Hl Hmu Hfo Hs) as (H1 & H2 & H3 & H4 & H5).
    destruct (IH s1 H1 H2 H3 H) as (G1 & G2 & G3 & G4).
    repeat split; try congruence. intros t ch' Hc. apply G4, H5, Hc.
Qed.

(** C4 (what the code does): when the loop goroutine reaches
    [addStateListener] in [handlePing] and the state is not [connecting],
    it takes [mu] and blocks in [ch <- a.err]; under every later schedule it
    is still there, [mu] is still held, the record is unchanged, and every
    caller that was waiting for its reply is still waiting. *)
Theorem C4_late_waiter_blocks_forever (s : System) (req : request) :
  reachable s ->
  loop s = LPingListen req ->
  mu s = false ->
  a_state (amp s) <> connecting ->
  exists s1,
    step s LoopLock = Some s1 /\
    loop s1 = LPingBlocked req (next_chan s) /\
    snd (addStateListener (next_chan s) (amp s)) =
      [SendErr (next_chan s) (a_err (amp s))] /\
    forall evs s2,
      run s1 evs = Some s2 ->
      loop s2 = LPingBlocked req (next_chan s) /\
      mu s2 = true /\
      amp s2 = amp s /\
      forall t ch, calls s1 t = CRecv ch -> calls s2 t = CRecv ch.
Proof.
  intros Hr Hl Hmu Hst.
  pose proof (attempts_inv_fanout_free s (attempts_inv_reachable s Hr) Hmu) as Hfo.
  apply state_eqb_neq in Hst.
  assert (addStateListener (next_chan s) (amp s) =
            (amp s, [SendErr (next_chan s) (a_err (amp s))])) as Hadd.
  { unfold addStateListener. now rewrite Hst. }
  eexists. split; [|split; [|split]].
  - cbn [step]. rewrite Hmu, Hl. cbn zeta. rewrite Hadd. reflexivity.
  - reflexivity.
  - now rewrite Hadd.
  - intros evs s2 Hrun.
    eapply run_blocked in Hrun; [|reflexivity|reflexivity|exact Hfo].
    destruct Hrun as (H1 & H2 & H3 & H4). repeat split; auto.
Qed.

(** The schedule of the witness: [Ping] is called while the first attempt
    is in flight; the attempt fails after the loop goroutine has called
    [startConnect] in [handlePing] and before it calls
    [addStateListener]. *)
Lemma C4_late_waiter_blocks_forever_witness :
  let s := state_after [Call 1 ApiPing; CallerLock 1; SelectReq 1; LoopLock; LoopLock;
                        DialReturn (Some "refused"); ConnectUnlock] in
  let req := {| req_ch := 0; req_cmd := pingCmd; req_raw := "" |} in
  (a_state (amp s) = unconnected /\ a_err (amp s) = Some "refused" /\
   calls s 1 = CRecv 0) /\
  exists s1,
    step s LoopLock = Some s1 /\
    loop s1 = LPingBlocked req (next_chan s) /\
    snd (addStateListener (next_chan s) (amp s)) =
      [SendErr (next_chan s) (a_err (amp s))] /\
    forall evs s2,
      run s1 evs = Some s2 ->
      loop s2 = LPingBlocked req (next_chan s) /\
      mu s2 = true /\
      amp s2 = amp s /\
      forall t ch, calls s1 t = CRecv ch -> calls s2 t = CRecv ch.
Proof.
  split; [vm_compute; repeat split|].
  apply (C4_late_waiter_blocks_forever
           (state_after [Call 1 ApiPing; CallerLock 1; SelectReq 1; LoopLock; LoopLock;
                         DialReturn (Some "refused"); ConnectUnlock])
           {| req_ch := 0; req_cmd := pingCmd; req_raw := "" |}).
  - apply reachable_state_after. vm_compute. discriminate.
  - vm_compute. reflexivity.
  - vm_compute. reflexivity.
  - vm_compute. discriminate.
Defined.

(** ** Order of the writes *)

Lemma subseq_refl {A : Type} (l : list A) : subseq l l.
Proof. induction l; constructor; assumption. Qed.

Lemma subseq_snoc_skip {A : Type} (l1 l2 : list A) (x : A) :
  subseq l1 l2 -> subseq l1 (l2 ++ [x]).
Proof.
  induction 1; cbn.
  - apply subseq_skip, subseq_nil.
  - now apply subseq_skip.
  - now apply subseq_take.
Qed.

Lemma subseq_snoc_take {A : Type} (l1 l2 : list A) (x : A) :
  subseq l1 l2 -> subseq (l1 ++ [x]) (l2 ++ [x]).
Proof.
  induction 1; cbn.
  - apply subseq_take, subseq_nil.
  - now apply subseq_skip.
  - now apply subseq_take.
Qed.

Lemma subseq_drop_last {A : Type} (l1 l2 : list A) (x : A) :
  subseq (l1 ++ [x]) l2 -> subseq l1 l2.
Proof.
  revert l1. induction l2 as [|y l2 IH]; intros l1 H.
  - inversion H. destruct l1; discriminate.
  - inversion H as [|y' k1 k2 Hk|y' k1 k2 Hk]; subst.
    + apply subseq_skip. now apply IH.
    + destruct l1 as [|z l1]; cbn in *.
      * clear. apply subseq_skip. induction l2; constructor; assumption.
      * injection H0 as -> ->. apply subseq_take. now apply IH.
Qed.

Lemma subseq_In {A : Type} (l1 l2 : list A) (x : A) :
  subseq l1 l2 -> In x l1 -> In x l2.
Proof.
  induction 1; cbn; intros Hin; auto.
  destruct Hin as [->|Hin]; auto.
Qed.

Lemma wire_inv_New (addr : string) : wire_inv (New addr).
Proof. repeat split; constructor. Qed.

Lemma handleRaw_tail (req : request) (a : Amp) : raw_tail req (handleRaw req a).
Proof.
  unfold handleRaw.
  destruct (negb (state_eqb (a_state a) connected)); cbn; [exact I|].
  destruct (a_conn a); cbn; auto.
Qed.

Lemma raw_tail_write (req : request) (c c' : stream) (payload : string)
      (rest : list action) :
  raw_tail req (WriteString c payload :: Flush c' :: rest) ->
  payload = frame (req_raw req) /\ exists ch r, rest = [Reply ch r].
Proof.
  cbn. destruct rest as [|[] [|]]; try contradiction. eauto.
Qed.

Lemma raw_tail_reply (req : request) (ch : chan) (r : response)
      (rest : list action) :
  raw_tail req (Reply ch r :: rest) -> rest = [].
Proof. cbn. destruct rest; [reflexivity|contradiction]. Qed.

Lemma wire_inv_step (s s' : System) (ev : event) :
  wire_inv s -> step s ev = Some s' -> wire_inv s'.
Proof.
  intros (Hsub & Hpre & Hsh) H.
  destruct (sys_startConnect_closed s)
    as (_ & _ & _ & _ & Hlo & _ & Har & Hwi & _).
  destruct ev.
  - cbn [step] in H. break_step H. repeat split; assumption.
  - apply step_CallerLock in H. destruct H as [Hmu [[Hc ->]|(op & Hop & Hc & ->)]].
    + destruct (perform_all_frame (snd (fst (Close (amp s))))
                  (with_amp (set_closed true (amp s)) s))
        as (_ & _ & Hl & _ & _ & Ha & Hw).
      unfold wire_inv. cbn. rewrite Hl, Ha, Hw. cbn. auto.
    + unfold wire_inv. cbn. rewrite Hlo, Har, Hwi. auto.
  - cbn [step] in H. break_step H. repeat split; assumption.
  - cbn [step] in H. break_step H. cbn in Hsub.
    rewrite app_nil_r in Hsub.
    unfold wire_inv, handleRequest. cbn.
    destruct (req_cmd r); cbn; repeat split; auto.
    + rewrite app_nil_r. now apply subseq_snoc_skip.
    + now apply subseq_snoc_take.
  - cbn [step] in H. break_step H. wire_done.
  - cbn [step] in H. break_step H. wire_done.
  - cbn [step] in H. break_step H. wire_done.
  - cbn [step] in H. destruct (mu s) eqn:Hmu; [discriminate|].
    break_step H; cbn in Hsub;
      unfold wire_inv; cbn; rewrite ?Har, ?Hwi; repeat split; auto.
    + pose proof (handleRaw_tail req (amp s)) as Ht.
      destruct (handleRaw req (amp s)) as [|[] rest]; cbn;
        try assumption; rewrite app_nil_r; now apply subseq_drop_last in Hsub.
    + apply handleRaw_tail.
  - cbn [step] in H. break_step H. subst.
    apply raw_tail_write in Hsh. destruct Hsh as (-> & ch & r & ->).
    cbn in Hsub. unfold wire_inv. cbn. rewrite map_app. cbn.
    rewrite app_nil_r. repeat split; auto.
    apply Forall_app. split; [assumption|].
    constructor; [|constructor]. cbn. apply prefix_substring.
  - cbn [step] in H. break_step H. wire_done.
  - cbn [step] in H. break_step H; subst; try (wire_done; fail).
    apply raw_tail_reply in Hsh. discriminate.
  - apply step_DialReturn in H.
    destruct H as (n & d & Hmu & Hn & Hfo & He & ->).
    unfold wire_inv. cbn. auto.
  - cbn [step] in H. break_step H; subst. wire_done.
  - apply step_ConnectUnlock in H. destruct H as (acts & Hfo & ->).
    destruct (perform_all_frame acts s) as (_ & _ & Hl & _ & _ & Ha & Hw).
    unfold wire_inv. cbn. rewrite Hl, Ha, Hw. auto.
  - cbn [step] in H. break_step H; wire_done.
Qed.

Lemma wire_inv_reachable (s : System) : reachable s -> wire_inv s.
Proof.
  intros (addr & evs & H).
  assert (forall evs s0 s1, wire_inv s0 -> run s0 evs = Some s1 -> wire_inv s1)
    as Hrun.
  { clear. induction evs as [|ev evs IH]; intros s0 s1 Hw H; cbn in H.
    - now injection H as <-.
    - destruct (step s0 ev) as [s2|] eqn:Hs; [|discriminate].
      eapply IH; [|exact H]. eapply wire_inv_step; eassumption. }
  eapply Hrun; [apply wire_inv_New|exact H].
Qed.

(** ** One reply channel per request *)

Lemma fresh_inv_New (addr : string) : fresh_inv (New addr).
Proof.
  unfold fresh_inv. cbn.
  split; [discriminate|]. split; [discriminate|]. split; [contradiction|].
  split; [discriminate|constructor].
Qed.

Lemma fresh_inv_frame (s s' : System) :
  calls s' = calls s -> arrived s' = arrived s -> next_chan s <= next_chan s' ->
  fresh_inv s -> fresh_inv s'.
Proof.
  intros Hc Ha Hn (H1 & H2 & H3 & H4 & H5).
  unfold fresh_inv. rewrite Hc, Ha. repeat split; auto.
  - intros t r Ht. specialize (H1 t r Ht). lia.
  - intros r Hr. specialize (H3 r Hr). lia.
Qed.

Lemma fresh_inv_upd (s s' : System) (t : tid) (p : call_pc) :
  (forall r, p <> CSendReq r) ->
  calls s' = upd (calls s) t p -> arrived s' = arrived s ->
  next_chan s <= next_chan s' ->
  fresh_inv s -> fresh_inv s'.
Proof.
  intros Hp Hc Ha Hn (H1 & H2 & H3 & H4 & H5).
  assert (forall t0 r, upd (calls s) t p t0 = CSendReq r -> calls s t0 = CSendReq r)
    as Hold.
  { intros t0 r. unfold upd. destruct (Nat.eqb t0 t); [|auto].
    intros E. now destruct (Hp r). }
  unfold fresh_inv. rewrite Hc, Ha. repeat split; auto.
  - intros t0 r Ht. specialize (H1 t0 r (Hold _ _ Ht)). lia.
  - intros t1 t2 r1 r2 E1 E2. apply (H2 t1 t2 r1 r2); auto.
  - intros r Hr. specialize (H3 r Hr). lia.
  - intros t0 r Ht. apply (H4 t0 r). auto.
Qed.

Lemma fresh_inv_make (s s' : System) (t : tid) (r : request) :
  req_ch r = next_chan s ->
  calls s' = upd (calls s) t (CSendReq r) -> arrived s' = arrived s ->
  next_chan s' = S (next_chan s) ->
  fresh_inv s -> fresh_inv s'.
Proof.
  intros Hr Hc Ha Hn (H1 & H2 & H3 & H4 & H5).
  unfold fresh_inv. rewrite Hc, Ha, Hn. repeat split; auto.
  - intros t0 r0. unfold upd. destruct (Nat.eqb t0 t).
    + intros E. injection E as <-. lia.
    + intros E. specialize (H1 t0 r0 E). lia.
  - intros t1 t2 r1 r2. unfold upd.
    destruct (Nat.eqb_spec t1 t) as [->|N1], (Nat.eqb_spec t2 t) as [->|N2];
      auto; intros E1 E2 E.
    + injection E1 as <-. specialize (H1 t2 r2 E2). lia.
    + injection E2 as <-. specialize (H1 t1 r1 E1). lia.
    + eapply H2; eassumption.
  - intros r0 Hin. specialize (H3 r0 Hin). lia.
  - intros t0 r0. unfold upd. destruct (Nat.eqb t0 t).
    + intros E. injection E as <-. rewrite Hr. intros Hin.
      apply in_map_iff in Hin. destruct Hin as (r1 & E1 & Hin).
      specialize (H3 r1 Hin). lia.
    + apply H4.
Qed.

Lemma fresh_inv_arrive (s s' : System) (t : tid) (r : request) (p : call_pc) :
  calls s t = CSendReq r ->
  (forall r0, p <> CSendReq r0) ->
  calls s' = upd (calls s) t p -> arrived s' = arrived s ++ [r] ->
  next_chan s' = next_chan s ->
  fresh_inv s -> fresh_inv s'.
Proof.
  intros Ht Hp Hc Ha Hn (H1 & H2 & H3 & H4 & H5).
  assert (forall t0 r0, upd (calls s) t p t0 = CSendReq r0 ->
                        t0 <> t /\ calls s t0 = CSendReq r0) as Hold.
  { intros t0 r0. unfold upd. destruct (Nat.eqb_spec t0 t) as [->|N]; [|auto].
    intros E. now destruct (Hp r0). }
  unfold fresh_inv. rewrite Hc, Ha, Hn. repeat split.
  - intros t0 r0 E. apply Hold in E. destruct E as [_ E]. eauto.
  - intros t1 t2 r1 r2 E1 E2. apply Hold in E1, E2.
    destruct E1 as [_ E1], E2 as [_ E2]. eauto.
  - intros r0 Hin. apply in_app_iff in Hin. destruct Hin as [Hin|[<-|[]]]; eauto.
  - intros t0 r0 E. apply Hold in E. destruct E as [N E].
    rewrite map_app, in_app_iff. cbn. intros [Hin|[Heq|[]]].
    + exact (H4 t0 r0 E Hin).
    + apply N. symmetry in Heq. eapply H2; eassumption.
  - rewrite map_app. cbn. apply NoDup_app; [assumption|repeat constructor; auto|].
    intros x Hin [<-|[]]. exact (H4 t r Ht Hin).
Qed.

Lemma perform_all_next_chan (acts : list action) (s : System) :
  next_chan (perform_all acts s) = next_chan s.
Proof.
  unfold perform_all. revert s.
  induction acts as [|act acts IH]; intros s; cbn; [reflexivity|].
  rewrite IH. now destruct act.
Qed.

Lemma sys_startConnect_next_chan (s : System) :
  next_chan (sys_startConnect s) = next_chan s.
Proof.
  destruct (sys_startConnect_cases s) as [[-> _]|(-> & _)]; reflexivity.
Qed.

Lemma new_request_ch (ch : chan) (op : api) : req_ch (new_request ch op) = ch.
Proof. now destruct op. Qed.

Lemma fresh_inv_step (s s' : System) (ev : event) :
  fresh_inv s -> step s ev = Some s' -> fresh_inv s'.
Proof.
  intros Hinv H.
  destruct (sys_startConnect_closed s)
    as (_ & _ & _ & _ & _ & Hca & Har & _).
  pose proof (sys_startConnect_next_chan s) as Hnc.
  destruct ev.
  - cbn [step] in H. break_step H.
    apply (fresh_inv_upd s _ t (CLock op)); auto; discriminate.
  - apply step_CallerLock in H. destruct H as [Hmu [[Hc ->]|(op & Hop & Hc & ->)]].
    + destruct (perform_all_frame (snd (fst (Close (amp s))))
                  (with_amp (set_closed true (amp s)) s))
        as (_ & _ & _ & _ & Hca' & Ha' & _).
      apply (fresh_inv_upd s _ t (CReturned None)); cbn;
        rewrite ?Hca', ?Ha', ?perform_all_next_chan; auto; discriminate.
    + apply (fresh_inv_make s _ t (new_request (next_chan (sys_startConnect s)) op));
        cbn; rewrite ?Hca, ?Har, ?Hnc; auto using new_request_ch.
  - cbn [step] in H. break_step H.
    apply (fresh_inv_upd s _ t CPanicked); auto; discriminate.
  - cbn [step] in H. break_step H.
    apply (fresh_inv_arrive s _ t r (CRecv (req_ch r))); auto; discriminate.
  - cbn [step] in H. break_step H. apply (fresh_inv_frame s); auto.
  - cbn [step] in H. break_step H. apply (fresh_inv_frame s); auto.
  - cbn [step] in H. break_step H. apply (fresh_inv_frame s); auto.
  - cbn [step] in H. destruct (mu s) eqn:Hmu; [discriminate|].
    break_step H; apply (fresh_inv_frame s); cbn; rewrite ?Hca, ?Har, ?Hnc; auto.
  - cbn [step] in H. break_step H. apply (fresh_inv_frame s); auto.
  - cbn [step] in H. break_step H. apply (fresh_inv_frame s); auto.
  - cbn [step] in H. break_step H.
    + apply (fresh_inv_upd s _ t (CReturned None)); auto; discriminate.
    + apply (fresh_inv_upd s _ t (CReturned e)); auto; discriminate.
    + apply (fresh_inv_upd s _ t (CReturned (res_err r))); auto; discriminate.
    + apply (fresh_inv_upd s _ t (CReturned (res_err r))); auto; discriminate.
  - apply step_DialReturn in H.
    destruct H as (n & d & Hmu & Hn & Hfo & He & ->).
    apply (fresh_inv_frame s); auto.
  - cbn [step] in H. break_step H. apply (fresh_inv_frame s); auto.
  - apply step_ConnectUnlock in H. destruct H as (acts & Hfo & ->).
    destruct (perform_all_frame acts s) as (_ & _ & _ & _ & Hca' & Ha' & _).
    apply (fresh_inv_frame s); cbn; rewrite ?perform_all_next_chan; auto.
  - cbn [step] in H. break_step H; apply (fresh_inv_frame s); auto.
Qed.

Lemma fresh_inv_reachable (s : System) : reachable s -> fresh_inv s.
Proof.
  intros (addr & evs & H).
  assert (forall evs s0 s1, fresh_inv s0 -> run s0 evs = Some s1 -> fresh_inv s1)
    as Hrun.
  { clear. induction evs as [|ev evs IH]; intros s0 s1 Hw H; cbn in H.
    - now injection H as <-.
    - destruct (step s0 ev) as [s2|] eqn:Hs; [|discriminate].
      eapply IH; [|exact H]. eapply fresh_inv_step; eassumption. }
  eapply Hrun; [apply fresh_inv_New|exact H].
Qed.

Lemma subseq_cons_inv {A : Type} (x : A) (l1 l : list A) :
  subseq (x :: l1) l -> exists k1 k2, l = k1 ++ x :: k2 /\ subseq l1 k2.
Proof.
  induction l as [|y l IH]; intros H; inversion H; subst.
  - destruct (IH H2) as (k1 & k2 & -> & Hs). exists (y :: k1), k2. auto.
  - exists [], l. auto.
Qed.

Lemma subseq_app_inv {A : Type} (l1 l2 l : list A) :
  subseq (l1 ++ l2) l -> exists k1 k2, l = k1 ++ k2 /\ subseq l2 k2.
Proof.
  revert l. induction l1 as [|x l1 IH]; intros l H; cbn in H.
  - exists [], l. auto.
  - apply subseq_cons_inv in H. destruct H as (k1 & k2 & -> & Hs).
    destruct (IH k2 Hs) as (m1 & m2 & -> & Hm).
    exists (k1 ++ x :: m1), m2. split; [|assumption].
    now rewrite <- app_assoc.
Qed.

(** Two chunks on the wire belong to two requests that arrived in the same
    order. *)
Lemma subseq_pair {A : Type} (l1 l2 l3 l : list A) (x y : A) :
  subseq (l1 ++ x :: l2 ++ y :: l3) l ->
  exists k1 k2 k3, l = k1 ++ x :: k2 ++ y :: k3.
Proof.
  intros H. apply subseq_app_inv in H. destruct H as (a1 & a2 & -> & H).
  apply subseq_cons_inv in H. destruct H as (b1 & b2 & -> & H).
  apply subseq_app_inv in H. destruct H as (c1 & c2 & -> & H).
  apply subseq_cons_inv in H. destruct H as (d1 & d2 & -> & H).
  exists (a1 ++ b1), (c1 ++ d1), d2.
  now rewrite <- !app_assoc.
Qed.

Lemma step_wire (s s' : System) (ev : event) :
  step s ev = Some s' ->
  wire s' = wire s \/
  exists n wr fl c req payload rest,
    ev = LoopWrite n wr fl /\
    loop s = LDo req (WriteString c payload :: rest) /\
    wire s' = wire s ++
      [{| w_stream := c; w_req := req; w_bytes := substring 0 n payload |}].
Proof.
  intros H.
  destruct (sys_startConnect_closed s) as (_ & _ & _ & _ & _ & _ & _ & Hwi & _).
  destruct ev.
  - cbn [step] in H. break_step H. now left.
  - apply step_CallerLock in H. destruct H as [Hmu [[Hc ->]|(op & Hop & Hc & ->)]].
    + destruct (perform_all_frame (snd (fst (Close (amp s))))
                  (with_amp (set_closed true (amp s)) s))
        as (_ & _ & _ & _ & _ & _ & Hw).
      left. cbn. now rewrite Hw.
    + left. cbn. exact Hwi.
  - cbn [step] in H. break_step H. now left.
  - cbn [step] in H. break_step H. now left.
  - cbn [step] in H. break_step H. now left.
  - cbn [step] in H. break_step H. now left.
  - cbn [step] in H. break_step H. now left.
  - cbn [step] in H. destruct (mu s) eqn:Hmu; [discriminate|].
    break_step H; left; cbn; auto.
  - cbn [step] in H. break_step H. subst. right.
    do 7 eexists. split; [reflexivity|]. split; reflexivity.
  - cbn [step] in H. break_step H. now left.
  - cbn [step] in H. break_step H; now left.
  - apply step_DialReturn in H.
    destruct H as (n & d & Hmu & Hn & Hfo & He & ->). now left.
  - cbn [step] in H. break_step H. now left.
  - apply step_ConnectUnlock in H. destruct H as (acts & Hfo & ->).
    destruct (perform_all_frame acts s) as (_ & _ & _ & _ & _ & _ & Hw).
    left. cbn. exact Hw.
  - cbn [step] in H. break_step H; now left.
Qed.

(** C6: only the loop goroutine writes, one request at a time.  On a handle
    made by [New], under every schedule: the chunks on the wire are those of
    requests that arrived at [a.reqc], in the order of their arrival; every
    arrived request has a reply channel of its own; each chunk is the
    beginning of the framed command of its request; two chunks belong to
    two requests that arrived in the same order; and the only move that
    adds to the wire is the write of the loop goroutine for the request it
    is serving. *)
Theorem C6_writes_in_arrival_order (s : System) :
  reachable s ->
  subseq (map w_req (wire s)) (arrived s) /\
  NoDup (map req_ch (arrived s)) /\
  Forall (fun w => prefix (w_bytes w) (frame (req_raw (w_req w))) = true) (wire s) /\
  (forall ws1 ws2 ws3 w1 w2,
      wire s = ws1 ++ w1 :: ws2 ++ w2 :: ws3 ->
      req_ch (w_req w1) <> req_ch (w_req w2) /\
      exists k1 k2 k3, arrived s = k1 ++ w_req w1 :: k2 ++ w_req w2 :: k3) /\
  (forall ev s',
      step s ev = Some s' ->
      wire s' = wire s \/
      exists n wr fl c req payload rest,
        ev = LoopWrite n wr fl /\
        loop s = LDo req (WriteString c payload :: rest) /\
        wire s' = wire s ++
          [{| w_stream := c; w_req := req; w_bytes := substring 0 n payload |}]).
Proof.
  intros Hr.
  destruct (wire_inv_reachable s Hr) as (Hsub & Hpre & _).
  destruct (fresh_inv_reachable s Hr) as (_ & _ & _ & _ & Hnd).
  assert (subseq (map w_req (wire s)) (arrived s)) as Hsub'.
  { destruct (pending (loop s)) as [|r [|]] eqn:Hp.
    - now rewrite app_nil_r in Hsub.
    - now apply subseq_drop_last in Hsub.
    - destruct (loop s) as [| | | | | | | | |? |? [|[] ?]| |]; discriminate. }
  split; [exact Hsub'|]. split; [exact Hnd|]. split; [exact Hpre|].
  split; [|intros ev s' H; exact (step_wire s s' ev H)].
  intros ws1 ws2 ws3 w1 w2 Hw. rewrite Hw in Hsub'.
  rewrite map_app in Hsub'. cbn in Hsub'. rewrite map_app in Hsub'. cbn in Hsub'.
  apply subseq_pair in Hsub'. destruct Hsub' as (k1 & k2 & k3 & Hk).
  split; [|eauto].
  rewrite Hk in Hnd. rewrite map_app in Hnd. cbn in Hnd.
  apply NoDup_remove_2 in Hnd. intros E. apply Hnd.
  rewrite in_app_iff. right. rewrite map_app, in_app_iff. right. cbn. now left.
Qed.

(** The schedule of the witness: two callers are inside [SendCommand] at
    the same time; the request of caller 1 arrives first. *)
Lemma C6_writes_in_arrival_order_witness :
  let s := state_after
             [DialReturn None; ConnectUnlock;
              Call 1 (ApiSendCommand "PWON"); Call 2 (ApiSendCommand "MV50");
              CallerLock 2; CallerLock 1;
              SelectReq 1; LoopLock; LoopWrite 5 None None; LoopReply 1;
              SelectReq 2; LoopLock; LoopWrite 5 None None; LoopReply 2] in
  map w_bytes (wire s) = [("PWON" ++ CR)%string; ("MV50" ++ CR)%string] /\
  map req_raw (arrived s) = ["PWON"; "MV50"] /\
  subseq (map w_req (wire s)) (arrived s) /\
  NoDup (map req_ch (arrived s)) /\
  Forall (fun w => prefix (w_bytes w) (frame (req_raw (w_req w))) = true) (wire s) /\
  (forall ws1 ws2 ws3 w1 w2,
      wire s = ws1 ++ w1 :: ws2 ++ w2 :: ws3 ->
      req_ch (w_req w1) <> req_ch (w_req w2) /\
      exists k1 k2 k3, arrived s = k1 ++ w_req w1 :: k2 ++ w_req w2 :: k3) /\
  (forall ev s',
      step s ev = Some s' ->
      wire s' = wire s \/
      exists n wr fl c req payload rest,
        ev = LoopWrite n wr fl /\
        loop s = LDo req (WriteString c payload :: rest) /\
        wire s' = wire s ++
          [{| w_stream := c; w_req := req; w_bytes := substring 0 n payload |}]).
Proof.
  split; [vm_compute; reflexivity|]. split; [vm_compute; reflexivity|].
  apply (C6_writes_in_arrival_order
           (state_after
              [DialReturn None; ConnectUnlock;
               Call 1 (ApiSendCommand "PWON"); Call 2 (ApiSendCommand "MV50");
               CallerLock 2; CallerLock 1;
               SelectReq 1; LoopLock; LoopWrite 5 None None; LoopReply 1;
               SelectReq 2; LoopLock; LoopWrite 5 None None; LoopReply 2])).
  apply reachable_state_after. vm_compute. discriminate.
Defined.

(** ** Delivery of the outcome to the waiter *)

Lemma listeners_inv_New (addr : string) : listeners_inv (New addr).
Proof. unfold listeners_inv. cbn. intros req ch. discriminate. Qed.

Lemma listeners_inv_move (s s' : System) :
  fanout s' = fanout s ->
  a_stateListeners (amp s') = a_stateListeners (amp s) ->
  (a_state (amp s) = connecting -> a_state (amp s') = connecting) ->
  loop s' = loop s \/ (not_waiting (loop s) /\ not_waiting (loop s')) ->
  listeners_inv s -> listeners_inv s'.
Proof.
  unfold listeners_inv. intros -> -> Hst Hl H.
  destruct Hl as [->|[Hn Hn']].
  - destruct (fanout s) as [acts|]; [exact H|].
    destruct (a_stateListeners (amp s)) as [|ch [|]]; auto.
    destruct H as [H1 H2]. auto.
  - destruct (fanout s) as [acts|].
    + destruct H as [H1 H2]. split; [exact H1|].
      destruct acts as [|[] rest]; auto.
      destruct H2 as [[req E] _]. now destruct (Hn req ch).
    + destruct (a_stateListeners (amp s)) as [|ch [|]]; auto.
      destruct H as [_ [req E]]. now destruct (Hn req ch).
Qed.

Lemma sys_startConnect_listeners (s : System) :
  a_stateListeners (amp (sys_startConnect s)) = a_stateListeners (amp s) /\
  (a_state (amp s) = connecting -> a_state (amp (sys_startConnect s)) = connecting).
Proof.
  destruct (sys_startConnect_cases s) as [[-> _]|(-> & _)]; cbn; auto.
Qed.

Lemma step_ConnectUnlock_head (s s' : System) :
  step s ConnectUnlock = Some s' ->
  forall acts ch e rest, fanout s = Some acts -> acts <> SendErr ch e :: rest.
Proof.
  cbn [step]. intros H acts ch e rest Hf ->. rewrite Hf in H. discriminate.
Qed.

Lemma listeners_inv_step (s s' : System) (ev : event) :
  attempts_inv s -> listeners_inv s -> step s ev = Some s' -> listeners_inv s'.
Proof.
  intros Hatt Hinv H.
  destruct (sys_startConnect_closed s)
    as (_ & _ & _ & _ & Hlo & _ & _ & _ & Hfo).
  destruct (sys_startConnect_listeners s) as (Hli & Hst).
  destruct ev.
  - cbn [step] in H. break_step H. apply (listeners_inv_move s); auto.
  - apply step_CallerLock in H. destruct H as [Hmu [[Hc ->]|(op & Hop & Hc & ->)]].
    + destruct (perform_all_frame (snd (fst (Close (amp s))))
                  (with_amp (set_closed true (amp s)) s))
        as (Ha & _ & Hl & Hf & _).
      apply (listeners_inv_move s); cbn; rewrite ?Ha, ?Hl, ?Hf; cbn; auto.
    + apply (listeners_inv_move s); cbn; rewrite ?Hlo; auto.
  - cbn [step] in H. break_step H. apply (listeners_inv_move s); auto.
  - cbn [step] in H. break_step H.
    apply (listeners_inv_move s); cbn; auto. not_waiting_now.
  - cbn [step] in H. break_step H.
    apply (listeners_inv_move s); cbn; auto. not_waiting_now.
  - cbn [step] in H. break_step H. apply (listeners_inv_move s); cbn; auto.
  - cbn [step] in H. break_step H.
    apply (listeners_inv_move s); cbn; auto. not_waiting_now.
  - cbn [step] in H. destruct (mu s) eqn:Hmu; [discriminate|].
    pose proof (attempts_inv_fanout_free s Hatt Hmu) as Hn.
    destruct (loop s) eqn:Hl; try discriminate.
    + injection H as <-. apply (listeners_inv_move s); cbn; rewrite ?Hlo; auto.
      not_waiting_now.
    + break_step H; apply (listeners_inv_move s); cbn; auto; not_waiting_now.
    + injection H as <-. apply (listeners_inv_move s); cbn; rewrite ?Hlo; auto.
      not_waiting_now.
    + unfold listeners_inv in Hinv. rewrite Hn, Hl in Hinv.
      destruct (a_stateListeners (amp s)) as [|ch0 [|]] eqn:Hls;
        [|destruct Hinv as [_ [? ?]]; discriminate|contradiction].
      cbn zeta in H. unfold addStateListener in H. rewrite Hls in H.
      destruct (state_eqb (a_state (amp s)) connecting) eqn:Hs;
        cbn in H; injection H as <-; unfold listeners_inv; cbn; rewrite Hn.
      * cbn. split; [now apply state_eqb_eq|]. now exists req.
      * rewrite Hls. intros ? ?. discriminate.
    + injection H as <-. apply (listeners_inv_move s); cbn; auto.
      not_waiting_now.
  - cbn [step] in H. break_step H.
    apply (listeners_inv_move s); cbn; auto. not_waiting_now.
  - cbn [step] in H. break_step H.
    apply (listeners_inv_move s); cbn; auto. not_waiting_now.
  - cbn [step] in H. break_step H;
      apply (listeners_inv_move s); cbn; auto; not_waiting_now.
  - apply step_DialReturn in H.
    destruct H as (n & d & Hmu & Hn & Hfan & He & ->).
    unfold listeners_inv in *. rewrite Hfan in Hinv. cbn.
    destruct (connect_spec d (amp s)) as (_ & _ & _ & Hnil & _).
    split; [exact Hnil|].
    unfold connect, setState. destruct d; cbn.
    all: destruct (a_stateListeners (amp s)) as [|ch [|]]; try contradiction; cbn.
    all: try exact Hinv.
    all: destruct Hinv as [_ Hw]; auto.
  - cbn [step] in H. break_step H. subst.
    unfold listeners_inv in *. rewrite Heqo in Hinv. cbn.
    destruct Hinv as [Hnil [_ Hns]]. split; [exact Hnil|].
    destruct l0 as [|[] rest]; try discriminate; intros ? ?; discriminate.
  - pose proof (step_ConnectUnlock_head s s' H) as Hhd.
    apply step_ConnectUnlock in H. destruct H as (acts & Hfan & ->).
    destruct (perform_all_frame acts s) as (Ha & _ & Hl & _).
    unfold listeners_inv in *. rewrite Hfan in Hinv. cbn. rewrite Ha, Hl.
    destruct Hinv as [-> Hw].
    destruct acts as [|[] rest]; auto.
    now destruct (Hhd _ ch e rest Hfan).
  - cbn [step] in H. break_step H; apply (listeners_inv_move s); cbn; auto.
Qed.

Lemma listeners_inv_reachable (s : System) : reachable s -> listeners_inv s.
Proof.
  intros (addr & evs & H).
  assert (forall evs s0 s1,
             attempts_inv s0 -> listeners_inv s0 -> run s0 evs = Some s1 ->
             listeners_inv s1) as Hrun.
  { clear. induction evs as [|ev evs IH]; intros s0 s1 Ha Hl H; cbn in H.
    - now injection H as <-.
    - destruct (step s0 ev) as [s2|] eqn:Hs; [|discriminate].
      eapply IH; [| |exact H].
      + eapply attempts_inv_step; eassumption.
      + eapply listeners_inv_step; eassumption. }
  eapply Hrun; [apply attempts_inv_New|apply listeners_inv_New|exact H].
Qed.

(** A [Ping] whose waiter is registered gets the outcome of the attempt in
    flight: whatever [net.Dial] returns, the completion of [connect], its one
    send to the waiter and the reply of the loop goroutine can run, the
    caller returns that outcome, the collection of waiters is empty again
    and no further attempt has been started. *)
Lemma Ping_returns_outcome_of_attempt
  (s : System) (req : request) (ch : chan) (t : tid) (e : error) :
  reachable s ->
  loop s = LPingWait req ch ->
  mu s = false ->
  calls s t = CRecv (req_ch req) ->
  a_stateListeners (amp s) = [ch] /\
  a_state (amp s) = connecting /\
  exists s',
    run s [DialReturn e; ListenerSend; ConnectUnlock; LoopReply t] = Some s' /\
    calls s' t = CReturned e /\
    a_state (amp s') = outcome_state e /\
    a_err (amp s') = e /\
    a_stateListeners (amp s') = [] /\
    loop s' = LSelect /\
    dials s' = dials s.
Proof.
  intros Hr Hl Hmu Hc.
  pose proof (attempts_inv_reachable s Hr) as Hatt.
  pose proof (attempts_inv_fanout_free s Hatt Hmu) as Hfo.
  pose proof (listeners_inv_reachable s Hr) as Hli.
  unfold listeners_inv in Hli. rewrite Hfo, Hl in Hli.
  destruct (a_stateListeners (amp s)) as [|ch0 [|]] eqn:Hls.
  - now destruct (Hli req ch).
  - destruct Hli as [Hst [req0 E]]. injection E as <- <-.
    split; [reflexivity|]. split; [exact Hst|].
    destruct Hatt as [Hd _]. rewrite Hst in Hd. cbn in Hd.
    unfold run. cbn [step]. rewrite Hmu, Hd, Hfo.
    unfold connect, setState.
    destruct e as [msg|]; cbn; rewrite Hls; cbn; rewrite Hl, Nat.eqb_refl; cbn;
      unfold perform_all; cbn; rewrite Hc, Nat.eqb_refl;
      (eexists; split; [reflexivity|]); cbn; rewrite upd_same; repeat split.
  - contradiction.
Qed.

(** [Ping] on a connected handle: the caller gets nil from the first reply
    of [handlePing], and the loop goroutine then blocks in
    [addStateListener] with [mu] held. *)
Example Ping_on_connected_handle :
  let s := state_after [DialReturn None; ConnectUnlock;
                        Call 1 ApiPing; CallerLock 1; SelectReq 1;
                        LoopLock; LoopReply 1; LoopLock; LoopLock] in
  calls s 1 = CReturned None /\
  loop s = LPingBlocked {| req_ch := 0; req_cmd := pingCmd; req_raw := "" |} 1 /\
  mu s = true /\
  a_state (amp s) = connected.
Proof. vm_compute. repeat split. Qed.

(** ** A raw command while not connected *)

Lemma mu_inv_step (s s' : System) (ev : event) :
  mu_inv s -> step s ev = Some s' -> mu_inv s'.
Proof.
  unfold mu_inv. intros Hinv H.
  destruct (sys_startConnect_closed s)
    as (_ & _ & _ & Hmu' & Hlo & _ & _ & _ & Hfo).
  assert (forall P : Prop,
             (mu s = true -> fanout s <> None \/ P) ->
             (P -> False) -> mu s = true -> fanout s <> None) as Hno.
  { intros P HP HnP Hm. destruct (HP Hm) as [?|?]; [assumption|contradiction]. }
  destruct ev.
  - cbn [step] in H. break_step H. exact Hinv.
  - apply step_CallerLock in H. destruct H as [Hmu [[Hc ->]|(op & Hop & Hc & ->)]].
    + destruct (perform_all_frame (snd (fst (Close (amp s))))
                  (with_amp (set_closed true (amp s)) s))
        as (_ & Hm & _).
      cbn. rewrite Hm. cbn. congruence.
    + cbn. congruence.
  - cbn [step] in H. break_step H. exact Hinv.
  - cbn [step] in H. break_step H. cbn. intros Hm. left.
    eapply Hno; [exact Hinv| |exact Hm]. intros (? & ? & ?); discriminate.
  - cbn [step] in H. break_step H. cbn. intros Hm. left.
    eapply Hno; [exact Hinv| |exact Hm]. intros (? & ? & ?); discriminate.
  - cbn [step] in H. break_step H. cbn. intros Hm. left.
    eapply Hno; [exact Hinv| |exact Hm]. intros (? & ? & ?); discriminate.
  - cbn [step] in H. break_step H. cbn. intros Hm. left.
    eapply Hno; [exact Hinv| |exact Hm]. intros (? & ? & ?); discriminate.
  - cbn [step] in H. destruct (mu s) eqn:Hmu; [discriminate|].
    break_step H; cbn; rewrite ?Hmu'; try congruence.
    intros _. right. eauto.
  - cbn [step] in H. break_step H. cbn. intros Hm. left.
    eapply Hno; [exact Hinv| |exact Hm]. intros (? & ? & ?); discriminate.
  - cbn [step] in H. break_step H. cbn. intros Hm. left.
    eapply Hno; [exact Hinv| |exact Hm]. intros (? & ? & ?); discriminate.
  - cbn [step] in H. break_step H; cbn; intros Hm; left;
      (eapply Hno; [exact Hinv| |exact Hm]); intros (? & ? & ?); discriminate.
  - apply step_DialReturn in H.
    destruct H as (n & d & Hmu & Hn & Hfan & He & ->).
    cbn. intros _. left. discriminate.
  - cbn [step] in H. break_step H. cbn. intros _. left. discriminate.
  - apply step_ConnectUnlock in H. destruct H as (acts & Hfan & ->).
    cbn. discriminate.
  - cbn [step] in H. break_step H; exact Hinv.
Qed.

Lemma mu_inv_reachable (s : System) : reachable s -> mu_inv s.
Proof.
  intros (addr & evs & H).
  assert (forall evs s0 s1, mu_inv s0 -> run s0 evs = Some s1 -> mu_inv s1)
    as Hrun.
  { clear. induction evs as [|ev evs IH]; intros s0 s1 Hw H; cbn in H.
    - now injection H as <-.
    - destruct (step s0 ev) as [s2|] eqn:Hs; [|discriminate].
      eapply IH; [|exact H]. eapply mu_inv_step; eassumption. }
  eapply Hrun; [|exact H]. intros Hm. discriminate.
Qed.

(** C5: on a handle made by [New], a raw command taken up by the loop
    goroutine while the state is not [connected] is answered with the
    "not connected" error by two moves of the loop goroutine, preceded at
    most by the release of [mu] by a [connect] that has already set the
    state.  No return of [net.Dial] is needed; nothing is written, the
    record is unchanged, no attempt is started, and the loop goroutine is
    back at its [select] with nothing kept for later. *)
Theorem C5_not_connected_reply (s : System) (req : request) (t : tid) :
  reachable s ->
  loop s = LRaw req ->
  a_state (amp s) <> connected ->
  calls s t = CRecv (req_ch req) ->
  exists pre s',
    (pre = [] \/ pre = [ConnectUnlock]) /\
    run s (pre ++ [LoopLock; LoopReply t]) = Some s' /\
    calls s' t = CReturned not_connected /\
    loop s' = LSelect /\
    wire s' = wire s /\
    amp s' = amp s /\
    dials s' = dials s /\
    dialing s' = dialing s.
Proof.
  intros Hr Hl Hst Hc.
  destruct (mu s) eqn:Hmu.
  - pose proof (mu_inv_reachable s Hr Hmu) as [Hf|(r & ch & E)]; [|congruence].
    destruct (fanout s) as [acts|] eqn:Hfo; [|congruence].
    pose proof (listeners_inv_reachable s Hr) as Hli.
    pose proof (attempts_inv_reachable s Hr) as [_ Hatt].
    unfold listeners_inv in Hli. rewrite Hfo in Hli, Hatt.
    destruct Hli as [_ Hli]. destruct Hatt as [_ Hfan].
    assert (step s ConnectUnlock =
              Some (with_mu false (with_fanout None (perform_all acts s)))) as Hs.
    { cbn [step]. rewrite Hfo.
      destruct acts as [|[] rest]; try reflexivity.
      destruct Hli as [[r E] _]. congruence. }
    destruct (perform_all_frame acts s) as (Ha & _ & Hlo & _ & Hca & _ & Hw).
    destruct (perform_all_fan acts s Hfan) as (Hdi & Hda & _).
    destruct (handleRaw_not_connected
                (with_mu false (with_fanout None (perform_all acts s))) req t)
      as (s' & Hrun & H1 & H2 & H3 & H4 & H5 & H6 & H7); cbn;
      rewrite ?Ha, ?Hlo, ?Hca; auto.
    exists [ConnectUnlock], s'. split; [now right|].
    cbn [app run]. rewrite Hs. split; [exact Hrun|].
    cbn in H3, H4, H5. rewrite Hw in H3. rewrite Ha in H4. rewrite Hdi in H5.
    repeat split; auto.
    cbn [run] in Hrun.
    destruct (step _ LoopLock) as [s1|] eqn:Hs1; [|discriminate].
    destruct (step s1 (LoopReply t)) as [s2|] eqn:Hs2; [|discriminate].
    injection Hrun as <-.
    cbn [step] in Hs1. cbn in Hs1. rewrite Hlo, Hl in Hs1. injection Hs1 as <-.
    cbn [step] in Hs2. break_step Hs2; cbn; exact Hda.
  - destruct (handleRaw_not_connected s req t Hl Hmu Hst Hc)
      as (s' & Hrun & H1 & H2 & H3 & H4 & H5 & H6 & H7).
    exists [], s'. split; [now left|]. split; [exact Hrun|].
    repeat split; auto.
    cbn [run] in Hrun.
    destruct (step s LoopLock) as [s1|] eqn:Hs1; [|discriminate].
    destruct (step s1 (LoopReply t)) as [s2|] eqn:Hs2; [|discriminate].
    injection Hrun as <-.
    cbn [step] in Hs1. rewrite Hmu, Hl in Hs1. injection Hs1 as <-.
    cbn [step] in Hs2. break_step Hs2; reflexivity.
Qed.

Lemma C5_not_connected_reply_witness :
  let s := state_after [Call 1 (ApiSendCommand "PWON"); CallerLock 1; SelectReq 1;
                        DialReturn (Some "refused")] in
  (a_state (amp s) = unconnected /\ mu s = true) /\
  exists pre s',
    (pre = [] \/ pre = [ConnectUnlock]) /\
    run s (pre ++ [LoopLock; LoopReply 1]) = Some s' /\
    calls s' 1 = CReturned not_connected /\
    loop s' = LSelect /\
    wire s' = wire s /\
    amp s' = amp s /\
    dials s' = dials s /\
    dialing s' = dialing s.
Proof.
  split; [vm_compute; split; reflexivity|].
  apply (C5_not_connected_reply
           (state_after [Call 1 (ApiSendCommand "PWON"); CallerLock 1; SelectReq 1;
                         DialReturn (Some "refused")])
           {| req_ch := 0; req_cmd := rawCmd; req_raw := "PWON" |} 1).
  - apply reachable_state_after. vm_compute. discriminate.
  - vm_compute. reflexivity.
  - vm_compute. discriminate.
  - vm_compute. reflexivity.
Defined.

(** * Further properties *)

(** ** The record under the moves *)

(** How one move changes the record. *)
Lemma step_amp (s s' : System) (ev : event) :
  step s ev = Some s' ->
  amp s' = amp s \/
  amp s' = set_closed true (amp s) \/
  (a_closed (amp s) = false /\ a_state (amp s) = unconnected /\
   amp s' = set_state connecting (amp s)) \/
  (a_state (amp s) = connecting /\
   exists ch, amp s' = set_stateListeners (a_stateListeners (amp s) ++ [ch]) (amp s)) \/
  (exists n d, dialing s = S n /\ ev = DialReturn (dial_err d) /\
     amp s' = fst (connect d (amp s))).
Proof.
  intros H.
  assert (amp (sys_startConnect s) = amp s \/
          (a_closed (amp s) = false /\ a_state (amp s) = unconnected /\
           amp (sys_startConnect s) = set_state connecting (amp s))) as Hsc.
  { destruct (sys_startConnect_cases s) as [[-> _]|(-> & Hc & Hu)]; cbn; auto. }
  destruct ev.
  - cbn [step] in H. break_step H. now left.
  - apply step_CallerLock in H. destruct H as [Hmu [[_ ->]|(op & _ & _ & ->)]].
    + destruct (perform_all_frame (snd (fst (Close (amp s))))
                  (with_amp (set_closed true (amp s)) s)) as (Ha & _).
      right. left. cbn. now rewrite Ha.
    + cbn. destruct Hsc as [->|Hsc]; auto.
  - cbn [step] in H. break_step H. now left.
  - cbn [step] in H. break_step H. now left.
  - cbn [step] in H. break_step H. now left.
  - cbn [step] in H. break_step H. now left.
  - cbn [step] in H. break_step H. now left.
  - cbn [step] in H. destruct (mu s) eqn:Hmu; [discriminate|].
    destruct (loop s) eqn:Hl; try discriminate.
    + injection H as <-. cbn. destruct Hsc as [->|Hsc]; auto.
    + break_step H; now left.
    + injection H as <-. cbn. destruct Hsc as [->|Hsc]; auto.
    + cbn zeta in H. unfold addStateListener in H.
      destruct (state_eqb (a_state (amp s)) connecting) eqn:Hs;
        cbn in H; injection H as <-; cbn.
      * right. right. right. left. split; [now apply state_eqb_eq|]. eauto.
      * now left.
    + injection H as <-. now left.
  - cbn [step] in H. break_step H. now left.
  - cbn [step] in H. break_step H. now left.
  - cbn [step] in H. break_step H; now left.
  - apply step_DialReturn in H.
    destruct H as (n & d & Hmu & Hn & Hfo & He & ->).
    right. right. right. right. exists n, d. cbn. rewrite He. auto.
  - cbn [step] in H. break_step H. now left.
  - apply step_ConnectUnlock in H. destruct H as (acts & Hfo & ->).
    destruct (perform_all_frame acts s) as (Ha & _).
    left. cbn. exact Ha.
  - cbn [step] in H. break_step H; now left.
Qed.

Lemma reachable_New (addr : string) : reachable (New addr).
Proof. exists addr, []. reflexivity. Qed.

Lemma run_app (evs1 evs2 : list event) (s : System) :
  run s (evs1 ++ evs2) =
    match run s evs1 with
    | Some s1 => run s1 evs2
    | None => None
    end.
Proof.
  revert s. induction evs1 as [|ev evs1 IH]; intros s; cbn; [reflexivity|].
  destruct (step s ev); [apply IH|reflexivity].
Qed.

Lemma reachable_run (s s' : System) (evs : list event) :
  reachable s -> run s evs = Some s' -> reachable s'.
Proof.
  intros (addr & evs0 & H0) H. exists addr, (evs0 ++ evs).
  now rewrite run_app, H0.
Qed.

Lemma reachable_step (s s' : System) (ev : event) :
  reachable s -> step s ev = Some s' -> reachable s'.
Proof.
  intros Hr H. apply (reachable_run s s' [ev] Hr). cbn. now rewrite H.
Qed.

(** Induction over the reachable states. *)
Lemma reachable_ind (P : System -> Prop) :
  (forall addr, P (New addr)) ->
  (forall s s' ev, reachable s -> P s -> step s ev = Some s' -> P s') ->
  forall s, reachable s -> P s.
Proof.
  intros H0 Hstep s (addr & evs & H).
  assert (forall evs s0 s1, reachable s0 -> P s0 -> run s0 evs = Some s1 -> P s1)
    as Hrun.
  { clear - Hstep. induction evs as [|ev evs IH]; intros s0 s1 Hr Hp H; cbn in H.
    - now injection H as <-.
    - destruct (step s0 ev) as [s2|] eqn:Hs; [|discriminate].
      eapply (IH s2); [|eapply Hstep; eassumption|exact H].
      eapply reachable_step; eassumption. }
  eapply Hrun; [apply reachable_New|apply H0|exact H].
Qed.

(** X1: [Addr] returns the address the handle was made with, whatever has
    happened to the handle since. *)
Theorem Addr_is_the_address_given_to_New
  (addr : string) (evs : list event) (s : System) :
  run (New addr) evs = Some s -> Addr (amp s) = addr.
Proof.
  revert s. induction evs as [|ev evs IH] using rev_ind; intros s H.
  - injection H as <-. reflexivity.
  - rewrite run_app in H. destruct (run (New addr) evs) as [s1|]; [|discriminate].
    cbn in H. destruct (step s1 ev) as [s2|] eqn:Hs; [|discriminate].
    injection H as <-. specialize (IH s1 eq_refl). unfold Addr in *.
    destruct (step_amp s1 s2 ev Hs)
      as [->|[->|[(_ & _ & ->)|[(_ & ch & ->)|(n & d & _ & _ & ->)]]]];
      try exact IH.
    unfold connect, setState. destruct d as [c|msg]; cbn; exact IH.
Qed.

Lemma Addr_is_the_address_given_to_New_witness :
  Addr (amp (state_after [DialReturn None; ConnectUnlock;
                          Call 1 ApiClose; CallerLock 1])) = "avr:23".
Proof.
  apply (Addr_is_the_address_given_to_New "avr:23"
           [DialReturn None; ConnectUnlock; Call 1 ApiClose; CallerLock 1]).
  vm_compute. reflexivity.
Defined.

(** ** Connection, state and error *)

Lemma conn_inv_reachable (s : System) : reachable s -> conn_inv s.
Proof.
  intros Hr. pattern s. apply reachable_ind; [| |exact Hr]; clear s Hr.
  - intros addr. unfold conn_inv. cbn. repeat split; try discriminate.
    intros H. now destruct H.
  - intros s s' ev Hr [Hc He] H.
    pose proof (attempts_inv_reachable s Hr) as [Hd _].
    unfold conn_inv.
    destruct (step_amp s s' ev H)
      as [->|[->|[(_ & Hu & ->)|[(Hs & ch & ->)|(n & d & Hn & _ & ->)]]]]; cbn.
    + auto.
    + auto.
    + split; [|discriminate]. split; [|discriminate].
      intros Hcn. apply Hc in Hcn. congruence.
    + auto.
    + rewrite Hn in Hd.
      destruct (state_eqb (a_state (amp s)) connecting) eqn:Hs; [|discriminate].
      apply state_eqb_eq in Hs.
      destruct (connect_spec d (amp s)) as (Hst & _ & Her & _ & Hcn & _).
      rewrite Hst, Her, Hcn. destruct d as [c|msg]; cbn.
      * repeat split; auto. discriminate.
      * split; [|discriminate]. split; [|discriminate].
        intros Hx. apply Hc in Hx. congruence.
Qed.

(** X2: on a handle made by [New], under every schedule, whenever no
    [connect] goroutine is inside its critical section, [a.conn] is non-nil
    exactly when the state is [connected], and in state [connected] the
    recorded error is nil. *)
Theorem conn_set_iff_connected (s : System) :
  reachable s ->
  fanout s = None ->
  (a_conn (amp s) <> None <-> a_state (amp s) = connected) /\
  (a_state (amp s) = connected -> a_err (amp s) = None).
Proof. intros Hr _. exact (conn_inv_reachable s Hr). Qed.

Lemma conn_set_iff_connected_witness :
  let s := state_after [DialReturn None; ConnectUnlock] in
  (a_conn (amp s) <> None <-> a_state (amp s) = connected) /\
  (a_state (amp s) = connected -> a_err (amp s) = None).
Proof.
  apply (conn_set_iff_connected (state_after [DialReturn None; ConnectUnlock])).
  - apply reachable_state_after. vm_compute. discriminate.
  - vm_compute. reflexivity.
Defined.

Lemma no_nil_inv_reachable (s : System) : reachable s -> no_nil_inv s.
Proof.
  intros Hr. pattern s. apply reachable_ind; [| |exact Hr]; clear s Hr.
  - intros addr. split; [discriminate|]. intros req rest. discriminate.
  - intros s s' ev Hr [Hp Hn] H.
    pose proof (conn_inv_reachable s Hr) as [Hc _].
    pose proof (wire_inv_reachable s Hr) as (_ & _ & Hsh).
    destruct (sys_startConnect_closed s) as (_ & _ & _ & _ & Hlo & _).
    unfold no_nil_inv.
    destruct ev.
    + cbn [step] in H. break_step H. auto.
    + apply step_CallerLock in H. destruct H as [Hmu [[_ ->]|(op & _ & _ & ->)]].
      * destruct (perform_all_frame (snd (fst (Close (amp s))))
                    (with_amp (set_closed true (amp s)) s)) as (_ & _ & Hl & _).
        cbn. rewrite Hl. cbn. auto.
      * cbn. rewrite Hlo. auto.
    + cbn [step] in H. break_step H. auto.
    + cbn [step] in H. break_step H. cbn. unfold handleRequest.
      destruct (req_cmd r); split; try discriminate; intros ? ?; discriminate.
    + cbn [step] in H. break_step H. cbn. split; [discriminate|].
      intros ? ?; discriminate.
    + cbn [step] in H. break_step H. cbn. rewrite Heql. split; [discriminate|].
      intros ? ?; discriminate.
    + cbn [step] in H. break_step H. cbn. split; [discriminate|].
      intros ? ?; discriminate.
    + cbn [step] in H. destruct (mu s) eqn:Hmu; [discriminate|].
      destruct (loop s) eqn:Hl; try discriminate.
      all: break_step H; cbn; try (split; [discriminate|intros ? ?; discriminate]).
      split; [discriminate|]. intros req0 rest E. injection E as _ E.
      unfold handleRaw in E.
      destruct (negb (state_eqb (a_state (amp s)) connected)) eqn:Hs;
        [discriminate|].
      apply negb_false_iff, state_eqb_eq in Hs. apply Hc in Hs.
      destruct (a_conn (amp s)); [discriminate|now destruct Hs].
    + cbn [step] in H. break_step H. subst.
      change (raw_tail req (WriteString c s0 :: Flush c0 :: l0)) in Hsh.
      apply raw_tail_write in Hsh. destruct Hsh as (_ & ch & r & ->).
      cbn. split; [discriminate|]. intros ? ?; discriminate.
    + cbn [step] in H. break_step H. subst. exfalso. eapply Hn. reflexivity.
    + cbn [step] in H. break_step H; subst; cbn;
        split; try discriminate; intros ? ?; try discriminate.
      match type of Hsh with
      | context [Reply ?ch ?r :: ?rest] =>
          change (raw_tail req (Reply ch r :: rest)) in Hsh
      end.
      apply raw_tail_reply in Hsh. discriminate.
    + apply step_DialReturn in H.
      destruct H as (n & d & Hmu & Hdn & Hfo & He & ->). cbn. auto.
    + cbn [step] in H. break_step H. cbn. split; [discriminate|].
      intros ? ?; discriminate.
    + apply step_ConnectUnlock in H. destruct H as (acts & Hfo & ->).
      destruct (perform_all_frame acts s) as (_ & _ & Hl & _).
      cbn. rewrite Hl. auto.
    + cbn [step] in H. break_step H; cbn; auto.
Qed.

(** X3: the loop goroutine never dereferences a nil [conn]: in [handleRaw]
    the state read under [mu] is [connected] only if [a.conn] is set, so
    under no schedule does it reach [conn.bufw] with [conn == nil]. *)
Theorem handleRaw_never_nil_conn (s : System) (req : request) :
  reachable s ->
  loop s <> LPanicked /\
  step s LoopNil = None /\
  (a_state (amp s) = connected ->
   exists cn,
     a_conn (amp s) = Some cn /\
     handleRaw req (amp s) =
       [WriteString (conn_c cn) (frame (req_raw req)); Flush (conn_c cn);
        Reply (req_ch req) {| res_err := None |}]).
Proof.
  intros Hr.
  destruct (no_nil_inv_reachable s Hr) as [Hp Hn].
  destruct (conn_inv_reachable s Hr) as [Hc _].
  split; [exact Hp|]. split.
  - cbn [step]. destruct (loop s) as [| | | | | | | | | |r [|[] rest]| |] eqn:Hl;
      try reflexivity.
    now destruct (Hn r rest).
  - intros Hs. apply Hc in Hs as Hcn.
    destruct (a_conn (amp s)) as [cn|] eqn:E; [|now destruct Hcn].
    exists cn. split; [reflexivity|].
    unfold handleRaw. now rewrite Hs, E.
Qed.

Lemma handleRaw_never_nil_conn_witness :
  let s := state_after [DialReturn None; ConnectUnlock;
                        Call 1 (ApiSendCommand "PWON"); CallerLock 1; SelectReq 1;
                        LoopLock] in
  let req := {| req_ch := 0; req_cmd := rawCmd; req_raw := "PWON" |} in
  loop s <> LPanicked /\
  step s LoopNil = None /\
  (a_state (amp s) = connected ->
   exists cn,
     a_conn (amp s) = Some cn /\
     handleRaw req (amp s) =
       [WriteString (conn_c cn) (frame (req_raw req)); Flush (conn_c cn);
        Reply (req_ch req) {| res_err := None |}]).
Proof.
  apply (handleRaw_never_nil_conn
           (state_after [DialReturn None; ConnectUnlock;
                         Call 1 (ApiSendCommand "PWON"); CallerLock 1; SelectReq 1;
                         LoopLock])
           {| req_ch := 0; req_cmd := rawCmd; req_raw := "PWON" |}).
  apply reachable_state_after. vm_compute. discriminate.
Defined.

(** ** Attempts and waiters *)

(** X4: on a handle made by [New], under every schedule, at most one
    [connect] goroutine is inside [net.Dial], and one is there exactly while
    the state is [connecting]. *)
Theorem at_most_one_attempt_in_flight (s : System) :
  reachable s ->
  dialing s <= 1 /\
  (dialing s = 1 <-> a_state (amp s) = connecting) /\
  dialing s <= dials s.
Proof.
  intros Hr.
  assert (dialing s <= dials s) as Hle.
  { pattern s. apply reachable_ind; [| |exact Hr]; clear s Hr.
    - intros addr. unfold New, sys_startConnect, perform_all. cbn. lia.
    - intros s s' ev Hr IH H.
      pose proof (attempts_inv_reachable s Hr) as [_ Hf].
      assert (dialing (sys_startConnect s) <= dials (sys_startConnect s)) as Hsc.
      { destruct (sys_startConnect_cases s) as [[-> _]|(-> & _)]; cbn; lia. }
      destruct ev.
      + cbn [step] in H. break_step H. exact IH.
      + apply step_CallerLock in H. destruct H as [Hmu [[_ ->]|(op & _ & _ & ->)]].
        * rewrite Close_spec. unfold perform_all. cbn.
          destruct (a_closed (amp s)); cbn; [exact IH|].
          destruct (a_conn (amp s)); cbn; exact IH.
        * cbn. exact Hsc.
      + cbn [step] in H. break_step H. exact IH.
      + cbn [step] in H. break_step H. exact IH.
      + cbn [step] in H. break_step H. exact IH.
      + cbn [step] in H. break_step H. exact IH.
      + cbn [step] in H. break_step H. exact IH.
      + cbn [step] in H. destruct (mu s) eqn:Hmu; [discriminate|].
        break_step H; cbn; auto.
      + cbn [step] in H. break_step H. exact IH.
      + cbn [step] in H. break_step H. exact IH.
      + cbn [step] in H. break_step H; exact IH.
      + apply step_DialReturn in H.
        destruct H as (n & d & Hmu & Hn & Hfo & He & ->). cbn. lia.
      + cbn [step] in H. break_step H. exact IH.
      + apply step_ConnectUnlock in H. destruct H as (acts & Hfo & ->).
        rewrite Hfo in Hf. destruct Hf as [_ Hfan].
        destruct (perform_all_fan acts s Hfan) as (Hdi & Hda & _).
        cbn. lia.
      + cbn [step] in H. break_step H; exact IH. }
  destruct (attempts_inv_reachable s Hr) as [Hd _].
  destruct (state_eqb (a_state (amp s)) connecting) eqn:Hs.
  - apply state_eqb_eq in Hs. rewrite Hd. repeat split; auto; lia.
  - apply state_eqb_neq in Hs. rewrite Hd in *.
    split; [lia|]. split; [|lia]. split; [discriminate|contradiction].
Qed.

Lemma at_most_one_attempt_in_flight_witness :
  let s := state_after [DialReturn (Some "refused"); ConnectUnlock;
                        Call 1 ApiPing; Call 2 (ApiSendCommand "PWON");
                        CallerLock 1; CallerLock 2] in
  dialing s <= 1 /\
  (dialing s = 1 <-> a_state (amp s) = connecting) /\
  dialing s <= dials s.
Proof.
  apply (at_most_one_attempt_in_flight
           (state_after [DialReturn (Some "refused"); ConnectUnlock;
                         Call 1 ApiPing; Call 2 (ApiSendCommand "PWON");
                         CallerLock 1; CallerLock 2])).
  apply reachable_state_after. vm_compute. discriminate.
Defined.


(** ** Whole calls *)

Lemma not_closed_reqc_open (s : System) :
  reachable s -> a_closed (amp s) = false -> reqc_closes s = 0.
Proof.
  intros Hr Hc. pose proof (closed_inv_reachable s Hr) as H.
  unfold closed_inv in H. now rewrite Hc in H.
Qed.

Lemma at_most_one_attempt_in_flight_aux (s : System) :
  reachable s ->
  dialing s = (if state_eqb (a_state (amp s)) connecting then 1 else 0) /\
  (mu s = false -> fanout s = None).
Proof.
  intros Hr. pose proof (attempts_inv_reachable s Hr) as Ha.
  split; [apply Ha|]. intros Hmu. now apply attempts_inv_fanout_free.
Qed.

(** [SendCommand] on an open, connected handle can run to its end: with
    [mu] free and the loop goroutine at its [select], the call's own moves
    and those of the loop goroutine for its request follow one another. *)
Lemma SendCommand_connected_run
  (s : System) (t : tid) (cmd : string) (cn : conn) (n : nat) (wr fl : error) :
  reachable s ->
  a_state (amp s) = connected ->
  a_conn (amp s) = Some cn ->
  a_closed (amp s) = false ->
  mu s = false ->
  loop s = LSelect ->
  calls s t = CLock (ApiSendCommand cmd) ->
  exists s',
    run s [CallerLock t; SelectReq t; LoopLock; LoopWrite n wr fl; LoopReply t]
      = Some s' /\
    calls s' t = CReturned None /\
    wire s' = wire s ++
      [{| w_stream := conn_c cn;
          w_req := {| req_ch := next_chan s; req_cmd := rawCmd; req_raw := cmd |};
          w_bytes := substring 0 n (frame cmd) |}] /\
    amp s' = amp s /\
    dials s' = dials s /\
    loop s' = LSelect.
Proof.
  intros Hr Hst Hcn Hcl Hmu Hl Hc.
  pose proof (not_closed_reqc_open s Hr Hcl) as Hrc.
  assert (sys_startConnect s = with_amp (amp s) s) as Hsc.
  { destruct (sys_startConnect_cases s) as [[-> _]|(_ & _ & Hu)];
      [reflexivity|congruence]. }
  unfold run. cbn [step]. rewrite Hmu, Hc, Hsc. cbn.
  rewrite Hl, upd_same, Hrc. cbn. rewrite Hmu.
  unfold handleRaw. rewrite Hst, Hcn. cbn. rewrite !upd_same, Nat.eqb_refl.
  eexists. split; [reflexivity|]. cbn. rewrite upd_same.
  repeat split.
Qed.

(** [SendCommand] on an open, unconnected handle can return "not
    connected": with [mu] free and the loop goroutine at its [select], the
    request is taken up before the attempt the call has started ends. *)
Lemma SendCommand_unconnected_run
  (s : System) (t : tid) (cmd : string) :
  reachable s ->
  a_state (amp s) = unconnected ->
  a_closed (amp s) = false ->
  mu s = false ->
  loop s = LSelect ->
  calls s t = CLock (ApiSendCommand cmd) ->
  exists s',
    run s [CallerLock t; SelectReq t; LoopLock; LoopReply t] = Some s' /\
    calls s' t = CReturned not_connected /\
    a_state (amp s') = connecting /\
    dials s' = S (dials s) /\
    dialing s' = 1 /\
    wire s' = wire s /\
    loop s' = LSelect.
Proof.
  intros Hr Hst Hcl Hmu Hl Hc.
  pose proof (not_closed_reqc_open s Hr Hcl) as Hrc.
  destruct (at_most_one_attempt_in_flight_aux s Hr) as [Hd _].
  assert (sys_startConnect s =
            perform GoConnect (with_amp (set_state connecting (amp s)) s)) as Hsc.
  { destruct (sys_startConnect_cases s) as [[_ [?|?]]|(-> & _)];
      [congruence|congruence|reflexivity]. }
  unfold run. cbn [step]. rewrite Hmu, Hc, Hsc. cbn.
  rewrite Hl, upd_same, Hrc. cbn. rewrite Hmu.
  unfold handleRaw. cbn. rewrite !upd_same, Nat.eqb_refl.
  eexists. split; [reflexivity|]. cbn. rewrite upd_same.
  rewrite Hd, Hst. repeat split.
Qed.

Lemma sys_startConnect_noop (s : System) :
  a_state (amp s) <> unconnected -> sys_startConnect s = with_amp (amp s) s.
Proof.
  intros H. destruct (sys_startConnect_cases s) as [[-> _]|(_ & _ & Hu)];
    [reflexivity|congruence].
Qed.

Lemma sys_startConnect_fires (s : System) :
  a_closed (amp s) = false -> a_state (amp s) = unconnected ->
  sys_startConnect s = perform GoConnect (with_amp (set_state connecting (amp s)) s).
Proof.
  intros Hc Hu. destruct (sys_startConnect_cases s) as [[_ [?|?]]|(-> & _)];
    [congruence|congruence|reflexivity].
Qed.

Lemma run_cons (s s1 : System) (ev : event) (evs : list event) :
  step s ev = Some s1 -> run s (ev :: evs) = run s1 evs.
Proof. intros H. cbn [run]. now rewrite H. Qed.

Lemma step_CallerLock_Ping (s : System) (t : tid) :
  mu s = false -> calls s t = CLock ApiPing ->
  step s (CallerLock t) =
    Some (with_call t (CSendReq (new_request (next_chan (sys_startConnect s)) ApiPing))
            (with_next_chan (S (next_chan (sys_startConnect s)))
               (sys_startConnect s))).
Proof. intros Hmu Hc. cbn [step]. now rewrite Hmu, Hc. Qed.

Lemma step_SelectReq (s : System) (t : tid) (r : request) :
  loop s = LSelect -> calls s t = CSendReq r -> reqc_closes s = 0 ->
  step s (SelectReq t) =
    Some (with_loop (handleRequest r)
            (with_arrived (arrived s ++ [r])
               (with_call t (CRecv (req_ch r)) s))).
Proof. intros Hl Hc Hr. cbn [step]. now rewrite Hl, Hc, Hr. Qed.

Lemma step_LoopLock_Ping (s : System) (req : request) :
  mu s = false -> loop s = LPing req -> a_state (amp s) <> connected ->
  step s LoopLock = Some (with_loop (LPingConnect req) s).
Proof.
  intros Hmu Hl Hs. cbn [step]. rewrite Hmu, Hl.
  apply state_eqb_neq in Hs. now rewrite Hs.
Qed.

Lemma step_LoopLock_PingConnect (s : System) (req : request) :
  mu s = false -> loop s = LPingConnect req ->
  step s LoopLock = Some (with_loop (LPingListen req) (sys_startConnect s)).
Proof. intros Hmu Hl. cbn [step]. now rewrite Hmu, Hl. Qed.

Lemma step_LoopLock_PingListen (s : System) (req : request) :
  mu s = false -> loop s = LPingListen req -> a_state (amp s) = connecting ->
  step s LoopLock =
    Some (with_loop (LPingWait req (next_chan s))
            (with_amp
               (set_stateListeners (a_stateListeners (amp s) ++ [next_chan s]) (amp s))
               (with_next_chan (S (next_chan s)) s))).
Proof.
  intros Hmu Hl Hs. cbn [step]. rewrite Hmu, Hl. cbn zeta.
  unfold addStateListener. now rewrite Hs.
Qed.

(** The first half of [Ping] on a handle that is not connected: the call
    and [handlePing] up to the registration of the waiter. *)
Lemma Ping_registers_waiter (s : System) (t : tid) :
  reachable s ->
  a_state (amp s) <> connected ->
  a_closed (amp s) = false ->
  mu s = false ->
  loop s = LSelect ->
  calls s t = CLock ApiPing ->
  exists s5 req ch,
    run s [CallerLock t; SelectReq t; LoopLock; LoopLock; LoopLock] = Some s5 /\
    loop s5 = LPingWait req ch /\
    mu s5 = false /\
    calls s5 t = CRecv (req_ch req) /\
    wire s5 = wire s /\
    dials s5 = (if state_eqb (a_state (amp s)) unconnected
                then S (dials s) else dials s).
Proof.
  intros Hr Hst Hcl Hmu Hl Hc.
  pose proof (not_closed_reqc_open s Hr Hcl) as Hrc.
  destruct (sys_startConnect_closed s)
    as (_ & Hrc0 & _ & Hmu0 & Hl0 & Hc0 & _ & Hw0 & _).
  pose proof (sys_startConnect_next_chan s) as Hn0.
  assert (a_state (amp (sys_startConnect s)) = connecting /\
          dials (sys_startConnect s) =
            (if state_eqb (a_state (amp s)) unconnected
             then S (dials s) else dials s)) as [Hs0 Hd0].
  { destruct (a_state (amp s)) eqn:Hs; [| |congruence].
    - rewrite (sys_startConnect_fires s Hcl Hs). split; reflexivity.
    - rewrite (sys_startConnect_noop s) by congruence. cbn. now split. }
  remember (sys_startConnect s) as s0 eqn:Es0.
  set (req := new_request (next_chan s0) ApiPing).
  set (s1 := with_call t (CSendReq req) (with_next_chan (S (next_chan s0)) s0)).
  set (s2 := with_loop (handleRequest req)
               (with_arrived (arrived s1 ++ [req])
                  (with_call t (CRecv (req_ch req)) s1))).
  set (s3 := with_loop (LPingConnect req) s2).
  set (s4 := with_loop (LPingListen req) (sys_startConnect s3)).
  assert (sys_startConnect s3 = with_amp (amp s3) s3) as Hsc3.
  { apply sys_startConnect_noop. cbn. rewrite Hs0. discriminate. }
  exists (with_loop (LPingWait req (next_chan s4))
            (with_amp
               (set_stateListeners (a_stateListeners (amp s4) ++ [next_chan s4])
                  (amp s4))
               (with_next_chan (S (next_chan s4)) s4))),
    req, (next_chan s4).
  split.
  - rewrite (run_cons s s1)
      by (subst s1 req; rewrite Es0; apply step_CallerLock_Ping; assumption).
    rewrite (run_cons s1 s2).
    2:{ apply step_SelectReq; cbn; rewrite ?upd_same; congruence. }
    rewrite (run_cons s2 s3).
    2:{ apply step_LoopLock_Ping; cbn; congruence. }
    rewrite (run_cons s3 s4).
    2:{ apply step_LoopLock_PingConnect; cbn; congruence. }
    erewrite (run_cons s4).
    2:{ apply (step_LoopLock_PingListen s4 req);
        subst s4; rewrite Hsc3; cbn; congruence. }
    reflexivity.
  - subst s4. rewrite Hsc3. cbn. rewrite upd_same.
    repeat split; congruence.
Qed.

(** [Ping] on an open handle that is not connected can return the result
    of [net.Dial]: with [mu] free and the loop goroutine at its [select],
    if [handlePing] registers its waiter before the attempt ends, the
    caller returns what [net.Dial] returned. *)
Lemma Ping_unconnected_run (s : System) (t : tid) (e : error) :
  reachable s ->
  a_state (amp s) <> connected ->
  a_closed (amp s) = false ->
  mu s = false ->
  loop s = LSelect ->
  calls s t = CLock ApiPing ->
  exists s',
    run s [CallerLock t; SelectReq t; LoopLock; LoopLock; LoopLock;
           DialReturn e; ListenerSend; ConnectUnlock; LoopReply t] = Some s' /\
    calls s' t = CReturned e /\
    a_state (amp s') = outcome_state e /\
    a_err (amp s') = e /\
    a_stateListeners (amp s') = [] /\
    loop s' = LSelect /\
    dials s' = (if state_eqb (a_state (amp s)) unconnected
                then S (dials s) else dials s).
Proof.
  intros Hr Hst Hcl Hmu Hl Hc.
  destruct (Ping_registers_waiter s t Hr Hst Hcl Hmu Hl Hc)
    as (s5 & req & ch & Hrun & Hl5 & Hmu5 & Hc5 & _ & Hd5).
  pose proof (reachable_run s s5 _ Hr Hrun) as Hr5.
  destruct (Ping_returns_outcome_of_attempt s5 req ch t e Hr5 Hl5 Hmu5 Hc5)
    as (_ & _ & s' & Hrun' & H1 & H2 & H3 & H4 & H5 & H6).
  exists s'. split.
  - change [CallerLock t; SelectReq t; LoopLock; LoopLock; LoopLock;
            DialReturn e; ListenerSend; ConnectUnlock; LoopReply t]
      with ([CallerLock t; SelectReq t; LoopLock; LoopLock; LoopLock] ++
            [DialReturn e; ListenerSend; ConnectUnlock; LoopReply t]).
    now rewrite run_app, Hrun.
  - repeat split; auto. congruence.
Qed.

Lemma step_blocked_no_return (s s' : System) (ev : event) (req : request)
      (ch : chan) (t : tid) :
  loop s = LPingBlocked req ch ->
  mu s = true ->
  fanout s = None ->
  step s ev = Some s' ->
  (forall e, calls s t <> CReturned e) ->
  forall e, calls s' t <> CReturned e.
Proof.
  intros Hl Hmu Hfo H Hn e.
  destruct ev; cbn [step] in H; rewrite ?Hl, ?Hmu, ?Hfo in H;
    try discriminate; break_step H; cbn; try apply Hn.
  all: unfold upd;
    match goal with |- context [Nat.eqb ?a ?b] => destruct (Nat.eqb a b) end;
    [discriminate|apply Hn].
Qed.

Lemma run_blocked_no_return (evs : list event) (s s' : System) (req : request)
      (ch : chan) (t : tid) :
  loop s = LPingBlocked req ch ->
  mu s = true ->
  fanout s = None ->
  run s evs = Some s' ->
  (forall e, calls s t <> CReturned e) ->
  forall e, calls s' t <> CReturned e.
Proof.
  revert s. induction evs as [|ev evs IH]; intros s Hl Hmu Hfo H Hn; cbn in H.
  - now injection H as <-.
  - destruct (step s ev) as [s1|] eqn:Hs; [|discriminate].
    destruct (step_blocked s s1 ev req ch Hl Hmu Hfo Hs) as (H1 & H2 & H3 & _).
    apply (IH s1 H1 H2 H3 H).
    exact (step_blocked_no_return s s1 ev req ch t Hl Hmu Hfo Hs Hn).
Qed.

Lemma step_LoopLock_Ping_connected (s : System) (req : request) :
  mu s = false -> loop s = LPing req -> a_state (amp s) = connected ->
  step s LoopLock = Some (with_loop (LPingReply1 req) s).
Proof. intros Hmu Hl Hs. cbn [step]. now rewrite Hmu, Hl, Hs. Qed.

Lemma step_LoopReply1 (s : System) (req : request) (t : tid) :
  loop s = LPingReply1 req -> calls s t = CRecv (req_ch req) ->
  step s (LoopReply t) =
    Some (with_loop (LPingConnect req) (with_call t (CReturned None) s)).
Proof. intros Hl Hc. cbn [step]. now rewrite Hc, Hl, Nat.eqb_refl. Qed.

Lemma step_LoopLock_PingListen_late (s : System) (req : request) :
  mu s = false -> loop s = LPingListen req -> a_state (amp s) <> connecting ->
  step s LoopLock =
    Some (with_loop (LPingBlocked req (next_chan s))
            (with_mu true (with_amp (amp s) (with_next_chan (S (next_chan s)) s)))).
Proof.
  intros Hmu Hl Hs. cbn [step]. rewrite Hmu, Hl. cbn zeta.
  unfold addStateListener. apply state_eqb_neq in Hs. now rewrite Hs.
Qed.

(** X9: [Ping] on an open, connected handle returns nil, from the first
    reply of [handlePing]; the loop goroutine then goes on to
    [addStateListener], where it blocks with [mu] held.  From then on no
    call that has not returned ever returns, under any schedule: not
    [Ping], not [SendCommand], not [Close]. *)
Theorem Ping_connected_returns_nil_then_wedges (s : System) (t : tid) :
  reachable s ->
  a_state (amp s) = connected ->
  a_closed (amp s) = false ->
  mu s = false ->
  loop s = LSelect ->
  calls s t = CLock ApiPing ->
  exists s',
    run s [CallerLock t; SelectReq t; LoopLock; LoopReply t; LoopLock; LoopLock]
      = Some s' /\
    calls s' t = CReturned None /\
    (exists req ch, loop s' = LPingBlocked req ch) /\
    mu s' = true /\
    amp s' = amp s /\
    forall evs s'' t',
      run s' evs = Some s'' ->
      (forall e, calls s' t' <> CReturned e) ->
      forall e, calls s'' t' <> CReturned e.
Proof.
  intros Hr Hst Hcl Hmu Hl Hc.
  pose proof (not_closed_reqc_open s Hr Hcl) as Hrc.
  pose proof (attempts_inv_fanout_free s (attempts_inv_reachable s Hr) Hmu) as Hfo.
  assert (sys_startConnect s = with_amp (amp s) s) as Hsc
      by (apply sys_startConnect_noop; congruence).
  set (req := new_request (next_chan s) ApiPing).
  set (s1 := with_call t (CSendReq req) (with_next_chan (S (next_chan s))
                                           (with_amp (amp s) s))).
  set (s2 := with_loop (handleRequest req)
               (with_arrived (arrived s1 ++ [req])
                  (with_call t (CRecv (req_ch req)) s1))).
  set (s3 := with_loop (LPingReply1 req) s2).
  set (s4 := with_loop (LPingConnect req) (with_call t (CReturned None) s3)).
  assert (sys_startConnect s4 = with_amp (amp s4) s4) as Hsc4.
  { apply sys_startConnect_noop. cbn. congruence. }
  set (s5 := with_loop (LPingListen req) (with_amp (amp s4) s4)).
  set (s6 := with_loop (LPingBlocked req (next_chan s5))
               (with_mu true (with_amp (amp s5)
                                (with_next_chan (S (next_chan s5)) s5)))).
  exists s6. split; [|split; [|split; [|split; [|split]]]].
  - rewrite (run_cons s s1).
    2:{ rewrite (step_CallerLock_Ping s t Hmu Hc), Hsc. reflexivity. }
    rewrite (run_cons s1 s2).
    2:{ apply step_SelectReq; cbn; rewrite ?upd_same; congruence. }
    rewrite (run_cons s2 s3).
    2:{ apply step_LoopLock_Ping_connected; cbn; congruence. }
    rewrite (run_cons s3 s4).
    2:{ apply step_LoopReply1; cbn; rewrite ?upd_same; congruence. }
    rewrite (run_cons s4 s5).
    2:{ rewrite (step_LoopLock_PingConnect s4 req) by (cbn; congruence).
        rewrite Hsc4. reflexivity. }
    rewrite (run_cons s5 s6).
    2:{ apply step_LoopLock_PingListen_late; cbn; congruence. }
    reflexivity.
  - cbn. now rewrite upd_same.
  - exists req, (next_chan s5). reflexivity.
  - reflexivity.
  - reflexivity.
  - intros evs s'' t' Hrun Hn.
    eapply (run_blocked_no_return evs s6); try eassumption; try reflexivity.
Qed.

Lemma Ping_connected_returns_nil_then_wedges_witness :
  let s := state_after [DialReturn None; ConnectUnlock;
                        Call 1 ApiPing; Call 2 ApiClose] in
  exists s',
    run s [CallerLock 1; SelectReq 1; LoopLock; LoopReply 1; LoopLock; LoopLock]
      = Some s' /\
    calls s' 1 = CReturned None /\
    (exists req ch, loop s' = LPingBlocked req ch) /\
    mu s' = true /\
    amp s' = amp s /\
    forall evs s'' t',
      run s' evs = Some s'' ->
      (forall e, calls s' t' <> CReturned e) ->
      forall e, calls s'' t' <> CReturned e.
Proof.
  apply (Ping_connected_returns_nil_then_wedges
           (state_after [DialReturn None; ConnectUnlock;
                         Call 1 ApiPing; Call 2 ApiClose]) 1).
  - apply reachable_state_after. vm_compute. discriminate.
  - vm_compute. reflexivity.
  - vm_compute. reflexivity.
  - vm_compute. reflexivity.
  - vm_compute. reflexivity.
  - vm_compute. reflexivity.
Defined.

(** ** One connection *)

Lemma perform_all_streams (acts : list action) (s : System) :
  next_stream (perform_all acts s) = next_stream s /\
  (forall c, readers (perform_all acts s) c <> RNone ->
             readers s c <> RNone \/ In (GoReader c) acts) /\
  (forall c, In c (stream_closes (perform_all acts s)) ->
             In c (stream_closes s) \/ In (CloseStream c) acts).
Proof.
  unfold perform_all. revert s.
  induction acts as [|act acts IH]; intros s; cbn [fold_left].
  - repeat split; auto.
  - destruct (IH (perform act s)) as (H1 & H2 & H3).
    split; [|split].
    + rewrite H1. now destruct act.
    + intros c Hc. destruct (H2 c Hc) as [H|H]; [|right; now right].
      destruct act; cbn in H; auto.
      unfold upd in H. destruct (Nat.eqb_spec c c0) as [->|]; [|auto].
      right. now left.
    + intros c Hc. destruct (H3 c Hc) as [H|H]; [|right; now right].
      destruct act; cbn in H; auto.
      apply in_app_or in H. destruct H as [H|[<-|[]]]; [auto|].
      right. now left.
Qed.

Lemma sys_startConnect_streams (s : System) :
  next_stream (sys_startConnect s) = next_stream s /\
  readers (sys_startConnect s) = readers s /\
  stream_closes (sys_startConnect s) = stream_closes s.
Proof.
  destruct (sys_startConnect_cases s) as [[-> _]|(-> & _)]; cbn; repeat split.
Qed.

Lemma on_conn_step (s s' : System) (ev : event) (c : stream) :
  attempts_inv s -> conn_inv s -> step s ev = Some s' ->
  on_conn (amp s) c -> on_conn (amp s') c.
Proof.
  unfold on_conn. intros Hatt [Hci _] H Hc.
  assert (a_state (amp s) = connected) as Hst by (apply Hci; congruence).
  destruct (step_connected s s' ev Hatt Hst H) as (_ & -> & _). exact Hc.
Qed.

Lemma act_on_conn_step (s s' : System) (ev : event) (act : action) :
  attempts_inv s -> conn_inv s -> step s ev = Some s' ->
  act_on_conn (amp s) act -> act_on_conn (amp s') act.
Proof.
  intros Hatt Hci H. destruct act; cbn; auto; eapply on_conn_step; eassumption.
Qed.

Lemma one_conn_inv_New (addr : string) : one_conn_inv (New addr).
Proof.
  unfold New, sys_startConnect, perform_all. cbn.
  repeat split; auto. intros c H. now elim H.
Qed.

Lemma connect_on_conn (d : dial_result) (a : Amp) :
  Forall (act_on_conn (fst (connect d a))) (snd (connect d a)).
Proof.
  unfold connect, setState. destruct d as [c|msg]; cbn.
  - apply Forall_app. split.
    + induction (a_stateListeners a); cbn; constructor; cbn; auto.
    + constructor; [reflexivity|constructor].
  - induction (a_stateListeners a); cbn; constructor; cbn; auto.
Qed.

Lemma handleRaw_on_conn (req : request) (a : Amp) :
  Forall (act_on_conn a) (handleRaw req a).
Proof.
  unfold handleRaw.
  destruct (negb (state_eqb (a_state a) connected)).
  - repeat constructor.
  - destruct (a_conn a) as [[c]|] eqn:Hc; repeat constructor; exact Hc.
Qed.

Lemma one_conn_inv_step (s s' : System) (ev : event) :
  attempts_inv s -> conn_inv s -> one_conn_inv s ->
  step s ev = Some s' -> one_conn_inv s'.
Proof.
  intros Hatt Hci (H1 & H2 & H3 & H4 & H5 & H6) H.
  pose proof (fun c => on_conn_step s s' ev c Hatt Hci H) as Hm.
  assert (forall acts, Forall (act_on_conn (amp s)) acts ->
                       Forall (act_on_conn (amp s')) acts) as HF.
  { intros acts. apply Forall_impl. intros act.
    exact (act_on_conn_step s s' ev act Hatt Hci H). }
  assert (Forall (fun w => on_conn (amp s') (w_stream w)) (wire s)) as H3'
    by (eapply Forall_impl; [|exact H3]; intros w; apply Hm).
  assert (Forall (on_conn (amp s')) (stream_closes s)) as H4'
    by (eapply Forall_impl; [|exact H4]; intros w; apply Hm).
  assert (forall c, readers s c <> RNone -> on_conn (amp s') c) as H2'
    by (intros c Hc; apply Hm, H2, Hc).
  destruct ev.
  - cbn [step] in H. break_step H. unfold one_conn_inv. cbn in *. auto 10.
  - apply step_CallerLock in H. destruct H as [Hmu [[_ ->]|(op & _ & _ & ->)]].
    + rewrite Close_spec in *. unfold one_conn_inv, perform_all.
      destruct (a_closed (amp s)); destruct (a_conn (amp s)) as [[c0]|] eqn:Hcn;
        cbn in *; rewrite ?Hcn; repeat split; auto.
      apply Forall_app. split; [exact H4'|]. repeat constructor. exact Hcn.
    + destruct (sys_startConnect_closed s) as (_ & _ & Hcn & _ & Hlo & _ & _ & Hw & Hfo).
      destruct (sys_startConnect_streams s) as (Hn & Hrd & Hsc).
      unfold one_conn_inv. cbn in *. rewrite Hcn, Hlo, Hw, Hfo, Hn, Hrd, Hsc.
      repeat split; auto.
      * destruct (loop s); auto.
      * destruct (fanout s); auto.
  - cbn [step] in H. break_step H; one_conn_done.
  - cbn [step] in H. break_step H; unfold one_conn_inv; cbn in *.
    repeat split; auto. unfold handleRequest. now destruct (req_cmd r).
  - cbn [step] in H. break_step H; one_conn_done.
  - cbn [step] in H. break_step H; one_conn_done.
    intros c0 Hc. unfold upd in Hc.
    destruct (Nat.eqb_spec c0 c) as [E|]; [|auto].
    apply H2'. rewrite E. congruence.
  - cbn [step] in H. break_step H; one_conn_done.
    intros c0 Hc. unfold upd in Hc.
    destruct (Nat.eqb_spec c0 c) as [E|]; [|auto].
    apply H2'. rewrite E. congruence.
  - cbn [step] in H. destruct (mu s); [discriminate|].
    destruct (loop s) eqn:Hl; try discriminate.
    + injection H as <-.
      destruct (sys_startConnect_closed s) as (_ & _ & Hcn & _ & Hlo & _ & _ & Hw & Hfo).
      destruct (sys_startConnect_streams s) as (Hn & Hrd & Hsc).
      unfold one_conn_inv. cbn in *. rewrite Hcn, Hw, Hfo, Hn, Hrd, Hsc.
      repeat split; auto. destruct (fanout s); auto.
    + destruct (state_eqb (a_state (amp s)) connected); injection H as <-;
        one_conn_done.
    + injection H as <-.
      destruct (sys_startConnect_closed s) as (_ & _ & Hcn & _ & Hlo & _ & _ & Hw & Hfo).
      destruct (sys_startConnect_streams s) as (Hn & Hrd & Hsc).
      unfold one_conn_inv. cbn in *. rewrite Hcn, Hw, Hfo, Hn, Hrd, Hsc.
      repeat split; auto. destruct (fanout s); auto.
    + cbn zeta in H.
      destruct (addStateListener_frame (next_chan s) (amp s)) as (_ & _ & Hcn & _).
      destruct (addStateListener (next_chan s) (amp s)) as [a [|? ?]];
        injection H as <-; unfold one_conn_inv; cbn in *; rewrite Hcn;
        repeat split; auto; destruct (fanout s); auto.
    + injection H as <-. unfold one_conn_inv; cbn in *.
      repeat split; auto. apply handleRaw_on_conn.
  - cbn [step] in H. break_step H; unfold one_conn_inv; cbn in *.
    repeat split; auto.
    + apply Forall_app. split; [exact H3'|]. repeat constructor. cbn.
      now inversion H5.
    + inversion H5 as [|? ? _ G]. now inversion G.
  - cbn [step] in H. break_step H; one_conn_done.
  - cbn [step] in H. break_step H; one_conn_done.
    now inversion H5.
   
  - cbn [step] in H. destruct (mu s); [discriminate|].
    destruct (dialing s) as [|n] eqn:Hd; [discriminate|].
    destruct (fanout s); [discriminate|].
    assert (a_conn (amp s) = None) as Hcn.
    { destruct Hatt as [Hdi _]. rewrite Hd in Hdi.
      destruct (state_eqb (a_state (amp s)) connecting) eqn:E; [|discriminate].
      apply state_eqb_eq in E. destruct Hci as [Hci _].
      destruct (a_conn (amp s)); [|reflexivity].
      assert (a_state (amp s) = connected) by (apply Hci; discriminate).
      congruence. }
    rewrite Hcn in H1.
    set (d := match e with None => DialOk (next_stream s) | Some msg => DialErr msg end) in H.
    pose proof (connect_on_conn d (amp s)) as Hco.
    destruct (connect_spec d (amp s)) as (_ & _ & _ & _ & Hc' & _).
    destruct (connect d (amp s)) as [a acts]. injection H as <-.
    one_conn_done.
    + rewrite Hc'. subst d. destruct e; cbn; [now rewrite Hcn|now rewrite H1].
    + destruct (loop s); auto.
  - cbn [step] in H. break_step H; one_conn_done.
    now inversion H6.
  - apply step_ConnectUnlock in H. destruct H as (acts & Hfo & ->).
    rewrite Hfo in H6.
    destruct (perform_all_frame acts s) as (Ha & _ & Hlo & _ & _ & _ & Hw).
    destruct (perform_all_streams acts s) as (Hn & Hrd & Hsc).
    unfold one_conn_inv. cbn in *. rewrite Ha, Hlo, Hw, Hn in *.
    repeat split; auto.
    + intros c Hc. destruct (Hrd c Hc) as [G|G]; [auto|].
      rewrite Forall_forall in H6. exact (H6 _ G).
    + apply Forall_forall. intros c Hc. destruct (Hsc c Hc) as [G|G].
      * rewrite Forall_forall in H4. auto.
      * rewrite Forall_forall in H6. exact (H6 _ G).
  - cbn [step] in H. break_step H; one_conn_done.
    all: intros c0 Hc; unfold upd in Hc;
      destruct (Nat.eqb_spec c0 c) as [E|]; [|auto];
      apply H2'; rewrite E; congruence.
Qed.

Lemma one_conn_inv_reachable (s : System) : reachable s -> one_conn_inv s.
Proof.
  revert s. apply reachable_ind.
  - apply one_conn_inv_New.
  - intros s s' ev Hr Hinv H.
    eapply one_conn_inv_step; try eassumption.
    + now apply attempts_inv_reachable.
    + now apply conn_inv_reachable.
Qed.

(** X10: a handle makes at most one connection in its life.  [net.Dial]
    has succeeded at most once, and exactly when the handle holds a
    connection; every [readFromAmp] goroutine, every chunk written and every
    stream closed is on the stream of that connection; and the connection,
    once set, is never replaced, under any schedule. *)
Theorem handle_connects_at_most_once (s : System) :
  reachable s ->
  next_stream s <= 1 /\
  (next_stream s = 1 <-> a_conn (amp s) <> None) /\
  (forall c, readers s c <> RNone -> a_conn (amp s) = Some {| conn_c := c |}) /\
  (forall w, In w (wire s) -> a_conn (amp s) = Some {| conn_c := w_stream w |}) /\
  (forall c, In c (stream_closes s) -> a_conn (amp s) = Some {| conn_c := c |}) /\
  (forall evs s' cn,
      run s evs = Some s' -> a_conn (amp s) = Some cn -> a_conn (amp s') = Some cn).
Proof.
  intros Hr.
  destruct (one_conn_inv_reachable s Hr) as (H1 & H2 & H3 & H4 & _).
  split; [|split; [|split; [|split; [|split]]]].
  - rewrite H1. destruct (a_conn (amp s)); lia.
  - rewrite H1. destruct (a_conn (amp s)); split; congruence.
  - exact H2.
  - rewrite Forall_forall in H3. exact H3.
  - rewrite Forall_forall in H4. exact H4.
  - intros evs s' cn Hrun Hcn.
    destruct (conn_inv_reachable s Hr) as [Hci _].
    assert (a_state (amp s) = connected) as Hst by (apply Hci; congruence).
    destruct (run_connected evs s s' (attempts_inv_reachable s Hr) Hst Hrun)
      as (_ & G & _).
    congruence.
Qed.

Lemma handle_connects_at_most_once_witness :
  let s := state_after [DialReturn None; ConnectUnlock;
                        Call 1 (ApiSendCommand "PWON"); CallerLock 1; SelectReq 1;
                        LoopLock; LoopWrite 5 None None; LoopReply 1;
                        ReadSlice 0 (ReadErr "EOF"); SelectConnErr 0; LoopLock;
                        Call 2 ApiClose; CallerLock 2] in
  next_stream s <= 1 /\
  (next_stream s = 1 <-> a_conn (amp s) <> None) /\
  (forall c, readers s c <> RNone -> a_conn (amp s) = Some {| conn_c := c |}) /\
  (forall w, In w (wire s) -> a_conn (amp s) = Some {| conn_c := w_stream w |}) /\
  (forall c, In c (stream_closes s) -> a_conn (amp s) = Some {| conn_c := c |}) /\
  (forall evs s' cn,
      run s evs = Some s' -> a_conn (amp s) = Some cn -> a_conn (amp s') = Some cn).
Proof.
  apply handle_connects_at_most_once.
  apply reachable_state_after. vm_compute. discriminate.
Defined.

(** ** After [Close] *)

Lemma perform_all_fan_closes (acts : list action) (s : System) :
  forallb fan_action acts = true ->
  stream_closes (perform_all acts s) = stream_closes s.
Proof.
  unfold perform_all. revert s.
  induction acts as [|act acts IH]; intros s H; cbn [fold_left]; [reflexivity|].
  cbn in H. apply andb_true_iff in H. destruct H as [Ha H].
  rewrite (IH _ H). destruct act; try discriminate; reflexivity.
Qed.

Lemma step_closed_frozen (s s' : System) (ev : event) :
  attempts_inv s ->
  a_closed (amp s) = true ->
  step s ev = Some s' ->
  dials s' = dials s /\ stream_closes s' = stream_closes s.
Proof.
  intros Hatt Hcl H.
  assert (sys_startConnect s = with_amp (amp s) s) as Hsc.
  { destruct (sys_startConnect_cases s) as [[-> _]|(_ & Hc & _)];
      [reflexivity|congruence]. }
  destruct ev.
  - cbn [step] in H. break_step H; auto.
  - apply step_CallerLock in H. destruct H as [Hmu [[_ ->]|(op & _ & _ & ->)]].
    + rewrite Close_spec, Hcl. cbn. auto.
    + rewrite Hsc. cbn. auto.
  - cbn [step] in H. break_step H; auto.
  - cbn [step] in H. break_step H; auto.
  - cbn [step] in H. break_step H; auto.
  - cbn [step] in H. break_step H; auto.
  - cbn [step] in H. break_step H; auto.
  - cbn [step] in H. rewrite Hsc in H. break_step H; auto.
  - cbn [step] in H. break_step H; auto.
  - cbn [step] in H. break_step H; auto.
  - cbn [step] in H. break_step H; auto.
  - apply step_DialReturn in H. destruct H as (n & d & _ & _ & _ & _ & ->). auto.
  - cbn [step] in H. break_step H; auto.
  - apply step_ConnectUnlock in H. destruct H as (acts & Hfo & ->).
    destruct Hatt as [_ Hfa]. rewrite Hfo in Hfa. destruct Hfa as [_ Hfa].
    destruct (perform_all_fan acts s Hfa) as (_ & Hd & _).
    cbn. now rewrite Hd, (perform_all_fan_closes acts s Hfa).
  - cbn [step] in H. break_step H; auto.
Qed.

Lemma run_closed_frozen (evs : list event) (s s' : System) :
  attempts_inv s ->
  a_closed (amp s) = true ->
  run s evs = Some s' ->
  a_closed (amp s') = true /\
  dials s' = dials s /\ stream_closes s' = stream_closes s.
Proof.
  revert s. induction evs as [|ev evs IH]; intros s Hatt Hcl H; cbn in H.
  - injection H as <-. auto.
  - destruct (step s ev) as [s1|] eqn:Hs; [|discriminate].
    destruct (step_closed_frozen s s1 ev Hatt Hcl Hs) as [H1 H2].
    destruct (IH s1 (attempts_inv_step s s1 ev Hatt Hs)
                 (step_closed_monotone s s1 ev Hs Hcl) H) as (G1 & G2 & G3).
    repeat split; congruence.
Qed.

Lemma step_open_closes (s s' : System) (ev : event) :
  attempts_inv s ->
  a_closed (amp s) = false ->
  step s ev = Some s' ->
  stream_closes s' = stream_closes s \/
  (a_closed (amp s') = true /\ exists c, stream_closes s' = stream_closes s ++ [c]).
Proof.
  intros Hatt Hcl H.
  destruct (sys_startConnect_streams s) as (_ & _ & Hsc).
  destruct ev.
  - cbn [step] in H. break_step H; auto.
  - apply step_CallerLock in H. destruct H as [Hmu [[_ ->]|(op & _ & _ & ->)]].
    + rewrite Close_spec, Hcl. unfold perform_all.
      destruct (a_conn (amp s)) as [cn|]; cbn; [|auto].
      right. split; [reflexivity|]. now exists (conn_c cn).
    + cbn. auto.
  - cbn [step] in H. break_step H; auto.
  - cbn [step] in H. break_step H; auto.
  - cbn [step] in H. break_step H; auto.
  - cbn [step] in H. break_step H; auto.
  - cbn [step] in H. break_step H; auto.
  - cbn [step] in H. break_step H; cbn; auto.
  - cbn [step] in H. break_step H; auto.
  - cbn [step] in H. break_step H; auto.
  - cbn [step] in H. break_step H; auto.
  - apply step_DialReturn in H. destruct H as (n & d & _ & _ & _ & _ & ->). auto.
  - cbn [step] in H. break_step H; auto.
  - apply step_ConnectUnlock in H. destruct H as (acts & Hfo & ->).
    destruct Hatt as [_ Hfa]. rewrite Hfo in Hfa. destruct Hfa as [_ Hfa].
    left. cbn. apply (perform_all_fan_closes acts s Hfa).
  - cbn [step] in H. break_step H; auto.
Qed.

Lemma closes_inv_reachable (s : System) : reachable s -> closes_inv s.
Proof.
  revert s. apply reachable_ind.
  - intros addr. reflexivity.
  - intros s s' ev Hr Hinv H. unfold closes_inv in *.
    pose proof (attempts_inv_reachable s Hr) as Hatt.
    destruct (a_closed (amp s)) eqn:Hcl.
    + rewrite (step_closed_monotone s s' ev H Hcl).
      destruct (step_closed_frozen s s' ev Hatt Hcl H) as [_ ->]. exact Hinv.
    + destruct (step_open_closes s s' ev Hatt Hcl H) as [->|(-> & c & ->)].
      * rewrite Hinv. destruct (a_closed (amp s')); cbn; auto.
      * rewrite Hinv. cbn. lia.
Qed.

(** X11: only [Close] closes a stream, and [Close] is final.  On a handle
    that is not closed no stream has been closed; at most one stream is ever
    closed; and once the handle is closed it stays closed, no connection
    attempt is started and no stream is closed, under any schedule. *)
Theorem only_Close_closes_and_Close_is_final (s : System) :
  reachable s ->
  (a_closed (amp s) = false -> stream_closes s = []) /\
  length (stream_closes s) <= 1 /\
  (a_closed (amp s) = true ->
   forall evs s',
     run s evs = Some s' ->
     a_closed (amp s') = true /\
     dials s' = dials s /\
     stream_closes s' = stream_closes s).
Proof.
  intros Hr. pose proof (closes_inv_reachable s Hr) as Hinv.
  unfold closes_inv in Hinv. split; [|split].
  - intros Hcl. now rewrite Hcl in Hinv.
  - destruct (a_closed (amp s)); [exact Hinv|rewrite Hinv; cbn; lia].
  - intros Hcl evs s' Hrun.
    exact (run_closed_frozen evs s s' (attempts_inv_reachable s Hr) Hcl Hrun).
Qed.

Lemma only_Close_closes_and_Close_is_final_witness :
  let s := state_after [DialReturn (Some "refused"); ConnectUnlock;
                        Call 1 ApiClose; CallerLock 1; Call 2 ApiPing] in
  (a_closed (amp s) = false -> stream_closes s = []) /\
  length (stream_closes s) <= 1 /\
  (a_closed (amp s) = true ->
   forall evs s',
     run s evs = Some s' ->
     a_closed (amp s') = true /\
     dials s' = dials s /\
     stream_closes s' = stream_closes s).
Proof.
  apply only_Close_closes_and_Close_is_final.
  apply reachable_state_after. vm_compute. discriminate.
Defined.

(** X12: [Close] does not cancel the attempt in flight.  On a closed handle
    whose state is [connecting], [net.Dial] can still succeed: [connect]
    stores the connection and starts its reader, the state becomes
    [connected], and under every later schedule the handle keeps that
    connection and its stream is never closed. *)
Theorem Close_does_not_cancel_the_attempt (s : System) :
  reachable s ->
  a_closed (amp s) = true ->
  a_state (amp s) = connecting ->
  mu s = false ->
  a_stateListeners (amp s) = [] ->
  exists s',
    run s [DialReturn None; ConnectUnlock] = Some s' /\
    a_state (amp s') = connected /\
    a_closed (amp s') = true /\
    a_conn (amp s') = Some {| conn_c := next_stream s |} /\
    readers s' (next_stream s) = RReading /\
    forall evs s'',
      run s' evs = Some s'' ->
      a_conn (amp s'') = a_conn (amp s') /\ stream_closes s'' = [].
Proof.
  intros Hr Hcl Hst Hmu Hl.
  pose proof (attempts_inv_reachable s Hr) as Hatt.
  pose proof (attempts_inv_fanout_free s Hatt Hmu) as Hfo.
  assert (dialing s = 1) as Hd.
  { destruct Hatt as [Hd _]. now rewrite Hst in Hd. }
  assert (stream_closes s = []) as Hsc.
  { destruct (one_conn_inv_reachable s Hr) as (_ & _ & _ & H4 & _).
    destruct (conn_inv_reachable s Hr) as [Hci _].
    destruct (stream_closes s) as [|c l]; [reflexivity|].
    inversion H4 as [|? ? Hc _]. unfold on_conn in Hc.
    assert (a_state (amp s) = connected) by (apply Hci; congruence).
    congruence. }
  set (a1 := set_conn (Some {| conn_c := next_stream s |})
               (set_stateListeners []
                  (set_err None (set_state connected (amp s))))).
  set (s1 := with_fanout (Some [GoReader (next_stream s)])
               (with_mu true
                  (with_dialing 0
                     (with_next_stream (S (next_stream s)) (with_amp a1 s))))).
  set (s2 := with_mu false
               (with_fanout None (with_reader (next_stream s) RReading s1))).
  assert (run s [DialReturn None; ConnectUnlock] = Some s2) as Hrun.
  { rewrite (run_cons s s1).
    2:{ cbn [step]. rewrite Hmu, Hd, Hfo. unfold connect, setState. cbn.
        rewrite Hl. reflexivity. }
    rewrite (run_cons s1 s2) by reflexivity.
    reflexivity. }
  exists s2. split; [exact Hrun|].
  split; [reflexivity|]. split; [exact Hcl|]. split; [reflexivity|].
  split; [cbn; apply upd_same|].
  intros evs s'' Hrun'.
  pose proof (reachable_run s s2 _ Hr Hrun) as Hr2.
  pose proof (attempts_inv_reachable s2 Hr2) as Hatt2.
  destruct (run_connected evs s2 s'' Hatt2 eq_refl Hrun') as (_ & G & _).
  destruct (run_closed_frozen evs s2 s'' Hatt2 Hcl Hrun') as (_ & _ & G').
  split; [exact G|]. rewrite G'. exact Hsc.
Qed.

Lemma Close_does_not_cancel_the_attempt_witness :
  let s := state_after [Call 1 ApiClose; CallerLock 1] in
  exists s',
    run s [DialReturn None; ConnectUnlock] = Some s' /\
    a_state (amp s') = connected /\
    a_closed (amp s') = true /\
    a_conn (amp s') = Some {| conn_c := next_stream s |} /\
    readers s' (next_stream s) = RReading /\
    forall evs s'',
      run s' evs = Some s'' ->
      a_conn (amp s'') = a_conn (amp s') /\ stream_closes s'' = [].
Proof.
  apply (Close_does_not_cancel_the_attempt
           (state_after [Call 1 ApiClose; CallerLock 1])).
  - apply reachable_state_after. vm_compute. discriminate.
  - vm_compute. reflexivity.
  - vm_compute. reflexivity.
  - vm_compute. reflexivity.
  - vm_compute. reflexivity.
Defined.

(** ** The end of the loop goroutine *)

Lemma reader_fresh_inv_reachable (s : System) : reachable s -> reader_fresh_inv s.
Proof.
  revert s. apply reachable_ind.
  - intros addr acts c H. discriminate.
  - intros s s' ev Hr Hinv H acts' c Hfo Hin.
    pose proof (attempts_inv_reachable s Hr) as Hatt.
    pose proof (attempts_inv_fanout_free s Hatt) as Hfree.
    destruct ev.
    + cbn [step] in H. break_step H. cbn in *. eauto.
    + apply step_CallerLock in H. destruct H as [Hmu [[_ ->]|(op & _ & _ & ->)]].
      * destruct (perform_all_frame (snd (fst (Close (amp s))))
                    (with_amp (set_closed true (amp s)) s)) as (_ & _ & _ & G & _).
        cbn in Hfo. rewrite G in Hfo. cbn in Hfo. rewrite (Hfree Hmu) in Hfo.
        discriminate.
      * destruct (sys_startConnect_closed s) as (_ & _ & _ & _ & _ & _ & _ & _ & G).
        cbn in Hfo. rewrite G, (Hfree Hmu) in Hfo. discriminate.
    + cbn [step] in H. break_step H. cbn in *. eauto.
    + cbn [step] in H. break_step H. cbn in *. eauto.
    + cbn [step] in H. break_step H. cbn in *. eauto.
    + cbn [step] in H. break_step H. cbn in *.
      rewrite (Hinv _ _ Hfo Hin c0) in *. discriminate.
    + cbn [step] in H. break_step H. cbn in *.
      rewrite (Hinv _ _ Hfo Hin c0) in *. discriminate.
    + cbn [step] in H. destruct (mu s) eqn:Hmu; [discriminate|].
      specialize (Hfree eq_refl).
      destruct (sys_startConnect_closed s) as (_ & _ & _ & _ & _ & _ & _ & _ & G).
      break_step H; cbn in Hfo; rewrite ?G, ?Hfree in Hfo; discriminate.
    + cbn [step] in H. break_step H; cbn in *; eauto.
    + cbn [step] in H. break_step H; cbn in *; eauto.
    + cbn [step] in H. break_step H; cbn in *; eauto.
    + assert (a_conn (amp s) = None) as Hcn.
      { apply step_DialReturn in H. destruct H as (n & d & _ & Hd & _).
        destruct Hatt as [Hdi _]. rewrite Hd in Hdi.
        destruct (state_eqb (a_state (amp s)) connecting) eqn:E; [|discriminate].
        apply state_eqb_eq in E. destruct (conn_inv_reachable s Hr) as [Hci _].
        destruct (a_conn (amp s)); [|reflexivity].
        assert (a_state (amp s) = connected) by (apply Hci; discriminate).
        congruence. }
      assert (readers s' = readers s) as Hrd.
      { apply step_DialReturn in H. destruct H as (n & d & _ & _ & _ & _ & ->).
        reflexivity. }
      rewrite Hrd. intros c'.
      destruct (one_conn_inv_reachable s Hr) as (_ & H2 & _).
      destruct (readers s c') eqn:E; try reflexivity;
        assert (on_conn (amp s) c') as G by (apply H2; congruence);
        unfold on_conn in G; congruence.
    + cbn [step] in H. break_step H; cbn in *.
      injection Hfo as <-. eapply Hinv; [eassumption|right; exact Hin].
    + apply step_ConnectUnlock in H. destruct H as (acts & _ & ->). discriminate.
    + cbn [step] in H. break_step H; cbn in *;
        rewrite (Hinv _ _ Hfo Hin c0) in *; discriminate.
Qed.

Lemma perform_all_readers (acts : list action) (s : System) (c : stream) :
  (forall c0, In (GoReader c0) acts -> readers s c = RNone) ->
  reader_sending (readers s c) = true ->
  readers (perform_all acts s) c = readers s c.
Proof.
  unfold perform_all. revert s.
  induction acts as [|act acts IH]; intros s Hf Hs; cbn [fold_left];
    [reflexivity|].
  assert (readers (perform act s) c = readers s c) as E.
  { destruct act; try reflexivity. cbn.
    rewrite (Hf c0) in Hs by now left. discriminate. }
  rewrite IH; rewrite E; auto.
  intros c0 Hin. apply (Hf c0). now right.
Qed.

Lemma step_exited (s s' : System) (ev : event) :
  reachable s ->
  loop s = LExit ->
  step s ev = Some s' ->
  loop s' = LExit /\
  arrived s' = arrived s /\
  wire s' = wire s /\
  forall c, reader_sending (readers s c) = true -> readers s' c = readers s c.
Proof.
  intros Hr Hl H.
  destruct ev; try (cbn [step] in H; rewrite ?Hl in H; break_step H; discriminate).
  - cbn [step] in H. break_step H. cbn. auto.
  - apply step_CallerLock in H. destruct H as [Hmu [[_ ->]|(op & _ & _ & ->)]].
    + rewrite Close_spec. unfold perform_all.
      destruct (a_closed (amp s)); destruct (a_conn (amp s)); cbn; auto.
    + destruct (sys_startConnect_closed s) as (_ & _ & _ & _ & G1 & _ & G2 & G3 & _).
      destruct (sys_startConnect_streams s) as (_ & G4 & _).
      cbn. rewrite G1, G2, G3, G4. auto.
  - cbn [step] in H. break_step H. cbn. auto.
  - apply step_DialReturn in H. destruct H as (n & d & _ & _ & _ & _ & ->).
    cbn. auto.
  - apply step_ConnectUnlock in H. destruct H as (acts & Hfo & ->).
    destruct (perform_all_frame acts s) as (_ & _ & G1 & _ & _ & G2 & G3).
    cbn. rewrite G1, G2, G3. repeat split; auto.
    intros c Hs. apply perform_all_readers; [|exact Hs].
    intros c0 Hin. exact (reader_fresh_inv_reachable s Hr acts c0 Hfo Hin c).
  - cbn [step] in H. break_step H; cbn; repeat split; auto.
    all: intros c0 Hs; unfold upd;
      match goal with |- context [Nat.eqb c0 ?c1] =>
        destruct (Nat.eqb_spec c0 c1) as [E|]; [|reflexivity]
      end;
      rewrite E in Hs;
      match goal with G : readers _ _ = _ |- _ => rewrite G in Hs end;
      discriminate.
Qed.

Lemma run_exited (evs : list event) (s s' : System) :
  reachable s ->
  loop s = LExit ->
  run s evs = Some s' ->
  loop s' = LExit /\
  arrived s' = arrived s /\
  wire s' = wire s /\
  forall c, reader_sending (readers s c) = true -> readers s' c = readers s c.
Proof.
  revert s. induction evs as [|ev evs IH]; intros s Hr Hl H; cbn in H.
  - injection H as <-. auto.
  - destruct (step s ev) as [s1|] eqn:Hs; [|discriminate].
    destruct (step_exited s s1 ev Hr Hl Hs) as (H1 & H2 & H3 & H4).
    destruct (IH s1 (reachable_step s s1 ev Hr Hs) H1 H) as (G1 & G2 & G3 & G4).
    repeat split; try congruence.
    intros c Hc. rewrite G4; rewrite H4; auto.
Qed.

Lemma step_loop_exit (s s' : System) (ev : event) :
  step s ev = Some s' ->
  loop s' = LExit ->
  loop s = LExit \/ (ev = SelectClosed /\ reqc_closes s <> 0).
Proof.
  intros H Hl. destruct ev.
  - cbn [step] in H. break_step H. now left.
  - apply step_CallerLock in H. destruct H as [Hmu [[_ ->]|(op & _ & _ & ->)]].
    + destruct (perform_all_frame (snd (fst (Close (amp s))))
                  (with_amp (set_closed true (amp s)) s)) as (_ & _ & G & _).
      cbn in Hl. rewrite G in Hl. now left.
    + destruct (sys_startConnect_closed s) as (_ & _ & _ & _ & G & _).
      cbn in Hl. rewrite G in Hl. now left.
  - cbn [step] in H. break_step H. left. cbn in Hl. congruence.
  - cbn [step] in H. break_step H. cbn in Hl. unfold handleRequest in Hl.
    destruct (req_cmd r); discriminate.
  - cbn [step] in H. break_step H. right. split; [reflexivity|congruence].
  - cbn [step] in H. break_step H. cbn in Hl. congruence.
  - cbn [step] in H. break_step H. discriminate.
  - cbn [step] in H. break_step H; discriminate.
  - cbn [step] in H. break_step H; discriminate.
  - cbn [step] in H. break_step H; discriminate.
  - cbn [step] in H. break_step H; discriminate.
  - apply step_DialReturn in H. destruct H as (n & d & _ & _ & _ & _ & ->).
    now left.
  - cbn [step] in H. break_step H; discriminate.
  - apply step_ConnectUnlock in H. destruct H as (acts & Hfo & ->).
    destruct (perform_all_frame acts s) as (_ & _ & G & _).
    cbn in Hl. rewrite G in Hl. now left.
  - cbn [step] in H. break_step H; now left.
Qed.

Lemma exited_closed (s : System) :
  reachable s -> loop s = LExit -> a_closed (amp s) = true.
Proof.
  revert s.
  apply (reachable_ind (fun s => loop s = LExit -> a_closed (amp s) = true)).
  - intros addr H. discriminate.
  - intros s s' ev Hr Hinv H Hl.
    apply (step_closed_monotone s s' ev H).
    destruct (step_loop_exit s s' ev H Hl) as [G|[_ G]]; [auto|].
    pose proof (closed_inv_reachable s Hr) as Hci. unfold closed_inv in Hci.
    destruct (a_closed (amp s)); congruence.
Qed.

(** X13: the loop goroutine returns only on a closed handle, and its return
    is final.  Under every later schedule no request is received and
    nothing is written, and a [readFromAmp] goroutine that was at its send
    on [a.ampc] or [a.connerrc] is still there: nothing receives from it
    any more. *)
Theorem loop_exit_is_final (s s' : System) (evs : list event) :
  reachable s ->
  loop s = LExit ->
  run s evs = Some s' ->
  a_closed (amp s) = true /\
  loop s' = LExit /\
  arrived s' = arrived s /\
  wire s' = wire s /\
  forall c, reader_sending (readers s c) = true -> readers s' c = readers s c.
Proof.
  intros Hr Hl Hrun. split; [now apply exited_closed|].
  exact (run_exited evs s s' Hr Hl Hrun).
Qed.

Lemma loop_exit_is_final_witness :
  let s := state_after [DialReturn None; ConnectUnlock; ReadSlice 0 (ReadOk "PWON");
                        Call 1 ApiClose; CallerLock 1; SelectClosed] in
  let s' := state_after [DialReturn None; ConnectUnlock; ReadSlice 0 (ReadOk "PWON");
                         Call 1 ApiClose; CallerLock 1; SelectClosed;
                         Call 2 ApiPing; CallerLock 2; PanicSend 2] in
  a_closed (amp s) = true /\
  loop s' = LExit /\
  arrived s' = arrived s /\
  wire s' = wire s /\
  forall c, reader_sending (readers s c) = true -> readers s' c = readers s c.
Proof.
  apply (loop_exit_is_final
           (state_after [DialReturn None; ConnectUnlock; ReadSlice 0 (ReadOk "PWON");
                         Call 1 ApiClose; CallerLock 1; SelectClosed])
           (state_after [DialReturn None; ConnectUnlock; ReadSlice 0 (ReadOk "PWON");
                         Call 1 ApiClose; CallerLock 1; SelectClosed;
                         Call 2 ApiPing; CallerLock 2; PanicSend 2])
           [Call 2 ApiPing; CallerLock 2; PanicSend 2]).
  - apply reachable_state_after. vm_compute. discriminate.
  - vm_compute. reflexivity.
  - vm_compute. reflexivity.
Defined.

(** ** One request at a time *)

Lemma served_inv_calls (s s' : System) :
  calls s' = calls s -> loop s' = loop s -> served_inv s -> served_inv s'.
Proof. unfold served_inv. intros -> ->. auto. Qed.

Lemma served_inv_loop (s s' : System) :
  calls s' = calls s -> serving (loop s') = serving (loop s) ->
  served_inv s -> served_inv s'.
Proof. unfold served_inv. intros -> ->. auto. Qed.

Lemma served_inv_upd (s s' : System) (t : tid) (p : call_pc) :
  calls s' = upd (calls s) t p -> loop s' = loop s ->
  (forall ch, p <> CRecv ch) ->
  served_inv s -> served_inv s'.
Proof.
  unfold served_inv. intros -> -> Hp [H1 H2]. split.
  - intros t0 ch. unfold upd. destruct (Nat.eqb t0 t).
    + intros E. now destruct (Hp ch).
    + apply H1.
  - intros t1 t2 c1 c2. unfold upd.
    destruct (Nat.eqb t1 t); [intros E; now destruct (Hp c1)|].
    destruct (Nat.eqb t2 t); [intros _ E; now destruct (Hp c2)|].
    apply H2.
Qed.

Lemma served_inv_idle (s : System) :
  served_inv s -> serving (loop s) = None -> forall t ch, calls s t <> CRecv ch.
Proof.
  intros [H1 _] Hn t ch Hc. destruct (H1 t ch Hc) as (req & E & _). congruence.
Qed.

Lemma served_inv_none (s : System) :
  (forall t ch, calls s t <> CRecv ch) -> served_inv s.
Proof.
  intros H. split.
  - intros t ch Hc. now destruct (H t ch).
  - intros t1 t2 c1 c2 Hc. now destruct (H t1 c1).
Qed.

Lemma served_inv_step (s s' : System) (ev : event) :
  no_nil_inv s -> served_inv s -> step s ev = Some s' -> served_inv s'.
Proof.
  intros Hnn Hinv H. destruct ev.
  - cbn [step] in H. break_step H.
    eapply served_inv_upd; try eassumption; try reflexivity. discriminate.
  - apply step_CallerLock in H. destruct H as [Hmu [[_ ->]|(op & _ & _ & ->)]].
    + destruct (perform_all_frame (snd (fst (Close (amp s))))
                  (with_amp (set_closed true (amp s)) s))
        as (_ & _ & G1 & _ & G2 & _).
      eapply served_inv_upd; try eassumption; cbn; rewrite ?G1, ?G2;
        try reflexivity. discriminate.
    + destruct (sys_startConnect_closed s) as (_ & _ & _ & _ & G1 & G2 & _).
      eapply served_inv_upd; try eassumption; cbn; rewrite ?G1, ?G2;
        try reflexivity. discriminate.
  - cbn [step] in H. break_step H.
    eapply served_inv_upd; try eassumption; try reflexivity. discriminate.
  - cbn [step] in H. break_step H.
    pose proof (served_inv_idle s Hinv) as Hid.
    match goal with E : loop s = LSelect |- _ => rewrite E in Hid end.
    specialize (Hid eq_refl).
    split; cbn.
    + intros t0 ch. unfold upd. destruct (Nat.eqb t0 t).
      * intros E. injection E as <-. exists r. split; [|reflexivity].
        unfold handleRequest. now destruct (req_cmd r).
      * intros E. now destruct (Hid t0 ch).
    + intros t1 t2 c1 c2. unfold upd.
      destruct (Nat.eqb_spec t1 t) as [->|]; destruct (Nat.eqb_spec t2 t) as [->|];
        intros E1 E2; try reflexivity.
      * now destruct (Hid t2 c2).
      * now destruct (Hid t1 c1).
      * now destruct (Hid t1 c1).
  - cbn [step] in H. break_step H.
    eapply served_inv_loop; [| |eassumption]; rewrite_loop.
  - cbn [step] in H. break_step H.
    eapply served_inv_loop; [| |eassumption]; rewrite_loop.
  - cbn [step] in H. break_step H.
    eapply served_inv_loop; [| |eassumption]; rewrite_loop.
  - destruct (sys_startConnect_closed s) as (_ & _ & _ & _ & G1 & G2 & _).
    cbn [step] in H. break_step H.
    all: eapply served_inv_loop; [| |eassumption]; cbn; rewrite ?G2;
      rewrite_loop.
  - cbn [step] in H. break_step H.
    eapply served_inv_loop; [| |eassumption]; rewrite_loop.
  - cbn [step] in H. break_step H.
    destruct Hnn as [_ Hnn]. exfalso. eapply Hnn. eassumption.
  - cbn [step] in H. destruct (calls s t) eqn:Hc; try discriminate.
    assert (forall L e, served_inv (with_loop L (with_call t (CReturned e) s)))
      as Hret.
    { intros L e. apply served_inv_none. cbn. intros t0 c0. unfold upd.
      destruct (Nat.eqb_spec t0 t) as [->|Hne]; [discriminate|].
      intros E. apply Hne. destruct Hinv as [_ H2]. exact (H2 _ _ _ _ E Hc). }
    break_step H; apply Hret.
  - apply step_DialReturn in H. destruct H as (n & d & _ & _ & _ & _ & ->).
    eapply served_inv_calls; [| |eassumption]; reflexivity.
  - cbn [step] in H. break_step H.
    eapply served_inv_loop; [| |eassumption]; rewrite_loop.
  - apply step_ConnectUnlock in H. destruct H as (acts & Hfo & ->).
    destruct (perform_all_frame acts s) as (_ & _ & G1 & _ & G2 & _).
    eapply served_inv_calls; [| |eassumption]; cbn; assumption.
  - cbn [step] in H. break_step H.
    all: eapply served_inv_calls; [| |eassumption]; reflexivity.
Qed.

Lemma served_inv_reachable (s : System) : reachable s -> served_inv s.
Proof.
  revert s. apply reachable_ind.
  - intros addr. apply served_inv_none. discriminate.
  - intros s s' ev Hr Hinv H.
    exact (served_inv_step s s' ev (no_nil_inv_reachable s Hr) Hinv H).
Qed.

(** X14: requests are served one at a time.  At most one caller is waiting
    for its reply; the reply channel it waits on is that of the request the
    loop goroutine is handling; and while the loop goroutine is at its
    [select], is calling [startConnect] for a read failure, or has returned,
    no caller is waiting for a reply. *)
Theorem requests_served_one_at_a_time (s : System) :
  reachable s ->
  (forall t1 t2 c1 c2,
      calls s t1 = CRecv c1 -> calls s t2 = CRecv c2 -> t1 = t2) /\
  (forall t ch,
      calls s t = CRecv ch ->
      exists req, serving (loop s) = Some req /\ req_ch req = ch) /\
  (loop s = LSelect \/ loop s = LRetry \/ loop s = LExit ->
   forall t ch, calls s t <> CRecv ch).
Proof.
  intros Hr. pose proof (served_inv_reachable s Hr) as Hinv.
  split; [apply Hinv|]. split; [apply Hinv|].
  intros Hl. apply served_inv_idle; [exact Hinv|].
  destruct Hl as [->|[->| ->]]; reflexivity.
Qed.

Lemma requests_served_one_at_a_time_witness :
  let s := state_after [DialReturn None; ConnectUnlock;
                        Call 1 (ApiSendCommand "PWON"); Call 2 ApiPing;
                        CallerLock 1; CallerLock 2; SelectReq 1; LoopLock] in
  (forall t1 t2 c1 c2,
      calls s t1 = CRecv c1 -> calls s t2 = CRecv c2 -> t1 = t2) /\
  (forall t ch,
      calls s t = CRecv ch ->
      exists req, serving (loop s) = Some req /\ req_ch req = ch) /\
  (loop s = LSelect \/ loop s = LRetry \/ loop s = LExit ->
   forall t ch, calls s t <> CRecv ch).
Proof.
  apply requests_served_one_at_a_time.
  apply reachable_state_after. vm_compute. discriminate.
Defined.

(** ** What is written *)

Lemma raw_loop_step (s s' : System) (ev : event) :
  raw_loop (loop s) -> step s ev = Some s' -> raw_loop (loop s').
Proof.
  intros Hinv H. destruct ev.
  - cbn [step] in H. break_step H. exact Hinv.
  - apply step_CallerLock in H. destruct H as [Hmu [[_ ->]|(op & _ & _ & ->)]].
    + destruct (perform_all_frame (snd (fst (Close (amp s))))
                  (with_amp (set_closed true (amp s)) s)) as (_ & _ & G & _).
      cbn. now rewrite G.
    + destruct (sys_startConnect_closed s) as (_ & _ & _ & _ & G & _).
      cbn. now rewrite G.
  - cbn [step] in H. break_step H. cbn. congruence.
  - cbn [step] in H. break_step H. cbn. unfold handleRequest.
    destruct (req_cmd r) eqn:E; cbn; auto.
  - cbn [step] in H. break_step H. exact I.
  - cbn [step] in H. break_step H. cbn. congruence.
  - cbn [step] in H. break_step H. exact I.
  - cbn [step] in H. break_step H; cbn in *; auto.
  - cbn [step] in H. break_step H; cbn in *; auto.
  - cbn [step] in H. break_step H; cbn in *; auto.
  - cbn [step] in H. break_step H; cbn in *; auto.
  - apply step_DialReturn in H. destruct H as (n & d & _ & _ & _ & _ & ->).
    exact Hinv.
  - cbn [step] in H. break_step H; cbn in *; auto.
  - apply step_ConnectUnlock in H. destruct H as (acts & Hfo & ->).
    destruct (perform_all_frame acts s) as (_ & _ & G & _).
    cbn. now rewrite G.
  - cbn [step] in H. break_step H; exact Hinv.
Qed.

Lemma cmd_inv_reachable (s : System) : reachable s -> cmd_inv s.
Proof.
  revert s. apply reachable_ind.
  - intros addr. split; [constructor|exact I].
  - intros s s' ev Hr [Hw Hl] H. split; [|eapply raw_loop_step; eassumption].
    destruct (step_wire s s' ev H)
      as [->|(n & wr & fl & c & req & payload & rest & _ & E & ->)]; [exact Hw|].
    apply Forall_app. split; [exact Hw|].
    rewrite E in Hl. repeat constructor. exact Hl.
Qed.

(** X15: only [SendCommand] writes.  Every chunk on the wire was written
    for a [rawCmd] request, and while the loop goroutine is handling a
    [pingCmd] request no move adds to the wire: a [Ping] never puts a byte
    on the connection. *)
Theorem Ping_writes_nothing (s : System) :
  reachable s ->
  (forall w, In w (wire s) -> req_cmd (w_req w) = rawCmd) /\
  (forall req ev s',
      serving (loop s) = Some req -> req_cmd req = pingCmd ->
      step s ev = Some s' -> wire s' = wire s).
Proof.
  intros Hr. destruct (cmd_inv_reachable s Hr) as [Hw Hl]. split.
  - rewrite Forall_forall in Hw. exact Hw.
  - intros req ev s' Hs Hp H.
    destruct (step_wire s s' ev H)
      as [E|(n & wr & fl & c & req' & payload & rest & _ & E & _)]; [exact E|].
    rewrite E in Hl, Hs. cbn in Hl, Hs. congruence.
Qed.

Lemma Ping_writes_nothing_witness :
  let s := state_after [DialReturn None; ConnectUnlock;
                        Call 1 (ApiSendCommand "PWON"); CallerLock 1; SelectReq 1;
                        LoopLock; LoopWrite 5 None None; LoopReply 1;
                        Call 2 ApiPing; CallerLock 2; SelectReq 2] in
  (forall w, In w (wire s) -> req_cmd (w_req w) = rawCmd) /\
  (forall req ev s',
      serving (loop s) = Some req -> req_cmd req = pingCmd ->
      step s ev = Some s' -> wire s' = wire s).
Proof.
  apply Ping_writes_nothing.
  apply reachable_state_after. vm_compute. discriminate.
Defined.

(** ** The reader goroutine *)

Lemma perform_all_no_reader (acts : list action) (s : System) :
  (forall c, ~ In (GoReader c) acts) ->
  readers (perform_all acts s) = readers s.
Proof.
  unfold perform_all. revert s.
  induction acts as [|act acts IH]; intros s Hn; cbn [fold_left]; [reflexivity|].
  rewrite IH by (intros c Hin; apply (Hn c); now right).
  destruct act; try reflexivity. destruct (Hn c). now left.
Qed.

Lemma step_reader_exited (s s' : System) (ev : event) (c : stream) :
  reachable s ->
  readers s c = RExit ->
  step s ev = Some s' ->
  readers s' c = RExit.
Proof.
  intros Hr Hc H.
  destruct (sys_startConnect_streams s) as (_ & Hrd & _).
  destruct ev.
  - cbn [step] in H. break_step H. exact Hc.
  - apply step_CallerLock in H. destruct H as [Hmu [[_ ->]|(op & _ & _ & ->)]].
    + rewrite Close_spec. unfold perform_all.
      destruct (a_closed (amp s)); destruct (a_conn (amp s)); exact Hc.
    + cbn. now rewrite Hrd.
  - cbn [step] in H. break_step H. exact Hc.
  - cbn [step] in H. break_step H. exact Hc.
  - cbn [step] in H. break_step H. exact Hc.
  - cbn [step] in H. break_step H. cbn. unfold upd.
    destruct (Nat.eqb_spec c c0) as [E|]; [congruence|exact Hc].
  - cbn [step] in H. break_step H. cbn. unfold upd.
    destruct (Nat.eqb_spec c c0) as [E|]; [reflexivity|exact Hc].
  - cbn [step] in H. break_step H; cbn; rewrite ?Hrd; exact Hc.
  - cbn [step] in H. break_step H; exact Hc.
  - cbn [step] in H. break_step H; exact Hc.
  - cbn [step] in H. break_step H; exact Hc.
  - apply step_DialReturn in H. destruct H as (n & d & _ & _ & _ & _ & ->).
    exact Hc.
  - cbn [step] in H. break_step H; exact Hc.
  - apply step_ConnectUnlock in H. destruct H as (acts & Hfo & ->).
    cbn. rewrite perform_all_no_reader; [exact Hc|].
    intros c0 Hin.
    pose proof (reader_fresh_inv_reachable s Hr acts c0 Hfo Hin c). congruence.
  - cbn [step] in H. break_step H; cbn; unfold upd;
      (destruct (Nat.eqb_spec c c0) as [E|]; [congruence|exact Hc]).
Qed.

Lemma run_reader_exited (evs : list event) (s s' : System) (c : stream) :
  reachable s ->
  readers s c = RExit ->
  run s evs = Some s' ->
  readers s' c = RExit.
Proof.
  revert s. induction evs as [|ev evs IH]; intros s Hr Hc H; cbn in H.
  - now injection H as <-.
  - destruct (step s ev) as [s1|] eqn:Hs; [|discriminate].
    apply (IH s1 (reachable_step s s1 ev Hr Hs)
              (step_reader_exited s s1 ev c Hr Hc Hs) H).
Qed.

(** X16: a reader that has failed is never replaced.  Once the
    [readFromAmp] goroutine of a connection has returned, under every later
    schedule it stays returned and no other reader exists, while the handle
    still holds that connection in state [connected]: nothing reads from the
    connection any more. *)
Theorem failed_reader_is_never_replaced
  (s s' : System) (c : stream) (evs : list event) :
  reachable s ->
  readers s c = RExit ->
  run s evs = Some s' ->
  readers s' c = RExit /\
  (forall c', c' <> c -> readers s' c' = RNone) /\
  a_conn (amp s') = Some {| conn_c := c |} /\
  a_state (amp s') = connected.
Proof.
  intros Hr Hc Hrun.
  pose proof (run_reader_exited evs s s' c Hr Hc Hrun) as Hc'.
  pose proof (reachable_run s s' evs Hr Hrun) as Hr'.
  destruct (one_conn_inv_reachable s' Hr') as (_ & H2 & _).
  assert (on_conn (amp s') c) as Hon by (apply H2; congruence).
  split; [exact Hc'|]. split; [|split; [exact Hon|]].
  - intros c' Hne. destruct (readers s' c') eqn:E; try reflexivity;
      assert (on_conn (amp s') c') as G by (apply H2; congruence);
      unfold on_conn in *; congruence.
  - destruct (conn_inv_reachable s' Hr') as [Hci _]. apply Hci.
    unfold on_conn in Hon. congruence.
Qed.

Lemma failed_reader_is_never_replaced_witness :
  let s := state_after [DialReturn None; ConnectUnlock;
                        ReadSlice 0 (ReadErr "EOF"); SelectConnErr 0] in
  let s' := state_after [DialReturn None; ConnectUnlock;
                         ReadSlice 0 (ReadErr "EOF"); SelectConnErr 0; LoopLock;
                         Call 1 ApiPing; CallerLock 1] in
  readers s' 0 = RExit /\
  (forall c', c' <> 0 -> readers s' c' = RNone) /\
  a_conn (amp s') = Some {| conn_c := 0 |} /\
  a_state (amp s') = connected.
Proof.
  apply (failed_reader_is_never_replaced
           (state_after [DialReturn None; ConnectUnlock;
                         ReadSlice 0 (ReadErr "EOF"); SelectConnErr 0])
           (state_after [DialReturn None; ConnectUnlock;
                         ReadSlice 0 (ReadErr "EOF"); SelectConnErr 0; LoopLock;
                         Call 1 ApiPing; CallerLock 1])
           0 [LoopLock; Call 1 ApiPing; CallerLock 1]).
  - apply reachable_state_after. vm_compute. discriminate.
  - vm_compute. reflexivity.
  - vm_compute. reflexivity.
Defined.

(** ** The sends of [setState] *)

Lemma sends_inv_reachable (s : System) : reachable s -> sends_inv s.
Proof.
  revert s. apply reachable_ind.
  - intros addr. exact I.
  - intros s s' ev Hr Hinv H. unfold sends_inv in *.
    pose proof (attempts_inv_reachable s Hr) as Hatt.
    pose proof (attempts_inv_fanout_free s Hatt) as Hfree.
    destruct (sys_startConnect_closed s) as (_ & _ & _ & _ & _ & _ & _ & _ & G).
    destruct ev.
    + cbn [step] in H. break_step H. exact Hinv.
    + apply step_CallerLock in H. destruct H as [Hmu [[_ ->]|(op & _ & _ & ->)]].
      * destruct (perform_all_frame (snd (fst (Close (amp s))))
                    (with_amp (set_closed true (amp s)) s)) as (_ & _ & _ & G' & _).
        cbn. rewrite G'. cbn. now rewrite (Hfree Hmu).
      * cbn. now rewrite G, (Hfree Hmu).
    + cbn [step] in H. break_step H. exact Hinv.
    + cbn [step] in H. break_step H. exact Hinv.
    + cbn [step] in H. break_step H. exact Hinv.
    + cbn [step] in H. break_step H. exact Hinv.
    + cbn [step] in H. break_step H. exact Hinv.
    + cbn [step] in H. destruct (mu s) eqn:Hmu; [discriminate|].
      specialize (Hfree eq_refl).
      break_step H; cbn; rewrite ?G, ?Hfree; exact I.
    + cbn [step] in H. break_step H. exact Hinv.
    + cbn [step] in H. break_step H. exact Hinv.
    + cbn [step] in H. break_step H; exact Hinv.
    + pose proof (listeners_inv_reachable s Hr) as Hli.
      cbn [step] in H. destruct (mu s); [discriminate|].
      destruct (dialing s); [discriminate|].
      destruct (fanout s) eqn:Hfo; [discriminate|].
      unfold listeners_inv in Hli. rewrite Hfo in Hli.
      unfold connect, setState in H. cbn in H.
      destruct (a_stateListeners (amp s)) as [|ch [|]] eqn:Hls;
        [| |contradiction];
        destruct e; cbn in H; injection H as <-; cbn; rewrite ?Hls; reflexivity.
    + cbn [step] in H. break_step H; cbn in *.
      destruct l0; [reflexivity|]. cbn in Hinv.
      apply andb_true_iff in Hinv. apply Hinv.
    + apply step_ConnectUnlock in H. destruct H as (acts & _ & ->). exact I.
    + cbn [step] in H. break_step H; exact Hinv.
Qed.

(** X5: at most one waiter.  Whenever no [connect] goroutine is inside its
    critical section, [stateListeners] holds at most one channel, and when
    it holds one the state is [connecting] and the loop goroutine is in
    [handlePing] receiving from that channel.  While [connect] is inside
    its section, at most one send to a waiter is still to come, and it is a
    send on the channel the loop goroutine is receiving from. *)
Theorem at_most_one_waiter (s : System) :
  reachable s ->
  (fanout s = None ->
   a_stateListeners (amp s) = [] \/
   exists req ch,
     a_stateListeners (amp s) = [ch] /\
     a_state (amp s) = connecting /\
     loop s = LPingWait req ch) /\
  (forall acts,
      fanout s = Some acts ->
      (forallb no_send acts = true /\ not_waiting (loop s)) \/
      exists ch e rest req,
        acts = SendErr ch e :: rest /\
        forallb no_send rest = true /\
        loop s = LPingWait req ch).
Proof.
  intros Hr. pose proof (listeners_inv_reachable s Hr) as H.
  pose proof (sends_inv_reachable s Hr) as Hs.
  unfold listeners_inv in H. unfold sends_inv in Hs. split.
  - intros Hfo. rewrite Hfo in H.
    destruct (a_stateListeners (amp s)) as [|ch [|]]; [now left| |contradiction].
    destruct H as [Hst [req Hl]]. right. exists req, ch. auto.
  - intros acts Hfo. rewrite Hfo in H, Hs. destruct H as [_ H].
    destruct acts as [|act rest]; [left; split; [reflexivity|exact H]|].
    cbn in Hs. destruct act; try (left; split; [exact Hs|exact H]).
    right. destruct H as [[req Hl] Hrest]. exists ch, e, rest, req. auto.
Qed.

Lemma at_most_one_waiter_witness :
  let s := state_after [Call 1 ApiPing; CallerLock 1; SelectReq 1;
                        LoopLock; LoopLock; LoopLock] in
  (fanout s = None ->
   a_stateListeners (amp s) = [] \/
   exists req ch,
     a_stateListeners (amp s) = [ch] /\
     a_state (amp s) = connecting /\
     loop s = LPingWait req ch) /\
  (forall acts,
      fanout s = Some acts ->
      (forallb no_send acts = true /\ not_waiting (loop s)) \/
      exists ch e rest req,
        acts = SendErr ch e :: rest /\
        forallb no_send rest = true /\
        loop s = LPingWait req ch).
Proof.
  apply (at_most_one_waiter
           (state_after [Call 1 ApiPing; CallerLock 1; SelectReq 1;
                         LoopLock; LoopLock; LoopLock])).
  apply reachable_state_after. vm_compute. discriminate.
Defined.

(** ** What [Ping] returns *)

Lemma step_pending_err (s s' : System) (ev : event) (e : error) :
  step s ev = Some s' ->
  pending_err s' e ->
  pending_err s e \/ ev = DialReturn e.
Proof.
  intros H Hp.
  destruct (sys_startConnect_closed s) as (_ & _ & _ & _ & Glo & _ & _ & _ & Gfo).
  destruct ev.
  - cbn [step] in H. break_step H. now left.
  - apply step_CallerLock in H. destruct H as [Hmu [[_ ->]|(op & _ & _ & ->)]].
    + destruct (perform_all_frame (snd (fst (Close (amp s))))
                  (with_amp (set_closed true (amp s)) s))
        as (_ & _ & G1 & G2 & _).
      left. unfold pending_err in *. cbn in Hp. now rewrite G1, G2 in Hp.
    + left. unfold pending_err in *. cbn in Hp. now rewrite Glo, Gfo in Hp.
  - cbn [step] in H. break_step H. now left.
  - cbn [step] in H. break_step H. left.
    destruct Hp as [Hp|[req Hp]]; [now left|].
    cbn in Hp. unfold handleRequest in Hp. destruct (req_cmd r); discriminate.
  - cbn [step] in H. break_step H. left.
    destruct Hp as [Hp|[req Hp]]; [now left|discriminate].
  - cbn [step] in H. break_step H. left.
    destruct Hp as [Hp|[req Hp]]; [now left|cbn in Hp; congruence].
  - cbn [step] in H. break_step H. left.
    destruct Hp as [Hp|[req Hp]]; [now left|discriminate].
  - cbn [step] in H. destruct (mu s); [discriminate|].
    left. destruct Hp as [Hp|[req Hp]].
    + left. break_step H; cbn in Hp; rewrite ?Gfo in Hp; exact Hp.
    + break_step H; discriminate.
  - cbn [step] in H. break_step H. left.
    destruct Hp as [Hp|[req0 Hp]]; [now left|discriminate].
  - cbn [step] in H. break_step H. left.
    destruct Hp as [Hp|[req0 Hp]]; [now left|discriminate].
  - cbn [step] in H. left.
    destruct Hp as [Hp|[req0 Hp]].
    + left. break_step H; exact Hp.
    + break_step H; discriminate.
  - destruct Hp as [(acts & ch & Hfo & Hin)|[req Hp]].
    + right. cbn [step] in H. destruct (mu s); [discriminate|].
      destruct (dialing s); [discriminate|].
      destruct (fanout s); [discriminate|].
      unfold connect, setState in H.
      destruct e0 as [msg|]; cbn in H; injection H as <-; cbn in Hfo;
        injection Hfo as <-.
      * apply in_map_iff in Hin. destruct Hin as (ch0 & E & _). congruence.
      * apply in_app_or in Hin. destruct Hin as [Hin|[E|[]]]; [|discriminate].
        apply in_map_iff in Hin. destruct Hin as (ch0 & E & _). congruence.
    + left. right. exists req.
      apply step_DialReturn in H. destruct H as (n & d & _ & _ & _ & _ & ->).
      exact Hp.
  - cbn [step] in H. break_step H. left. left.
    destruct Hp as [(acts & chx & Hfo & Hin)|[reqx Hp]].
    + cbn in Hfo. injection Hfo as <-.
      eexists; exists chx. split; [eassumption|]. right. exact Hin.
    + cbn in Hp. injection Hp as _ <-.
      eexists; eexists. split; [eassumption|]. left. reflexivity.
  - apply step_ConnectUnlock in H. destruct H as (acts & Hfo & ->).
    destruct (perform_all_frame acts s) as (_ & _ & G & _).
    left. destruct Hp as [(acts0 & ch0 & Hfo0 & _)|[req Hp]]; [discriminate|].
    right. exists req. cbn in Hp. now rewrite G in Hp.
  - cbn [step] in H. break_step H; now left.
Qed.

Lemma run_pending_err (evs : list event) (s s' : System) (e : error) :
  run s evs = Some s' ->
  pending_err s' e ->
  pending_err s e \/ In (DialReturn e) evs.
Proof.
  revert s. induction evs as [|ev evs IH]; intros s H Hp; cbn in H.
  - injection H as <-. now left.
  - destruct (step s ev) as [s1|] eqn:Hs; [|discriminate].
    destruct (IH s1 H Hp) as [G|G]; [|right; now right].
    destruct (step_pending_err s s1 ev e Hs G) as [G'|G']; [now left|].
    right. left. exact G'.
Qed.

(** *** The moves of one caller *)

Lemma step_call_other (s s' : System) (ev : event) (t : tid) :
  step s ev = Some s' ->
  calls s' t = calls s t \/
  ev = Call t match calls s' t with CLock op => op | _ => ApiClose end \/
  ev = CallerLock t \/ ev = PanicSend t \/ ev = SelectReq t \/ ev = LoopReply t.
Proof.
  intros H.
  destruct (sys_startConnect_closed s) as (_ & _ & _ & _ & _ & G & _).
  destruct ev.
  - cbn [step] in H. break_step H. cbn. unfold upd.
    destruct (Nat.eqb_spec t t0) as [->|]; [|now left].
    right. left. reflexivity.
  - destruct (Nat.eq_dec t t0) as [->|Hne]; [now do 2 right; left|].
    left. apply step_CallerLock in H.
    destruct H as [Hmu [[_ ->]|(op & _ & _ & ->)]]; cbn; rewrite upd_other by exact Hne.
    + destruct (perform_all_frame (snd (fst (Close (amp s))))
                  (with_amp (set_closed true (amp s)) s)) as (_ & _ & _ & _ & G' & _).
      now rewrite G'.
    + now rewrite G.
  - destruct (Nat.eq_dec t t0) as [->|Hne]; [now do 3 right; left|].
    left. cbn [step] in H. break_step H. cbn. now rewrite upd_other.
  - destruct (Nat.eq_dec t t0) as [->|Hne]; [now do 4 right; left|].
    left. cbn [step] in H. break_step H. cbn. now rewrite upd_other.
  - left. cbn [step] in H. break_step H. reflexivity.
  - left. cbn [step] in H. break_step H. reflexivity.
  - left. cbn [step] in H. break_step H. reflexivity.
  - left. cbn [step] in H. destruct (mu s); [discriminate|].
    break_step H; cbn; rewrite ?G; reflexivity.
  - left. cbn [step] in H. break_step H. reflexivity.
  - left. cbn [step] in H. break_step H. reflexivity.
  - destruct (Nat.eq_dec t t0) as [->|Hne]; [now do 5 right|].
    left. cbn [step] in H. break_step H; cbn; now rewrite upd_other.
  - left. apply step_DialReturn in H. destruct H as (n & d & _ & _ & _ & _ & ->).
    reflexivity.
  - left. cbn [step] in H. break_step H. reflexivity.
  - left. apply step_ConnectUnlock in H. destruct H as (acts & Hfo & ->).
    destruct (perform_all_frame acts s) as (_ & _ & _ & _ & G' & _).
    cbn. now rewrite G'.
  - left. cbn [step] in H. break_step H; reflexivity.
Qed.

Lemma step_call_CLock (s s' : System) (ev : event) (t : tid) (op : api) :
  calls s t = CLock op ->
  step s ev = Some s' ->
  (ev <> CallerLock t /\ calls s' t = CLock op) \/
  (ev = CallerLock t /\ mu s = false /\
   ((op = ApiClose /\ calls s' t = CReturned None) \/
    (op <> ApiClose /\
     calls s' t = CSendReq (new_request (next_chan s) op) /\
     next_chan s' = S (next_chan s)))).
Proof.
  intros Hc H.
  destruct (step_call_other s s' ev t H) as [E|[E|[E|[E|[E|E]]]]].
  - destruct ev; try (left; split; [discriminate|congruence]).
    destruct (Nat.eq_dec t0 t) as [->|Hne];
      [|left; split; [congruence|congruence]].
    right. split; [reflexivity|].
    apply step_CallerLock in H. destruct H as [Hmu [[Hc' ->]|(op' & Hop & Hc' & ->)]].
    + split; [exact Hmu|]. left. split; [congruence|]. cbn. apply upd_same.
    + split; [exact Hmu|]. right. assert (op' = op) as -> by congruence.
      split; [exact Hop|]. cbn. rewrite upd_same, sys_startConnect_next_chan. auto.
  - subst ev. cbn [step] in H. rewrite Hc in H. discriminate.
  - subst ev. right. split; [reflexivity|].
    apply step_CallerLock in H. destruct H as [Hmu [[Hc' ->]|(op' & Hop & Hc' & ->)]].
    + split; [exact Hmu|]. left. split; [congruence|]. cbn. apply upd_same.
    + split; [exact Hmu|]. right. assert (op' = op) as -> by congruence.
      split; [exact Hop|]. cbn. rewrite upd_same, sys_startConnect_next_chan. auto.
  - subst ev. cbn [step] in H. rewrite Hc in H. discriminate.
  - subst ev. cbn [step] in H. rewrite Hc in H. break_step H.
  - subst ev. cbn [step] in H. rewrite Hc in H. discriminate.
Qed.

Lemma step_call_CSendReq (s s' : System) (ev : event) (t : tid) (r : request) :
  calls s t = CSendReq r ->
  step s ev = Some s' ->
  (calls s' t = CSendReq r /\ ev <> SelectReq t) \/
  calls s' t = CPanicked \/
  (ev = SelectReq t /\ loop s = LSelect /\
   s' = with_loop (handleRequest r)
          (with_arrived (arrived s ++ [r]) (with_call t (CRecv (req_ch r)) s))).
Proof.
  intros Hc H.
  destruct (step_call_other s s' ev t H) as [E|[E|[E|[E|[E|E]]]]].
  - destruct ev; try (left; split; [congruence|discriminate]).
    destruct (Nat.eq_dec t0 t) as [->|Hne]; [|left; split; congruence].
    cbn [step] in H. rewrite Hc in H. break_step H. cbn in E.
    rewrite upd_same in E. congruence.
  - subst ev. cbn [step] in H. rewrite Hc in H. discriminate.
  - subst ev. cbn [step] in H. rewrite Hc in H. now destruct (mu s).
  - subst ev. right. left. cbn [step] in H. rewrite Hc in H. break_step H.
    cbn. apply upd_same.
  - subst ev. right. right. cbn [step] in H. rewrite Hc in H. break_step H. auto.
  - subst ev. cbn [step] in H. rewrite Hc in H. discriminate.
Qed.

Lemma step_call_CRecv (s s' : System) (ev : event) (t : tid) (ch : chan) :
  calls s t = CRecv ch ->
  step s ev = Some s' ->
  (calls s' t = CRecv ch /\ ev <> LoopReply t) \/
  (ev = LoopReply t /\
   exists e l',
     s' = with_loop l' (with_call t (CReturned e) s) /\
     ((exists req, loop s = LPingReply1 req /\ e = None /\ l' = LPingConnect req) \/
      (exists req, loop s = LPingReply2 req e /\ l' = LSelect) \/
      (exists req rs rest,
          loop s = LDo req (Reply ch rs :: rest) /\ e = res_err rs /\
          l' = match rest with [] => LSelect | _ :: _ => LDo req rest end))).
Proof.
  intros Hc H.
  destruct (step_call_other s s' ev t H) as [E|[E|[E|[E|[E|E]]]]].
  - destruct ev; try (left; split; [congruence|discriminate]).
    destruct (Nat.eq_dec t0 t) as [->|Hne]; [|left; split; congruence].
    cbn [step] in H. rewrite Hc in H. break_step H; cbn in E;
      rewrite upd_same in E; congruence.
  - subst ev. cbn [step] in H. rewrite Hc in H. discriminate.
  - subst ev. cbn [step] in H. rewrite Hc in H. now destruct (mu s).
  - subst ev. cbn [step] in H. rewrite Hc in H. discriminate.
  - subst ev. cbn [step] in H. rewrite Hc in H. break_step H.
  - subst ev. right. split; [reflexivity|].
    cbn [step] in H. rewrite Hc in H.
    destruct (loop s) as [| | |req| | | | |req e0| |req [|[] rest]| |] eqn:Hl;
      try discriminate.
    + destruct (Nat.eqb (req_ch req) ch); [|discriminate]. injection H as <-.
      exists None, (LPingConnect req). split; [reflexivity|].
      left. exists req. auto.
    + destruct (Nat.eqb (req_ch req) ch); [|discriminate]. injection H as <-.
      exists e0, LSelect. split; [reflexivity|].
      right. left. exists req. auto.
    + destruct (Nat.eqb_spec ch0 ch) as [->|]; [|discriminate]. injection H as <-.
      eexists; eexists. split; [reflexivity|].
      right. right. exists req, r, rest. auto.
Qed.

Lemma step_call_done (s s' : System) (ev : event) (t : tid) :
  step s ev = Some s' ->
  (forall e, calls s t = CReturned e -> calls s' t = CReturned e) /\
  (calls s t = CPanicked -> calls s' t = CPanicked).
Proof.
  intros H.
  destruct (step_call_other s s' ev t H) as [E|[E|[E|[E|[E|E]]]]].
  - rewrite E. auto.
  - split; intros; subst ev; cbn [step] in H.
    + erewrite H0 in H. discriminate.
    + rewrite H0 in H. discriminate.
  - split; intros; subst ev; cbn [step] in H.
    + erewrite H0 in H. now destruct (mu s).
    + rewrite H0 in H. now destruct (mu s).
  - split; intros; subst ev; cbn [step] in H.
    + erewrite H0 in H. discriminate.
    + rewrite H0 in H. discriminate.
  - split; intros; subst ev; cbn [step] in H.
    + erewrite H0 in H. break_step H.
    + rewrite H0 in H. break_step H.
  - split; intros; subst ev; cbn [step] in H.
    + erewrite H0 in H. discriminate.
    + rewrite H0 in H. discriminate.
Qed.

(** *** The loop goroutine inside [handlePing] *)

Lemma step_ping_loop (s s' : System) (ev : event) :
  step s ev = Some s' ->
  match loop s with
  | LPing req =>
      loop s' = LPing req \/
      (a_state (amp s) = connected /\ loop s' = LPingReply1 req) \/
      (a_state (amp s) <> connected /\ loop s' = LPingConnect req)
  | LPingReply1 req =>
      loop s' = LPingReply1 req \/ exists t0, ev = LoopReply t0
  | LPingConnect req => loop s' = LPingConnect req \/ loop s' = LPingListen req
  | LPingListen req =>
      loop s' = LPingListen req \/
      exists ch, loop s' = LPingWait req ch \/ loop s' = LPingBlocked req ch
  | LPingWait req ch =>
      loop s' = LPingWait req ch \/ exists e, loop s' = LPingReply2 req e
  | LPingBlocked req ch => loop s' = LPingBlocked req ch
  | LPingReply2 req e =>
      loop s' = LPingReply2 req e \/ exists t0, ev = LoopReply t0
  | _ => True
  end.
Proof.
  intros H.
  destruct (sys_startConnect_closed s) as (_ & _ & _ & _ & G & _).
  assert (loop s' = loop s ->
          match loop s with
          | LPing req =>
              loop s' = LPing req \/
              (a_state (amp s) = connected /\ loop s' = LPingReply1 req) \/
              (a_state (amp s) <> connected /\ loop s' = LPingConnect req)
          | LPingReply1 req =>
              loop s' = LPingReply1 req \/ exists t0, ev = LoopReply t0
          | LPingConnect req => loop s' = LPingConnect req \/ loop s' = LPingListen req
          | LPingListen req =>
              loop s' = LPingListen req \/
              exists ch, loop s' = LPingWait req ch \/ loop s' = LPingBlocked req ch
          | LPingWait req ch =>
              loop s' = LPingWait req ch \/ exists e, loop s' = LPingReply2 req e
          | LPingBlocked req ch => loop s' = LPingBlocked req ch
          | LPingReply2 req e =>
              loop s' = LPingReply2 req e \/ exists t0, ev = LoopReply t0
          | _ => True
          end) as Hsame.
  { intros E. destruct (loop s); auto. }
  destruct ev.
  - apply Hsame. cbn [step] in H. break_step H. reflexivity.
  - apply Hsame. apply step_CallerLock in H.
    destruct H as [Hmu [[_ ->]|(op & _ & _ & ->)]]; cbn.
    + apply (perform_all_frame (snd (fst (Close (amp s))))
               (with_amp (set_closed true (amp s)) s)).
    + exact G.
  - apply Hsame. cbn [step] in H. break_step H. reflexivity.
  - cbn [step] in H. break_step H. exact I.
  - cbn [step] in H. break_step H. exact I.
  - cbn [step] in H. break_step H. exact I.
  - cbn [step] in H. break_step H. exact I.
  - cbn [step] in H. destruct (mu s); [discriminate|].
    destruct (loop s) eqn:Hl; try discriminate; try exact I.
    + destruct (state_eqb (a_state (amp s)) connected) eqn:E; injection H as <-.
      * right. left. apply state_eqb_eq in E. auto.
      * right. right. apply state_eqb_neq in E. auto.
    + injection H as <-. now right.
    + cbn zeta in H. destruct (addStateListener (next_chan s) (amp s)) as [a [|? ?]];
        injection H as <-; right; eexists; [left|right]; reflexivity.
  - cbn [step] in H. break_step H. exact I.
  - cbn [step] in H. break_step H. exact I.
  - cbn [step] in H. destruct (calls s t); try discriminate.
    destruct (loop s); try discriminate; try exact I.
    + right. now exists t.
    + right. now exists t.
  - apply Hsame. apply step_DialReturn in H.
    destruct H as (n & d & _ & _ & _ & _ & ->). reflexivity.
  - cbn [step] in H. break_step H. right. eexists. reflexivity.
  - apply Hsame. apply step_ConnectUnlock in H. destruct H as (acts & Hfo & ->).
    cbn. apply (perform_all_frame acts s).
  - apply Hsame. cbn [step] in H. break_step H; reflexivity.
Qed.

Lemma no_send_not_In (acts : list action) (ch : chan) (e : error) :
  forallb no_send acts = true -> ~ In (SendErr ch e) acts.
Proof.
  intros H Hin. rewrite forallb_forall in H. specialize (H _ Hin). discriminate.
Qed.

Lemma idle_no_pending (s : System) (e : error) :
  reachable s ->
  not_waiting (loop s) ->
  (forall req, loop s <> LPingReply2 req e) ->
  ~ pending_err s e.
Proof.
  intros Hr Hnw Hnr [(acts & ch & Hfo & Hin)|[req Hl]]; [|now destruct (Hnr req)].
  pose proof (listeners_inv_reachable s Hr) as Hli.
  pose proof (sends_inv_reachable s Hr) as Hs.
  unfold listeners_inv in Hli. unfold sends_inv in Hs. rewrite Hfo in Hli, Hs.
  destruct Hli as [_ Hli].
  destruct acts as [|act rest]; [now destruct Hin|]. cbn in Hs.
  destruct Hin as [->|Hin].
  - destruct Hli as [[req Hl] _]. now destruct (Hnw req ch).
  - now apply (no_send_not_In rest ch e Hs).
Qed.

Lemma step_becomes_connected (s s' : System) (ev : event) :
  step s ev = Some s' ->
  a_state (amp s) <> connected ->
  a_state (amp s') = connected ->
  ev = DialReturn None.
Proof.
  intros H Hn Hc. pose proof (step_state s s' ev H) as Hs.
  destruct ev; try congruence.
  - destruct Hs as [Hs|(_ & _ & Hs & _)]; congruence.
  - destruct Hs as [Hs|(_ & _ & Hs & _)]; congruence.
  - rewrite Hc in Hs. destruct e; [discriminate|reflexivity].
Qed.

Lemma run_becomes_connected (evs : list event) (s s' : System) :
  run s evs = Some s' ->
  a_state (amp s) <> connected ->
  a_state (amp s') = connected ->
  In (DialReturn None) evs.
Proof.
  revert s. induction evs as [|ev evs IH]; intros s H Hn Hc; cbn in H.
  - injection H as <-. contradiction.
  - destruct (step s ev) as [s1|] eqn:Hs; [|discriminate].
    destruct (state_eqb (a_state (amp s1)) connected) eqn:E.
    + apply state_eqb_eq in E. left.
      exact (step_becomes_connected s s1 ev Hs Hn E).
    + apply state_eqb_neq in E. right. exact (IH s1 H E Hc).
Qed.

(** *** The call, move by move *)

Lemma ping_track_step
  (s0 : System) (t : tid) (evs : list event) (s s' : System) (ev : event) :
  reachable s0 ->
  run s0 evs = Some s ->
  ping_track s0 t evs s ->
  step s ev = Some s' ->
  ping_track s0 t (evs ++ [ev]) s'.
Proof.
  intros Hr0 Hrun Htr H.
  pose proof (reachable_run s0 s evs Hr0 Hrun) as Hr.
  pose proof (attempts_inv_reachable s0 Hr0) as Hatt0.
  assert (a_state (amp s0) = connected -> a_state (amp s) = connected) as Habs.
  { intros E. apply (run_connected evs s0 s Hatt0 E Hrun). }
  unfold ping_track in *.
  destruct (calls s t) as [|op|r|ch|e|] eqn:Hc.
  - contradiction.
  - subst op.
    destruct (step_call_CLock s s' ev t ApiPing Hc H)
      as [[_ ->]|(_ & _ & [[E _]|(_ & -> & _)])]; [reflexivity|discriminate|].
    reflexivity.
  - destruct (step_call_CSendReq s s' ev t r Hc H) as [[-> _]|[->|(-> & Hl & ->)]];
      [exact Htr|exact I|].
    cbn. rewrite upd_same. split.
    + intros e Hp. exfalso.
      apply (idle_no_pending s e Hr).
      * rewrite Hl. intros ? ?. discriminate.
      * rewrite Hl. intros ?. discriminate.
      * destruct Hp as [Hp|[req Hp]]; [now left|].
        cbn in Hp. unfold handleRequest in Hp. rewrite Htr in Hp. discriminate.
    + unfold handleRequest. rewrite Htr. exact I.
  - destruct Htr as [Hpe Hsh].
    destruct (step_call_CRecv s s' ev t ch Hc H)
      as [[-> Hev]|(-> & e & l' & -> & Hcase)].
    + split.
      * intros e Hp. apply in_or_app.
        destruct (step_pending_err s s' ev e H Hp) as [G| ->];
          [left; auto|right; now left].
      * pose proof (step_ping_loop s s' ev H) as Hlo.
        destruct (loop s) eqn:Hl; try contradiction.
        -- destruct Hlo as [->|[[E ->]|[E ->]]]; [exact I| |].
           ++ destruct (step_connected s s' ev (attempts_inv_reachable s Hr) E H)
                as (G & _). exact G.
           ++ intros E0. apply E. auto.
        -- destruct Hlo as [->|[t0 ->]].
           ++ destruct (step_connected s s' ev (attempts_inv_reachable s Hr) Hsh H)
                as (G & _). exact G.
           ++ exfalso. apply Hev. f_equal.
              cbn [step] in H. destruct (calls s t0) eqn:Hc0; try discriminate.
              destruct (served_inv_reachable s Hr) as [_ Hu].
              exact (Hu _ _ _ _ Hc0 Hc).
        -- destruct Hlo as [->| ->]; exact Hsh.
        -- destruct Hlo as [->|[ch0 [->| ->]]]; exact Hsh.
        -- rewrite Hlo. exact Hsh.
        -- destruct Hlo as [->|[e ->]]; exact Hsh.
        -- destruct Hlo as [->|[t0 ->]]; [exact Hsh|].
           exfalso. apply Hev. f_equal.
           cbn [step] in H. destruct (calls s t0) eqn:Hc0; try discriminate.
           destruct (served_inv_reachable s Hr) as [_ Hu].
           exact (Hu _ _ _ _ Hc0 Hc).
    + cbn. rewrite upd_same.
      destruct Hcase as [(req & Hl & -> & _)|[(req & Hl & _)|(req & rs & rest & Hl & _)]];
        rewrite Hl in Hsh.
      * split; [reflexivity|]. intros Hn. apply in_or_app. left.
        exact (run_becomes_connected evs s0 s Hrun Hn Hsh).
      * split; [contradiction|]. intros _. apply in_or_app. left.
        apply Hpe. right. now exists req.
      * contradiction.
  - destruct (step_call_done s s' ev t H) as [G _]. rewrite (G e Hc).
    destruct Htr as [H1 H2]. split; [exact H1|].
    intros Hn. apply in_or_app. left. auto.
  - destruct (step_call_done s s' ev t H) as [_ G]. now rewrite (G Hc).
Qed.

Lemma ping_track_run
  (s0 : System) (t : tid) (evs2 evs1 : list event) (s1 s2 : System) :
  reachable s0 ->
  run s0 evs1 = Some s1 ->
  ping_track s0 t evs1 s1 ->
  run s1 evs2 = Some s2 ->
  ping_track s0 t (evs1 ++ evs2) s2.
Proof.
  intros Hr0. revert evs1 s1.
  induction evs2 as [|ev evs2 IH]; intros evs1 s1 Hrun Htr H; cbn in H.
  - injection H as <-. now rewrite app_nil_r.
  - destruct (step s1 ev) as [s1'|] eqn:Hs; [|discriminate].
    replace (evs1 ++ ev :: evs2) with ((evs1 ++ [ev]) ++ evs2)
      by (rewrite <- app_assoc; reflexivity).
    apply (IH (evs1 ++ [ev]) s1').
    + rewrite run_app, Hrun. cbn. now rewrite Hs.
    + exact (ping_track_step s0 t evs1 s1 s1' ev Hr0 Hrun Htr Hs).
    + exact H.
Qed.

Lemma run_DialReturn_None (evs : list event) (s s' : System) :
  reachable s ->
  run s evs = Some s' ->
  In (DialReturn None) evs ->
  a_state (amp s') = connected.
Proof.
  intros Hr Hrun Hin. apply in_split in Hin. destruct Hin as (l1 & l2 & ->).
  rewrite run_app in Hrun. destruct (run s l1) as [s1|] eqn:H1; [|discriminate].
  cbn [run] in Hrun.
  destruct (step s1 (DialReturn None)) as [s2|] eqn:H2; [|discriminate].
  pose proof (step_state s1 s2 _ H2) as Hst. cbn in Hst.
  pose proof (reachable_step s1 s2 _ (reachable_run s s1 l1 Hr H1) H2) as Hr2.
  apply (run_connected l2 s2 s' (attempts_inv_reachable s2 Hr2) Hst Hrun).
Qed.

(** X8: what [Ping] returns.  Under every schedule, a call of [Ping] that
    returns, returns nil if the handle was [connected] when the call was
    made, and otherwise the result of a [net.Dial] that returned during the
    call; when it returns nil the handle is [connected].  And on an open
    handle that is not connected, with [mu] free and the loop goroutine at
    its [select], the call can return whatever [net.Dial] returns: the
    schedule in which [handlePing] registers its waiter before the attempt
    ends runs to the caller's return. *)
Theorem Ping_returns_the_dial_result (s : System) (t : tid) :
  reachable s ->
  calls s t = CLock ApiPing ->
  (forall evs s' e,
      run s evs = Some s' ->
      calls s' t = CReturned e ->
      (a_state (amp s) = connected -> e = None) /\
      (a_state (amp s) <> connected -> In (DialReturn e) evs) /\
      (e = None -> a_state (amp s') = connected)) /\
  (a_state (amp s) <> connected ->
   a_closed (amp s) = false ->
   mu s = false ->
   loop s = LSelect ->
   forall e,
   exists s',
     run s [CallerLock t; SelectReq t; LoopLock; LoopLock; LoopLock;
            DialReturn e; ListenerSend; ConnectUnlock; LoopReply t] = Some s' /\
     calls s' t = CReturned e /\
     a_state (amp s') = outcome_state e /\
     a_err (amp s') = e /\
     a_stateListeners (amp s') = [] /\
     loop s' = LSelect).
Proof.
  intros Hr Hc. split.
  - intros evs s' e Hrun Hret.
    assert (ping_track s t [] s) as H0 by (unfold ping_track; now rewrite Hc).
    pose proof (ping_track_run s t evs [] s s' Hr eq_refl H0 Hrun) as Htr.
    unfold ping_track in Htr. rewrite Hret in Htr. cbn in Htr.
    destruct Htr as [H1 H2]. split; [exact H1|]. split; [exact H2|].
    intros ->.
    destruct (state_eqb (a_state (amp s)) connected) eqn:E.
    + apply state_eqb_eq in E.
      apply (run_connected evs s s' (attempts_inv_reachable s Hr) E Hrun).
    + apply state_eqb_neq in E.
      exact (run_DialReturn_None evs s s' Hr Hrun (H2 E)).
  - intros Hst Hcl Hmu Hl e.
    destruct (Ping_unconnected_run s t e Hr Hst Hcl Hmu Hl Hc)
      as (s' & H1 & H2 & H3 & H4 & H5 & H6 & _).
    exists s'. auto 10.
Qed.

Lemma Ping_returns_the_dial_result_witness :
  let s := state_after [DialReturn (Some "refused"); ConnectUnlock;
                        Call 1 ApiPing] in
  (forall evs s' e,
      run s evs = Some s' ->
      calls s' 1 = CReturned e ->
      (a_state (amp s) = connected -> e = None) /\
      (a_state (amp s) <> connected -> In (DialReturn e) evs) /\
      (e = None -> a_state (amp s') = connected)) /\
  (a_state (amp s) <> connected ->
   a_closed (amp s) = false ->
   mu s = false ->
   loop s = LSelect ->
   forall e,
   exists s',
     run s [CallerLock 1; SelectReq 1; LoopLock; LoopLock; LoopLock;
            DialReturn e; ListenerSend; ConnectUnlock; LoopReply 1] = Some s' /\
     calls s' 1 = CReturned e /\
     a_state (amp s') = outcome_state e /\
     a_err (amp s') = e /\
     a_stateListeners (amp s') = [] /\
     loop s' = LSelect).
Proof.
  apply (Ping_returns_the_dial_result
           (state_after [DialReturn (Some "refused"); ConnectUnlock; Call 1 ApiPing])
           1).
  - apply reachable_state_after. vm_compute. discriminate.
  - vm_compute. reflexivity.
Defined.

(** ** What [SendCommand] returns *)

Lemma step_raw_loop (s s' : System) (ev : event) :
  step s ev = Some s' ->
  match loop s with
  | LRaw req =>
      (loop s' = LRaw req /\ wire s' = wire s) \/
      (mu s = false /\ s' = with_loop (LDo req (handleRaw req (amp s))) s)
  | LDo req acts =>
      (loop s' = LDo req acts /\ wire s' = wire s) \/
      (exists n c p c' rest,
          acts = WriteString c p :: Flush c' :: rest /\
          s' = with_loop (LDo req rest)
                 (with_wire
                    (wire s ++ [{| w_stream := c; w_req := req;
                                   w_bytes := substring 0 n p |}]) s)) \/
      (exists rest, acts = NilConn :: rest) \/
      (exists t0 ch, ev = LoopReply t0 /\ calls s t0 = CRecv ch)
  | _ => True
  end.
Proof.
  intros H.
  destruct (sys_startConnect_closed s) as (_ & _ & _ & _ & G & _ & _ & Gw & _).
  assert (loop s' = loop s -> wire s' = wire s ->
          match loop s with
          | LRaw req =>
              (loop s' = LRaw req /\ wire s' = wire s) \/
              (mu s = false /\ s' = with_loop (LDo req (handleRaw req (amp s))) s)
          | LDo req acts =>
              (loop s' = LDo req acts /\ wire s' = wire s) \/
              (exists n c p c' rest,
                  acts = WriteString c p :: Flush c' :: rest /\
                  s' = with_loop (LDo req rest)
                         (with_wire
                            (wire s ++ [{| w_stream := c; w_req := req;
                                           w_bytes := substring 0 n p |}]) s)) \/
              (exists rest, acts = NilConn :: rest) \/
              (exists t0 ch, ev = LoopReply t0 /\ calls s t0 = CRecv ch)
          | _ => True
          end) as Hsame.
  { intros E1 E2. destruct (loop s); auto. }
  destruct ev.
  - apply Hsame; cbn [step] in H; break_step H; reflexivity.
  - apply step_CallerLock in H.
    destruct H as [Hmu [[_ ->]|(op & _ & _ & ->)]]; apply Hsame; cbn.
    + apply (perform_all_frame (snd (fst (Close (amp s))))
               (with_amp (set_closed true (amp s)) s)).
    + apply (perform_all_frame (snd (fst (Close (amp s))))
               (with_amp (set_closed true (amp s)) s)).
    + exact G.
    + exact Gw.
  - apply Hsame; cbn [step] in H; break_step H; reflexivity.
  - cbn [step] in H. break_step H. exact I.
  - cbn [step] in H. break_step H. exact I.
  - cbn [step] in H. break_step H. exact I.
  - cbn [step] in H. break_step H. exact I.
  - cbn [step] in H. destruct (mu s) eqn:Hmu; [discriminate|].
    destruct (loop s) eqn:Hl; try discriminate; try exact I.
    injection H as <-. right. auto.
  - cbn [step] in H. destruct (loop s) as [| | | | | | | | | |req acts| |] eqn:Hl;
      try discriminate.
    destruct acts as [|[] [|[] rest]]; try discriminate.
    injection H as <-. right. left. do 5 eexists. split; reflexivity.
  - cbn [step] in H. destruct (loop s) as [| | | | | | | | | |req acts| |] eqn:Hl;
      try discriminate.
    destruct acts as [|[] rest]; try discriminate.
    right. right. left. eexists. reflexivity.
  - cbn [step] in H. destruct (calls s t) eqn:Hc; try discriminate.
    destruct (loop s); try discriminate; try exact I.
    do 3 right. exists t, ch. auto.
  - apply step_DialReturn in H. destruct H as (n & d & _ & _ & _ & _ & ->).
    apply Hsame; reflexivity.
  - cbn [step] in H. break_step H. exact I.
  - apply step_ConnectUnlock in H. destruct H as (acts & Hfo & ->).
    apply Hsame; cbn; apply (perform_all_frame acts s).
  - apply Hsame; cbn [step] in H; break_step H; reflexivity.
Qed.

Lemma wire_arrived (s : System) (w : written) :
  reachable s -> In w (wire s) -> In (w_req w) (arrived s).
Proof.
  intros Hr Hin. destruct (wire_inv_reachable s Hr) as (Hsub & _).
  eapply subseq_In; [exact Hsub|].
  apply in_or_app. left. now apply in_map.
Qed.

Lemma raw_shape_step (s0 s s' : System) (ev : event) (r : request) (acts : list action) :
  reachable s ->
  step s ev = Some s' ->
  wire s' = wire s ->
  raw_shape s0 s r acts -> raw_shape s0 s' r acts.
Proof.
  intros Hr H Hw Hsh.
  pose proof (attempts_inv_reachable s Hr) as Hatt.
  pose proof (conn_inv_reachable s Hr) as Hci.
  destruct Hsh as [(ch' & -> & Hn & Hs0)|[(c & ch' & -> & Hc & Hst)|(ch' & -> & Hl & Hst)]].
  - left. exists ch'. split; [reflexivity|]. split; [|exact Hs0].
    unfold no_chunk. now rewrite Hw.
  - right. left. exists c, ch'. split; [reflexivity|]. split.
    + exact (on_conn_step s s' ev c Hatt Hci H Hc).
    + apply (step_connected s s' ev Hatt Hst H).
  - right. right. exists ch'. split; [reflexivity|]. split.
    + destruct Hl as (ws & c & n & E & Hc). exists ws, c, n. split; [congruence|].
      exact (on_conn_step s s' ev c Hatt Hci H Hc).
    + apply (step_connected s s' ev Hatt Hst H).
Qed.

Lemma raw_track_step
  (s0 : System) (t : tid) (cmd : string) (evs : list event) (s s' : System)
  (ev : event) :
  reachable s0 ->
  run s0 evs = Some s ->
  raw_track s0 t cmd s ->
  step s ev = Some s' ->
  raw_track s0 t cmd s'.
Proof.
  intros Hr0 Hrun Htr H.
  pose proof (reachable_run s0 s evs Hr0 Hrun) as Hr.
  pose proof (attempts_inv_reachable s0 Hr0) as Hatt0.
  assert (a_state (amp s0) = connected -> a_state (amp s) = connected) as Habs.
  { intros E. apply (run_connected evs s0 s Hatt0 E Hrun). }
  unfold raw_track in *.
  destruct (calls s t) as [|op|r|ch|e|] eqn:Hc.
  - contradiction.
  - subst op.
    destruct (step_call_CLock s s' ev t _ Hc H)
      as [[_ ->]|(_ & _ & [[E _]|(_ & -> & _)])]; [reflexivity|discriminate|].
    reflexivity.
  - destruct (step_call_CSendReq s s' ev t r Hc H) as [[-> _]|[->|(-> & Hl & ->)]];
      [exact Htr|exact I|].
    cbn. rewrite upd_same.
    assert (handleRequest r = LRaw r) as -> by (rewrite Htr; reflexivity).
    split; [exact Htr|].
    intros w Hin E.
    destruct (fresh_inv_reachable s Hr) as (_ & _ & _ & Hf & _).
    apply (Hf t r Hc). rewrite <- E. apply in_map.
    now apply wire_arrived.
  - destruct (step_call_CRecv s s' ev t ch Hc H)
      as [[-> Hev]|(-> & e & l' & -> & _)].
    2:{ cbn. now rewrite upd_same. }
    pose proof (step_raw_loop s s' ev H) as Hlo.
    destruct (loop s) as [| | | | | | | | |r|r acts| |] eqn:Hl; try contradiction.
    + destruct Htr as [Er Hn].
      destruct Hlo as [[-> Hw]|[Hmu ->]].
      * split; [exact Er|]. unfold no_chunk. now rewrite Hw.
      * cbn. split; [exact Er|].
        assert (req_ch r = ch) as Ech by (rewrite Er; apply new_request_ch).
        unfold handleRaw.
        destruct (state_eqb (a_state (amp s)) connected) eqn:E; cbn.
        -- apply state_eqb_eq in E.
           destruct (conn_inv_reachable s Hr) as [Hci _].
           destruct (a_conn (amp s)) as [[c]|] eqn:Hcn.
           ++ right. left. exists c, (req_ch r). cbn. auto.
           ++ apply Hci in E. now destruct E.
        -- apply state_eqb_neq in E.
           left. exists (req_ch r). split; [reflexivity|]. split.
           ++ rewrite Ech. exact Hn.
           ++ intros E0. apply E. auto.
    + destruct Htr as [Er Hsh].
      destruct Hlo as [[-> Hw]|[(n & c & p & c' & rest & -> & ->)|[(rest & ->)|
                                  (t0 & ch0 & -> & Hc0)]]].
      * split; [exact Er|]. exact (raw_shape_step s0 s s' ev r acts Hr H Hw Hsh).
      * cbn. split; [exact Er|].
        destruct Hsh as [(ch' & E & _)|[(c0 & ch' & E & Hcn & Hst)|(ch' & E & _)]];
          try discriminate.
        injection E as -> -> -> ->.
        right. right. exists ch'. split; [reflexivity|]. split; [|exact Hst].
        exists (wire s), c0, n. auto.
      * destruct Hsh as [(ch' & E & _)|[(c0 & ch' & E & _)|(ch' & E & _)]];
          discriminate.
      * exfalso. apply Hev. f_equal.
        destruct (served_inv_reachable s Hr) as [_ Hu].
        exact (Hu _ _ _ _ Hc0 Hc).
  - destruct (step_call_done s s' ev t H) as [G _]. now rewrite (G e Hc).
  - destruct (step_call_done s s' ev t H) as [_ G]. now rewrite (G Hc).
Qed.

Lemma raw_track_run
  (s0 : System) (t : tid) (cmd : string) (evs2 evs1 : list event) (s1 s2 : System) :
  reachable s0 ->
  run s0 evs1 = Some s1 ->
  raw_track s0 t cmd s1 ->
  run s1 evs2 = Some s2 ->
  raw_track s0 t cmd s2.
Proof.
  intros Hr0. revert evs1 s1.
  induction evs2 as [|ev evs2 IH]; intros evs1 s1 Hrun Htr H; cbn in H.
  - now injection H as <-.
  - destruct (step s1 ev) as [s1'|] eqn:Hs; [|discriminate].
    apply (IH (evs1 ++ [ev]) s1').
    + rewrite run_app, Hrun. cbn. now rewrite Hs.
    + exact (raw_track_step s0 t cmd evs1 s1 s1' ev Hr0 Hrun Htr Hs).
    + exact H.
Qed.

Lemma SendCommand_return
  (s : System) (t : tid) (cmd : string) (evs : list event) (s1 s' : System) :
  reachable s ->
  calls s t = CLock (ApiSendCommand cmd) ->
  run s evs = Some s1 ->
  step s1 (LoopReply t) = Some s' ->
  exists ch,
    calls s1 t = CRecv ch /\
    ((calls s' t = CReturned None /\
      last_chunk (new_request ch (ApiSendCommand cmd)) s' /\
      a_state (amp s') = connected) \/
     (calls s' t = CReturned not_connected /\
      no_chunk ch s' /\
      a_state (amp s) <> connected)).
Proof.
  intros Hr Hc Hrun H.
  assert (raw_track s t cmd s) as H0 by (unfold raw_track; now rewrite Hc).
  pose proof (raw_track_run s t cmd evs [] s s1 Hr eq_refl H0 Hrun) as Htr.
  unfold raw_track in Htr.
  destruct (calls s1 t) as [| | |ch| |] eqn:Hc1;
    try (cbn [step] in H; rewrite Hc1 in H; discriminate).
  exists ch. split; [reflexivity|].
  destruct (step_call_CRecv s1 s' _ t ch Hc1 H)
    as [[_ Hev]|(_ & e & l' & -> & Hcase)]; [now destruct Hev|].
  cbn. rewrite upd_same.
  destruct Hcase as [(req & Hl & _)|[(req & Hl & _)|(req & rs & rest & Hl & -> & _)]];
    rewrite Hl in Htr; try contradiction.
  destruct Htr as [-> Hsh].
  destruct Hsh as [(ch' & E & Hn & Hs0)|[(c & ch' & E & _)|(ch' & E & Hlc & Hst)]];
    try discriminate; injection E as _ -> ->; cbn.
  - right. rewrite new_request_ch in Hn. auto.
  - left. split; [reflexivity|]. split; [|exact Hst].
    destruct Hlc as (ws & c & n & Hw & Hcn). exists ws, c, n. auto.
Qed.

(** X6: [SendCommand] on a connected handle.  Under every schedule, when
    the call returns it returns nil, and the last chunk on the wire is then
    the one written for its request: the beginning of its framed command
    (all of it unless the write was cut short), on the stream of the
    connection the handle holds.  And on an open handle, with [mu] free and
    the loop goroutine at its [select], the call can run to its return,
    whatever [WriteString] and [Flush] return. *)
Theorem SendCommand_connected (s : System) (t : tid) (cmd : string) :
  reachable s ->
  a_state (amp s) = connected ->
  calls s t = CLock (ApiSendCommand cmd) ->
  (forall evs s1 s',
      run s evs = Some s1 ->
      step s1 (LoopReply t) = Some s' ->
      calls s' t = CReturned None /\
      a_state (amp s') = connected /\
      exists ch,
        calls s1 t = CRecv ch /\
        last_chunk (new_request ch (ApiSendCommand cmd)) s') /\
  (forall cn n wr fl,
      a_conn (amp s) = Some cn ->
      a_closed (amp s) = false ->
      mu s = false ->
      loop s = LSelect ->
      exists s',
        run s [CallerLock t; SelectReq t; LoopLock; LoopWrite n wr fl; LoopReply t]
          = Some s' /\
        calls s' t = CReturned None /\
        wire s' = wire s ++
          [{| w_stream := conn_c cn;
              w_req := new_request (next_chan s) (ApiSendCommand cmd);
              w_bytes := substring 0 n (frame cmd) |}] /\
        amp s' = amp s /\
        dials s' = dials s /\
        loop s' = LSelect).
Proof.
  intros Hr Hst Hc. split.
  - intros evs s1 s' Hrun H.
    destruct (SendCommand_return s t cmd evs s1 s' Hr Hc Hrun H)
      as (ch & Hc1 & [(G1 & G2 & G3)|(_ & _ & G)]); [|contradiction].
    split; [exact G1|]. split; [exact G3|]. exists ch. auto.
  - intros cn n wr fl Hcn Hcl Hmu Hl.
    exact (SendCommand_connected_run s t cmd cn n wr fl Hr Hst Hcn Hcl Hmu Hl Hc).
Qed.

Lemma SendCommand_connected_witness :
  let s := state_after [DialReturn None; ConnectUnlock;
                        Call 1 (ApiSendCommand "PWON")] in
  (forall evs s1 s',
      run s evs = Some s1 ->
      step s1 (LoopReply 1) = Some s' ->
      calls s' 1 = CReturned None /\
      a_state (amp s') = connected /\
      exists ch,
        calls s1 1 = CRecv ch /\
        last_chunk (new_request ch (ApiSendCommand "PWON")) s') /\
  (forall cn n wr fl,
      a_conn (amp s) = Some cn ->
      a_closed (amp s) = false ->
      mu s = false ->
      loop s = LSelect ->
      exists s',
        run s [CallerLock 1; SelectReq 1; LoopLock; LoopWrite n wr fl; LoopReply 1]
          = Some s' /\
        calls s' 1 = CReturned None /\
        wire s' = wire s ++
          [{| w_stream := conn_c cn;
              w_req := new_request (next_chan s) (ApiSendCommand "PWON");
              w_bytes := substring 0 n (frame "PWON") |}] /\
        amp s' = amp s /\
        dials s' = dials s /\
        loop s' = LSelect).
Proof.
  apply (SendCommand_connected
           (state_after [DialReturn None; ConnectUnlock;
                         Call 1 (ApiSendCommand "PWON")])
           1 "PWON").
  - apply reachable_state_after. vm_compute. discriminate.
  - vm_compute. reflexivity.
  - vm_compute. reflexivity.
Defined.

(** X7: [SendCommand] on an open handle whose last attempt failed.  If the
    call gets [mu] first, its [startConnect] starts exactly one new attempt.
    Under every schedule, when the call returns it returns either "not
    connected", and then no chunk on the wire belongs to its request, or
    nil, and then a [net.Dial] has succeeded during the call and the last
    chunk on the wire is the one written for its request.  And with [mu]
    free and the loop goroutine at its [select], the call can return "not
    connected" without any [net.Dial] returning. *)
Theorem SendCommand_unconnected_retries_and_fails
  (s : System) (t : tid) (cmd : string) :
  reachable s ->
  a_state (amp s) = unconnected ->
  a_closed (amp s) = false ->
  calls s t = CLock (ApiSendCommand cmd) ->
  (mu s = false ->
   exists s1,
     step s (CallerLock t) = Some s1 /\
     a_state (amp s1) = connecting /\
     dials s1 = S (dials s) /\
     dialing s1 = 1) /\
  (forall evs s1 s',
      run s evs = Some s1 ->
      step s1 (LoopReply t) = Some s' ->
      exists ch,
        calls s1 t = CRecv ch /\
        ((calls s' t = CReturned not_connected /\ no_chunk ch s') \/
         (calls s' t = CReturned None /\
          In (DialReturn None) evs /\
          last_chunk (new_request ch (ApiSendCommand cmd)) s'))) /\
  (mu s = false ->
   loop s = LSelect ->
   exists s',
     run s [CallerLock t; SelectReq t; LoopLock; LoopReply t] = Some s' /\
     calls s' t = CReturned not_connected /\
     a_state (amp s') = connecting /\
     dials s' = S (dials s) /\
     dialing s' = 1 /\
     wire s' = wire s /\
     loop s' = LSelect).
Proof.
  intros Hr Hst Hcl Hc. split; [|split].
  - intros Hmu.
    destruct (at_most_one_attempt_in_flight_aux s Hr) as [Hd _].
    rewrite Hst in Hd. cbn in Hd.
    eexists. split.
    + cbn [step]. rewrite Hmu, Hc, (sys_startConnect_fires s Hcl Hst). reflexivity.
    + cbn. rewrite Hd. auto.
  - intros evs s1 s' Hrun H.
    destruct (SendCommand_return s t cmd evs s1 s' Hr Hc Hrun H)
      as (ch & Hc1 & [(G1 & G2 & G3)|(G1 & G2 & _)]); exists ch;
      (split; [exact Hc1|]).
    + right. split; [exact G1|]. split; [|exact G2].
      apply (run_becomes_connected evs s s1 Hrun); [congruence|].
      destruct (step_call_CRecv s1 s' _ t ch Hc1 H)
        as [[_ Hev]|(_ & e & l' & -> & _)]; [now destruct Hev|]. exact G3.
    + left. auto.
  - intros Hmu Hl.
    exact (SendCommand_unconnected_run s t cmd Hr Hst Hcl Hmu Hl Hc).
Qed.

Lemma SendCommand_unconnected_retries_and_fails_witness :
  let s := state_after [DialReturn (Some "refused"); ConnectUnlock;
                        Call 1 (ApiSendCommand "PWON")] in
  (mu s = false ->
   exists s1,
     step s (CallerLock 1) = Some s1 /\
     a_state (amp s1) = connecting /\
     dials s1 = S (dials s) /\
     dialing s1 = 1) /\
  (forall evs s1 s',
      run s evs = Some s1 ->
      step s1 (LoopReply 1) = Some s' ->
      exists ch,
        calls s1 1 = CRecv ch /\
        ((calls s' 1 = CReturned not_connected /\ no_chunk ch s') \/
         (calls s' 1 = CReturned None /\
          In (DialReturn None) evs /\
          last_chunk (new_request ch (ApiSendCommand "PWON")) s'))) /\
  (mu s = false ->
   loop s = LSelect ->
   exists s',
     run s [CallerLock 1; SelectReq 1; LoopLock; LoopReply 1] = Some s' /\
     calls s' 1 = CReturned not_connected /\
     a_state (amp s') = connecting /\
     dials s' = S (dials s) /\
     dialing s' = 1 /\
     wire s' = wire s /\
     loop s' = LSelect).
Proof.
  apply (SendCommand_unconnected_retries_and_fails
           (state_after [DialReturn (Some "refused"); ConnectUnlock;
                         Call 1 (ApiSendCommand "PWON")])
           1 "PWON").
  - apply reachable_state_after. vm_compute. discriminate.
  - vm_compute. reflexivity.
  - vm_compute. reflexivity.
  - vm_compute. reflexivity.
Defined.

(** ** A waiter registered while an attempt is in flight *)

Lemma step_quiet (s s' : System) (ev : event) :
  quiet ev = true ->
  step s ev = Some s' ->
  amp s' = amp s /\ fanout s' = fanout s /\ dials s' = dials s /\ mu s' = mu s.
Proof.
  intros Hq H.
  destruct ev; try discriminate; cbn [step] in H; break_step H; auto.
Qed.

Lemma fan_state_reachable (s : System) (acts : list action) :
  reachable s -> fanout s = Some acts -> a_state (amp s) <> connecting.
Proof.
  intros Hr. revert acts. pattern s. revert s Hr. apply reachable_ind.
  - intros addr acts H. discriminate.
  - intros s s' ev Hr IH H acts Hfo.
    pose proof (attempts_inv_reachable s Hr) as Hatt.
    pose proof (attempts_inv_fanout_free s Hatt) as Hfree.
    destruct (quiet ev) eqn:Hq.
    + destruct (step_quiet s s' ev Hq H) as (-> & G & _). rewrite G in Hfo.
      exact (IH acts Hfo).
    + destruct (sys_startConnect_closed s) as (_ & _ & _ & _ & _ & _ & _ & _ & G).
      destruct ev; try discriminate.
      * apply step_CallerLock in H.
        destruct H as [Hmu [[_ ->]|(op & _ & _ & ->)]]; cbn in Hfo.
        -- destruct (perform_all_frame (snd (fst (Close (amp s))))
                       (with_amp (set_closed true (amp s)) s))
             as (_ & _ & _ & G' & _).
           rewrite G' in Hfo. cbn in Hfo. rewrite (Hfree Hmu) in Hfo. discriminate.
        -- rewrite G, (Hfree Hmu) in Hfo. discriminate.
      * cbn [step] in H. destruct (mu s) eqn:Hmu; [discriminate|].
        specialize (Hfree eq_refl).
        break_step H; cbn in Hfo; rewrite ?G, ?Hfree in Hfo; discriminate.
      * pose proof (step_state s s' _ H) as Hst. cbn in Hst. rewrite Hst.
        destruct e; discriminate.
      * cbn [step] in H. break_step H. cbn. eapply IH. reflexivity.
      * apply step_ConnectUnlock in H. destruct H as (acts0 & _ & ->). discriminate.
Qed.

Lemma step_LPingWait (s s' : System) (ev : event) (req : request) (ch : chan) :
  loop s = LPingWait req ch ->
  step s ev = Some s' ->
  (loop s' = LPingWait req ch /\ ev <> ListenerSend /\ ev <> LoopLock) \/
  (ev = ListenerSend /\
   exists e rest,
     fanout s = Some (SendErr ch e :: rest) /\
     s' = with_loop (LPingReply2 req e) (with_fanout (Some rest) s)).
Proof.
  intros Hl H.
  destruct (sys_startConnect_closed s) as (_ & _ & _ & _ & G & _).
  destruct ev.
  - left. cbn [step] in H. break_step H. repeat split; auto; discriminate.
  - left. apply step_CallerLock in H.
    destruct H as [Hmu [[_ ->]|(op & _ & _ & ->)]]; cbn.
    + destruct (perform_all_frame (snd (fst (Close (amp s))))
                  (with_amp (set_closed true (amp s)) s)) as (_ & _ & G' & _).
      rewrite G'. repeat split; auto; discriminate.
    + rewrite G. repeat split; auto; discriminate.
  - left. cbn [step] in H. break_step H. repeat split; auto; discriminate.
  - cbn [step] in H. rewrite Hl in H. discriminate.
  - cbn [step] in H. rewrite Hl in H. discriminate.
  - cbn [step] in H. rewrite Hl in H. discriminate.
  - cbn [step] in H. rewrite Hl in H. discriminate.
  - cbn [step] in H. rewrite Hl in H. now destruct (mu s).
  - cbn [step] in H. rewrite Hl in H. discriminate.
  - cbn [step] in H. rewrite Hl in H. discriminate.
  - cbn [step] in H. rewrite Hl in H. now destruct (calls s t).
  - left. apply step_DialReturn in H. destruct H as (n & d & _ & _ & _ & _ & ->).
    repeat split; auto; discriminate.
  - right. split; [reflexivity|]. cbn [step] in H. rewrite Hl in H.
    destruct (fanout s) as [[|[] rest]|]; try discriminate.
    destruct (Nat.eqb_spec ch0 ch) as [->|]; [|discriminate].
    injection H as <-. eauto.
  - left. apply step_ConnectUnlock in H. destruct H as (acts & Hfo & ->).
    destruct (perform_all_frame acts s) as (_ & _ & G' & _).
    cbn. rewrite G'. repeat split; auto; discriminate.
  - left. cbn [step] in H. break_step H; repeat split; auto; discriminate.
Qed.

Lemma step_CallerLock_connecting (s s' : System) (t : tid) :
  a_state (amp s) = connecting ->
  step s (CallerLock t) = Some s' ->
  a_stateListeners (amp s') = a_stateListeners (amp s) /\
  a_state (amp s') = connecting /\
  fanout s' = fanout s /\ mu s' = mu s /\ dials s' = dials s.
Proof.
  intros Hst H.
  assert (sys_startConnect s = with_amp (amp s) s) as Hsc
      by (apply sys_startConnect_noop; congruence).
  apply step_CallerLock in H. destruct H as [Hmu [[_ ->]|(op & _ & _ & ->)]].
  - rewrite Close_spec. unfold perform_all.
    destruct (a_closed (amp s)); destruct (a_conn (amp s)); cbn; auto.
  - rewrite Hsc. cbn. auto.
Qed.

Lemma quiet_facts (ev : event) :
  quiet ev = true ->
  is_ListenerSend ev = false /\ (forall e, ev <> DialReturn e) /\ ev <> ConnectUnlock.
Proof. destruct ev; try discriminate; repeat split; intros; discriminate. Qed.

Lemma no_DialReturn_snoc (l : list event) (ev : event) :
  (forall e, ~ In (DialReturn e) l) ->
  (forall e, ev <> DialReturn e) ->
  forall e, ~ In (DialReturn e) (l ++ [ev]).
Proof.
  intros Hl Hev e Hin. apply in_app_or in Hin. destruct Hin as [Hin|[E|[]]].
  - exact (Hl e Hin).
  - exact (Hev e E).
Qed.

Lemma not_In_snoc (l : list event) (ev x : event) :
  ~ In x l -> ev <> x -> ~ In x (l ++ [ev]).
Proof.
  intros Hl Hev Hin. apply in_app_or in Hin. destruct Hin as [Hin|[E|[]]]; auto.
Qed.

Lemma filter_snoc (l : list event) (ev : event) :
  is_ListenerSend ev = false ->
  filter is_ListenerSend (l ++ [ev]) = filter is_ListenerSend l.
Proof. intros H. rewrite filter_app. cbn. rewrite H. apply app_nil_r. Qed.

Lemma wait_track_step
  (s0 : System) (req : request) (ch : chan) (t : tid)
  (evs : list event) (s s' : System) (ev : event) :
  reachable s ->
  wait_track s0 req ch t evs s ->
  step s ev = Some s' ->
  wait_track s0 req ch t (evs ++ [ev]) s'.
Proof.
  intros Hr Htr H.
  destruct Htr as [P0|(e & evs1 & evs2 & Hevs & Hno1 & [P1|P2])].
  - destruct P0 as (HnoD & HnoL & Hfo & Hmu & Hls & Hst & Hd & Hl & Hc).
    destruct (step_LPingWait s s' ev req ch Hl H)
      as [(Hl' & HnLS & HnLL)|(_ & e & rest & Hfo' & _)]; [|congruence].
    destruct (step_call_CRecv s s' ev t _ Hc H)
      as [[Hc' _]|(_ & e & l' & _ & Hcase)].
    2:{ destruct Hcase as [(r & E & _)|[(r & E & _)|(r & rs & rest & E & _)]];
          congruence. }
    destruct (quiet ev) eqn:Hq.
    + destruct (step_quiet s s' ev Hq H) as (Ha & Gf & Gd & Gm).
      destruct (quiet_facts ev Hq) as (Q1 & Q2 & Q3).
      left. rewrite Ha, Gf, Gd, Gm. repeat split; auto.
      * now apply no_DialReturn_snoc.
      * now rewrite filter_snoc.
    + destruct ev; try discriminate.
      * destruct (step_CallerLock_connecting s s' t0 Hst H)
          as (G1 & G2 & G3 & G4 & G5).
        left. rewrite G1, G3, G4, G5. repeat split; auto.
        -- apply no_DialReturn_snoc; [exact HnoD|discriminate].
        -- now rewrite filter_snoc.
      * now destruct HnLL.
      * right. exists e, evs, []. split; [reflexivity|]. split; [exact HnoD|].
        left. split; [intros e' []|].
        split; [now rewrite filter_snoc|].
        cbn [step] in H. rewrite Hmu, Hfo in H.
        destruct (dialing s); [discriminate|].
        unfold connect, setState in H.
        destruct e as [msg|]; cbn in H; rewrite Hls in H; cbn in H;
          injection H as <-; cbn; (split; [eexists; split; reflexivity|]);
          unfold in_section; cbn; auto 10.
      * now destruct HnLS.
      * cbn [step] in H. rewrite Hfo in H. discriminate.
  - destruct P1 as (HnoD2 & HnoL & (rest & Hfo & Hrest) & Hsec & Hl & Hc).
    destruct Hsec as (Hmu & Hls & Hst & Her & Hd).
    destruct (step_LPingWait s s' ev req ch Hl H)
      as [(Hl' & HnLS & HnLL)|(-> & e' & rest' & Hfo' & ->)].
    + destruct (step_call_CRecv s s' ev t _ Hc H)
        as [[Hc' _]|(_ & e' & l' & _ & Hcase)].
      2:{ destruct Hcase as [(r & E & _)|[(r & E & _)|(r & rs & rest' & E & _)]];
            congruence. }
      destruct (quiet ev) eqn:Hq.
      * destruct (step_quiet s s' ev Hq H) as (Ha & Gf & Gd & Gm).
        destruct (quiet_facts ev Hq) as (Q1 & Q2 & Q3).
        right. exists e, evs1, (evs2 ++ [ev]).
        split; [rewrite Hevs, <- app_assoc; reflexivity|]. split; [exact Hno1|].
        left. split; [now apply no_DialReturn_snoc|].
        split; [now rewrite filter_snoc|].
        split; [exists rest; rewrite Gf; auto|].
        unfold in_section. rewrite Ha, Gd, Gm. auto 10.
      * destruct ev; try discriminate; cbn [step] in H; rewrite ?Hmu, ?Hfo in H;
          try discriminate.
        now destruct HnLS.
    + rewrite Hfo in Hfo'. injection Hfo' as <- <-.
      right. exists e, evs1, (evs2 ++ [ListenerSend]).
      split; [rewrite Hevs, <- app_assoc; reflexivity|]. split; [exact Hno1|].
      right. split.
      * intros _. split; [apply no_DialReturn_snoc; [exact HnoD2|discriminate]|].
        split; [rewrite filter_app, HnoL; reflexivity|].
        split; [exists rest; auto|].
        unfold in_section. cbn. auto 10.
      * left. split; [reflexivity|exact Hc].
  - destruct P2 as (Hbr & Hlc).
    right. exists e, evs1, (evs2 ++ [ev]).
    split; [rewrite Hevs, <- app_assoc; reflexivity|]. split; [exact Hno1|].
    right. split.
    + intros HnCU.
      assert (~ In ConnectUnlock evs /\ ev <> ConnectUnlock) as [HnCU' Hev].
      { split; intros E; apply HnCU; apply in_or_app; [now left|right; now left]. }
      destruct (Hbr HnCU') as (HnoD2 & Hlen & (rest & Hfo & Hrest) & Hsec).
      destruct Hsec as (Hmu & Hls & Hst & Her & Hd).
      destruct (quiet ev) eqn:Hq.
      * destruct (step_quiet s s' ev Hq H) as (Ha & Gf & Gd & Gm).
        destruct (quiet_facts ev Hq) as (Q1 & Q2 & Q3).
        split; [now apply no_DialReturn_snoc|].
        split; [now rewrite filter_snoc|].
        split; [exists rest; rewrite Gf; auto|].
        unfold in_section. rewrite Ha, Gd, Gm. auto 10.
      * destruct ev; try discriminate; cbn [step] in H; rewrite ?Hmu, ?Hfo in H;
          try discriminate; [|now destruct Hev].
        destruct rest as [|[] rest]; discriminate.
    + destruct Hlc as [[Hl Hc]|Hc].
      * destruct (step_call_CRecv s s' ev t _ Hc H)
          as [[Hc' Hev]|(_ & e' & l' & -> & Hcase)].
        -- left. split; [|exact Hc'].
           pose proof (step_ping_loop s s' ev H) as Hlo. rewrite Hl in Hlo.
           destruct Hlo as [E|[t0 ->]]; [exact E|].
           exfalso. apply Hev. f_equal.
           cbn [step] in H. destruct (calls s t0) eqn:Hc0; try discriminate.
           destruct (served_inv_reachable s Hr) as [_ Hu].
           exact (Hu _ _ _ _ Hc0 Hc).
        -- right. cbn. rewrite upd_same.
           destruct Hcase as [(r & E & _)|[(r & E & _)|(r & rs & rest & E & _)]];
             congruence.
      * right. destruct (step_call_done s s' ev t H) as [G _]. exact (G e Hc).
Qed.

Lemma wait_track_run
  (s0 : System) (req : request) (ch : chan) (t : tid)
  (evs2 evs1 : list event) (s1 s2 : System) :
  reachable s1 ->
  wait_track s0 req ch t evs1 s1 ->
  run s1 evs2 = Some s2 ->
  wait_track s0 req ch t (evs1 ++ evs2) s2.
Proof.
  revert evs1 s1.
  induction evs2 as [|ev evs2 IH]; intros evs1 s1 Hr Htr H; cbn in H.
  - injection H as <-. now rewrite app_nil_r.
  - destruct (step s1 ev) as [s1'|] eqn:Hs; [|discriminate].
    replace (evs1 ++ ev :: evs2) with ((evs1 ++ [ev]) ++ evs2)
      by (rewrite <- app_assoc; reflexivity).
    apply (IH (evs1 ++ [ev]) s1').
    + exact (reachable_step s1 s1' ev Hr Hs).
    + exact (wait_track_step s0 req ch t evs1 s1 s1' ev Hr Htr Hs).
    + exact H.
Qed.

Lemma registered_waiter (s : System) (req : request) (ch : chan) :
  reachable s ->
  a_state (amp s) = connecting ->
  loop s = LPingWait req ch ->
  a_stateListeners (amp s) = [ch] /\ dialing s = 1 /\ fanout s = None /\ mu s = false.
Proof.
  intros Hr Hst Hl.
  assert (fanout s = None) as Hfo.
  { destruct (fanout s) as [acts|] eqn:E; [|reflexivity].
    now destruct (fan_state_reachable s acts Hr E). }
  assert (mu s = false) as Hmu.
  { destruct (mu s) eqn:E; [|reflexivity].
    destruct (mu_inv_reachable s Hr E) as [G|(r & c & G)]; congruence. }
  pose proof (listeners_inv_reachable s Hr) as Hli.
  unfold listeners_inv in Hli. rewrite Hfo in Hli.
  destruct (attempts_inv_reachable s Hr) as [Hd _]. rewrite Hst in Hd.
  destruct (a_stateListeners (amp s)) as [|ch0 [|]].
  - rewrite Hl in Hli. now destruct (Hli req ch).
  - destruct Hli as [_ [r E]]. rewrite Hl in E. injection E as _ ->. auto.
  - contradiction.
Qed.

(** C3: a waiter registered while an attempt is in flight gets the outcome
    of that attempt, once.  Let the state be [connecting] with the loop
    goroutine in [handlePing] receiving from the waiter channel [ch] for the
    request of caller [t].  Then [ch] is the one registered waiter and one
    attempt is in flight.  Under every schedule: as long as no [net.Dial]
    has returned, the waiter stays registered, the state stays [connecting]
    and no attempt is started; when [connect] ends its critical section,
    one [net.Dial] has returned, with some [e], one send to a waiter has
    taken place, the collection of waiters is empty, the state is that of
    [e], no attempt has been started, and [e] has reached the loop goroutine
    or already the caller; and whatever the caller returns is the result of
    the first [net.Dial] to return.  Whatever [net.Dial] returns, the
    delivery can run to the caller's return. *)
Theorem C3_waiters_get_the_outcome_once
  (s : System) (req : request) (ch : chan) (t : tid) :
  reachable s ->
  a_state (amp s) = connecting ->
  loop s = LPingWait req ch ->
  calls s t = CRecv (req_ch req) ->
  (a_stateListeners (amp s) = [ch] /\ dialing s = 1) /\
  (forall evs s',
      run s evs = Some s' ->
      (forall e, ~ In (DialReturn e) evs) ->
      a_stateListeners (amp s') = [ch] /\
      a_state (amp s') = connecting /\
      dials s' = dials s /\
      loop s' = LPingWait req ch /\
      calls s' t = CRecv (req_ch req)) /\
  (forall evs s1 s2,
      run s evs = Some s1 ->
      ~ In ConnectUnlock evs ->
      step s1 ConnectUnlock = Some s2 ->
      exists e evs1 evs2,
        evs = evs1 ++ DialReturn e :: evs2 /\
        (forall e', ~ In (DialReturn e') (evs1 ++ evs2)) /\
        length (filter is_ListenerSend evs) = 1 /\
        a_stateListeners (amp s2) = [] /\
        a_state (amp s2) = outcome_state e /\
        a_err (amp s2) = e /\
        dials s2 = dials s /\
        ((loop s2 = LPingReply2 req e /\ calls s2 t = CRecv (req_ch req)) \/
         calls s2 t = CReturned e)) /\
  (forall evs s' e,
      run s evs = Some s' ->
      calls s' t = CReturned e ->
      exists evs1 evs2,
        evs = evs1 ++ DialReturn e :: evs2 /\
        forall e', ~ In (DialReturn e') evs1) /\
  (forall e,
   exists s',
     run s [DialReturn e; ListenerSend; ConnectUnlock; LoopReply t] = Some s' /\
     calls s' t = CReturned e /\
     a_stateListeners (amp s') = [] /\
     a_state (amp s') = outcome_state e /\
     dials s' = dials s).
Proof.
  intros Hr Hst Hl Hc.
  destruct (registered_waiter s req ch Hr Hst Hl) as (Hls & Hd & Hfo & Hmu).
  assert (wait_track s req ch t [] s) as H0.
  { left. repeat split; auto. }
  assert (forall evs s', run s evs = Some s' -> wait_track s req ch t evs s')
    as Htrack.
  { intros evs s' Hrun.
    exact (wait_track_run s req ch t evs [] s s' Hr H0 Hrun). }
  split; [auto|]. split; [|split; [|split]].
  - intros evs s' Hrun HnoD.
    destruct (Htrack evs s' Hrun)
      as [(_ & _ & _ & _ & G1 & G2 & G3 & G4 & G5)|(e & evs1 & evs2 & -> & _)].
    + auto.
    + destruct (HnoD e). apply in_or_app. right. now left.
  - intros evs s1 s2 Hrun HnCU H.
    pose proof (reachable_run s s1 evs Hr Hrun) as Hr1.
    pose proof H as H'.
    apply step_ConnectUnlock in H. destruct H as (acts & Hfo1 & ->).
    destruct (Htrack evs s1 Hrun)
      as [(_ & _ & G & _)|(e & evs1 & evs2 & Hevs & Hno1 & [P1|[Hbr Hlc]])].
    + congruence.
    + destruct P1 as (_ & _ & (rest & G & _) & _).
      cbn [step] in H'. rewrite G in H'. discriminate.
    + destruct (Hbr HnCU) as (HnoD2 & Hlen & (rest & Hfo2 & Hrest) & Hsec).
      destruct Hsec as (Hmu1 & Hls1 & Hst1 & Her1 & Hd1).
      destruct (attempts_inv_reachable s1 Hr1) as [_ Hfa].
      rewrite Hfo1 in Hfa. destruct Hfa as [_ Hfa].
      destruct (perform_all_frame acts s1) as (Ga & _ & Gl & _ & Gc & _).
      destruct (perform_all_fan acts s1 Hfa) as (_ & Gd & _).
      exists e, evs1, evs2. split; [exact Hevs|]. split.
      { intros e' Hin. apply in_app_or in Hin.
        destruct Hin as [Hin|Hin]; [exact (Hno1 e' Hin)|exact (HnoD2 e' Hin)]. }
      split; [exact Hlen|]. cbn. rewrite Ga, Gl, Gc, Gd. auto 10.
  - intros evs s' e Hrun Hret.
    destruct (Htrack evs s' Hrun)
      as [(_ & _ & _ & _ & _ & _ & _ & _ & G)|(e0 & evs1 & evs2 & Hevs & Hno1 & [P1|[_ Hlc]])].
    + congruence.
    + destruct P1 as (_ & _ & _ & _ & _ & G). congruence.
    + destruct Hlc as [[_ G]|G]; [congruence|].
      assert (e0 = e) as -> by congruence.
      exists evs1, evs2. auto.
  - intros e.
    destruct (Ping_returns_outcome_of_attempt s req ch t e Hr Hl Hmu Hc)
      as (_ & _ & s' & G1 & G2 & G3 & G4 & G5 & G6 & G7).
    exists s'. auto 10.
Qed.

Lemma C3_waiters_get_the_outcome_once_witness :
  let s := state_after [Call 1 ApiPing; CallerLock 1; SelectReq 1;
                        LoopLock; LoopLock; LoopLock] in
  let req := {| req_ch := 0; req_cmd := pingCmd; req_raw := "" |} in
  (a_stateListeners (amp s) = [1] /\ dialing s = 1) /\
  (forall evs s',
      run s evs = Some s' ->
      (forall e, ~ In (DialReturn e) evs) ->
      a_stateListeners (amp s') = [1] /\
      a_state (amp s') = connecting /\
      dials s' = dials s /\
      loop s' = LPingWait req 1 /\
      calls s' 1 = CRecv (req_ch req)) /\
  (forall evs s1 s2,
      run s evs = Some s1 ->
      ~ In ConnectUnlock evs ->
      step s1 ConnectUnlock = Some s2 ->
      exists e evs1 evs2,
        evs = evs1 ++ DialReturn e :: evs2 /\
        (forall e', ~ In (DialReturn e') (evs1 ++ evs2)) /\
        length (filter is_ListenerSend evs) = 1 /\
        a_stateListeners (amp s2) = [] /\
        a_state (amp s2) = outcome_state e /\
        a_err (amp s2) = e /\
        dials s2 = dials s /\
        ((loop s2 = LPingReply2 req e /\ calls s2 1 = CRecv (req_ch req)) \/
         calls s2 1 = CReturned e)) /\
  (forall evs s' e,
      run s evs = Some s' ->
      calls s' 1 = CReturned e ->
      exists evs1 evs2,
        evs = evs1 ++ DialReturn e :: evs2 /\
        forall e', ~ In (DialReturn e') evs1) /\
  (forall e,
   exists s',
     run s [DialReturn e; ListenerSend; ConnectUnlock; LoopReply 1] = Some s' /\
     calls s' 1 = CReturned e /\
     a_stateListeners (amp s') = [] /\
     a_state (amp s') = outcome_state e /\
     dials s' = dials s).
Proof.
  apply (C3_waiters_get_the_outcome_once
           (state_after [Call 1 ApiPing; CallerLock 1; SelectReq 1;
                         LoopLock; LoopLock; LoopLock])
           {| req_ch := 0; req_cmd := pingCmd; req_raw := "" |} 1 1).
  - apply reachable_state_after. vm_compute. discriminate.
  - vm_compute. reflexivity.
  - vm_compute. reflexivity.
  - vm_compute. reflexivity.
Defined.
